(** * aphrodite-shared: orientation transforms, wheel loading, versioning,
      migration and registry, embedded from the TypeScript sources.

    Numbers are modelled twice.  In the modules [Orientation] and
    [Versioning] they are exact: the rationals [Q] and the naturals [N],
    every arithmetic step carried out without rounding, equality of
    numbers being [==]; a value that the source can only produce as [NaN]
    is the constructor [NaN] of [number].  In the module [Doubles] they are
    the doubles of the program itself: every sum, difference, product and
    quotient is rounded to the nearest double, ties to even.  Version
    numbers are read exactly; where a statement depends on it, it is made
    of the safe integers (at most 2^53 - 1), which the program reads
    exactly too. *)

From stdpp Require Import base option list strings gmap.
From Stdlib Require Import ZArith QArith Qround Qabs Qpower Lqa Lia.
From Stdlib Require PrimFloat FloatOps SpecFloat.
From Stdlib Require Import Ascii String DecimalString DecimalPos DecimalN DecimalZ DecimalNat.

Local Open Scope Q_scope.
Set Warnings "-register-all,-inexact-float".

(** ** JavaScript numbers over exact arithmetic *)

Module JsNumber.

(** [Math.trunc] on a rational: the integer part, rounded towards zero. *)
Definition truncate (x : Q) : Z := Z.quot (Qnum x) (Zpos (Qden x)).

(** The [%] operator: the remainder takes the sign of the dividend. *)
Definition rem (x m : Q) : Q := x - m * inject_Z (truncate (x / m)).

Definition Qltb (x y : Q) : bool := negb (Qle_bool y x).
Definition Qgtb (x y : Q) : bool := Qltb y x.
Definition Qgeb (x y : Q) : bool := Qle_bool y x.

(** The result of a numeric expression: a finite value or [NaN]. *)
Inductive number : Type :=
| Finite (q : Q)
| NaN.

(** The [===] comparison of two numbers; [NaN] is equal to nothing. *)
Definition strictEq (a b : number) : Prop :=
  match a, b with
  | Finite x, Finite y => x == y
  | _, _ => False
  end.

(** The same value (as [Object.is] has it): [NaN] is the same as [NaN]. *)
Definition sameValue (a b : number) : Prop :=
  match a, b with
  | Finite x, Finite y => x == y
  | NaN, NaN => True
  | _, _ => False
  end.

Definition bindNumber (a : number) (k : Q -> number) : number :=
  match a with
  | Finite x => k x
  | NaN => NaN
  end.

End JsNumber.

Import JsNumber.

(** ** Orientation types *)

Module Orientation.

Inductive ReferenceFrame : Type := ecliptic | houses | signs | angles.

(** [AstroObjectId = number | string]. *)
Inductive AstroObjectId : Type :=
| IdNumber (n : Q)
| IdString (s : string).

(** [HouseNumber] (1..12) and [SignNumber] (0..11) are numbers. *)
Definition HouseNumber : Type := Q.
Definition SignNumber : Type := Q.

Inductive AngleType : Type := ASC | DESC | MC | IC.

Definition angleTypeString (t : AngleType) : string :=
  match t with
  | ASC => "ASC"
  | DESC => "DESC"
  | MC => "MC"
  | IC => "IC"
  end.

Inductive AnchorTargetUnion : Type :=
| AnchorTarget (id : AstroObjectId)
| AnchorTargetHouse (index : HouseNumber)
| AnchorTargetSign (index : SignNumber)
| AnchorTargetAngle (type : AngleType).

(** The field [direction] is declared twice in the source: ['cw' | 'ccw']
    for the anchor-based model and [1 | -1] for the worldZero/screenZero
    model.  One field holds any of the four values, or is omitted. *)
Inductive Direction : Type := cw | ccw | plus1 | minus1.

Record ViewFrame : Type := mkViewFrame {
  referenceFrame : ReferenceFrame;
  anchor : AnchorTargetUnion;
  screenAngleDeg : Q;
  direction : option Direction;
  radialFlip : option bool;
  angularFlip : option bool;
  worldZero : option Q;
  screenZero : option Q;
  scale : option Q
}.

Inductive LockFrame : Type := lockWorld | lockHouses | lockSigns | lockScreen.

Inductive LockSubject : Type :=
| LockSubjectObject (ids : list AstroObjectId)
| LockSubjectHouse (indices : option (list HouseNumber))
| LockSubjectSign (indices : option (list SignNumber))
| LockSubjectAngle (types : option (list AngleType)).

Inductive LockMode : Type := exact | followAnchorMode.

Record LockRule : Type := mkLockRule {
  subject : LockSubject;
  frame : LockFrame;
  mode : LockMode;
  followAnchor : option AnchorTargetUnion
}.

(** The [elementType] argument of [lockRuleApplies]. *)
Inductive ElementKind : Type := kindObject | kindHouse | kindSign | kindAngle.

Definition subjectKind (s : LockSubject) : ElementKind :=
  match s with
  | LockSubjectObject _ => kindObject
  | LockSubjectHouse _ => kindHouse
  | LockSubjectSign _ => kindSign
  | LockSubjectAngle _ => kindAngle
  end.

Definition ElementKind_eqb (a b : ElementKind) : bool :=
  match a, b with
  | kindObject, kindObject | kindHouse, kindHouse
  | kindSign, kindSign | kindAngle, kindAngle => true
  | _, _ => false
  end.

(** ** Angle arithmetic *)

(** [normalizeDeg]: normalize an angle to the 0-360 range. *)
Definition normalizeDeg (degrees : Q) : Q :=
  let normalized := rem degrees 360 in
  if Qltb normalized 0 then normalized + 360 else normalized.

(** [while (offset > 180) offset -= 360], run for at most [fuel] rounds. *)
Fixpoint whileAbove (fuel : nat) (offset : Q) : Q :=
  match fuel with
  | O => offset
  | S fuel' =>
      if Qgtb offset 180 then whileAbove fuel' (offset - 360) else offset
  end.

(** [while (offset < -180) offset += 360], run for at most [fuel] rounds. *)
Fixpoint whileBelow (fuel : nat) (offset : Q) : Q :=
  match fuel with
  | O => offset
  | S fuel' =>
      if Qltb offset (-180) then whileBelow fuel' (offset + 360) else offset
  end.

(** A number of rounds after which either loop has stopped. *)
Definition turnsOf (offset : Q) : nat :=
  Z.to_nat (Qceiling (Qabs offset / 360)).

(** The two loops of the anchor-based model, one after the other. *)
Definition wrapOffset (offset : Q) : Q :=
  let offset1 := whileAbove (turnsOf offset) offset in
  whileBelow (turnsOf offset1) offset1.

(** Big-step run of [while (cond x) x = body x]: [whileRuns cond body x y]
    when the loop entered with [x] leaves with [y]. *)
Inductive whileRuns (cond : Q -> bool) (body : Q -> Q) : Q -> Q -> Prop :=
| whileStop x : cond x = false -> whileRuns cond body x x
| whileStep x y :
    cond x = true -> whileRuns cond body (body x) y -> whileRuns cond body x y.

(** The conditions and bodies of the two loops. *)
Definition above180 (offset : Q) : bool := Qgtb offset 180.
Definition below180 (offset : Q) : bool := Qltb offset (-180).
Definition minus360 (offset : Q) : Q := offset - 360.
Definition plus360 (offset : Q) : Q := offset + 360.

(** The two [if]s of the worldZero/screenZero model: one step each way. *)
Definition foldOnce (delta : Q) : Q :=
  let normalizedDelta := delta in
  let normalizedDelta :=
    if Qgtb normalizedDelta 180 then normalizedDelta - 360 else normalizedDelta in
  if Qltb normalizedDelta (-180) then normalizedDelta + 360 else normalizedDelta.

(** The value of [direction] in the product, after the default [= 1]:
    a string multiplies to [NaN]. *)
Definition directionNumber (d : option Direction) : number :=
  match d with
  | None => Finite 1
  | Some plus1 => Finite 1
  | Some minus1 => Finite (-1)
  | Some cw | Some ccw => NaN
  end.

Definition isCcw (d : option Direction) : bool :=
  match d with Some ccw => true | _ => false end.

(** Truthiness of an optional boolean field. *)
Definition truthy (b : option bool) : bool := default false b.

(** ** Anchors *)

(** The chart data behind an anchor; a lookup that finds nothing gives
    [None], the source's [null]. *)
Record AnchorLongitudeResolver : Type := mkResolver {
  getObjectLongitude : AstroObjectId -> option Q;
  getHouseCusp : HouseNumber -> option Q;
  getSignStart : SignNumber -> Q;
  getAngleLongitude : AngleType -> option Q
}.

Definition getAnchorLongitude (anchor : AnchorTargetUnion)
    (resolver : AnchorLongitudeResolver) : option Q :=
  match anchor with
  | AnchorTarget id => getObjectLongitude resolver id
  | AnchorTargetHouse index => getHouseCusp resolver index
  | AnchorTargetSign index => Some (getSignStart resolver index)
  | AnchorTargetAngle type => getAngleLongitude resolver type
  end.

(** ** View-frame transforms *)

(** [direction] is one of the numbers 1 and -1, or omitted. *)
Definition numericDirection (d : option Direction) : bool :=
  match d with
  | Some cw | Some ccw => false
  | _ => true
  end.

(** [viewFrame.worldZero !== undefined && viewFrame.screenZero !== undefined]. *)
Definition usesZeroPoint (viewFrame : ViewFrame) : bool :=
  match worldZero viewFrame, screenZero viewFrame with
  | Some _, Some _ => true
  | _, _ => false
  end.

Definition worldToScreenAngle
    (worldLongitude : Q) (viewFrame : ViewFrame) (anchorLongitude : Q) : number :=
  match worldZero viewFrame, screenZero viewFrame with
  | Some worldZero, Some screenZero =>
      let scale := default 1 (scale viewFrame) in
      let delta := normalizeDeg (worldLongitude - worldZero) in
      let normalizedDelta := foldOnce delta in
      bindNumber (directionNumber (direction viewFrame)) (fun direction =>
        Finite (normalizeDeg (screenZero + direction * normalizedDelta * scale)))
  | _, _ =>
      let offset := wrapOffset (worldLongitude - anchorLongitude) in
      let offset := if isCcw (direction viewFrame) then - offset else offset in
      let screenAngle := screenAngleDeg viewFrame + offset in
      let screenAngle :=
        if truthy (angularFlip viewFrame)
        then screenAngleDeg viewFrame - (screenAngle - screenAngleDeg viewFrame)
        else screenAngle in
      Finite (normalizeDeg screenAngle)
  end.

(** In the worldZero/screenZero branch a zero [scale] makes the quotient
    infinite or [NaN], and [normalizeDeg] of either is [NaN]. *)
Definition screenToWorldLongitude
    (screenAngle : Q) (viewFrame : ViewFrame) (anchorLongitude : Q) : number :=
  match worldZero viewFrame, screenZero viewFrame with
  | Some worldZero, Some screenZero =>
      let scale := default 1 (scale viewFrame) in
      let normalizedScreen := normalizeDeg screenAngle in
      let delta := normalizedScreen - screenZero in
      let normalizedDelta := foldOnce delta in
      if Qeq_bool scale 0 then NaN
      else
        bindNumber (directionNumber (direction viewFrame)) (fun direction =>
          Finite (normalizeDeg (worldZero + (normalizedDelta / scale) * direction)))
  | _, _ =>
      let normalizedScreen := normalizeDeg screenAngle in
      let offset := wrapOffset (normalizedScreen - screenAngleDeg viewFrame) in
      let offset := if truthy (angularFlip viewFrame) then - offset else offset in
      let offset := if isCcw (direction viewFrame) then - offset else offset in
      Finite (normalizeDeg (anchorLongitude + offset))
  end.

(** The frames of the worldZero/screenZero model on which the inverse
    undoes the forward transform: [direction] is a number, and [scale] is 1
    or -1, or lies strictly between -1 and 1 (0 apart) with [screenZero]
    between 0 and 360. *)
Definition invertibleZeroPoint (viewFrame : ViewFrame) : Prop :=
  usesZeroPoint viewFrame = true /\
  numericDirection (direction viewFrame) = true /\
  (Qabs (default 1 (scale viewFrame)) == 1 \/
   (0 < Qabs (default 1 (scale viewFrame)) /\
    Qabs (default 1 (scale viewFrame)) < 1 /\
    0 <= default 0 (screenZero viewFrame) /\
    default 0 (screenZero viewFrame) <= 360)).

Definition resolveWorldZero (viewFrame : ViewFrame)
    (resolver : AnchorLongitudeResolver) : option Q :=
  match worldZero viewFrame with
  | Some worldZero => Some worldZero
  | None => getAnchorLongitude (anchor viewFrame) resolver
  end.

(** The inverse after the forward transform; a [NaN] screen angle stays
    [NaN] through every step of [screenToWorldLongitude]. *)
Definition roundTrip (worldLongitude : Q) (viewFrame : ViewFrame) (anchorLongitude : Q)
    : number :=
  bindNumber (worldToScreenAngle worldLongitude viewFrame anchorLongitude)
    (fun screenAngle => screenToWorldLongitude screenAngle viewFrame anchorLongitude).

(** ** Lock rules *)

(** The [elementId] argument: a number or a string. *)
Definition ElementId : Type := AstroObjectId.

(** [ids.includes(elementId)]: numbers match numbers, strings strings. *)
Definition sameId (a b : AstroObjectId) : bool :=
  match a, b with
  | IdNumber x, IdNumber y => Qeq_bool x y
  | IdString x, IdString y => String.eqb x y
  | _, _ => false
  end.

Definition idsInclude (ids : list AstroObjectId) (elementId : ElementId) : bool :=
  existsb (fun id => sameId id elementId) ids.

Definition indicesInclude (indices : list Q) (elementId : ElementId) : bool :=
  existsb (fun index => sameId (IdNumber index) elementId) indices.

Definition typesInclude (types : list AngleType) (elementId : ElementId) : bool :=
  existsb (fun t => sameId (IdString (angleTypeString t)) elementId) types.

(** [!list] is true for an omitted list only: an array, empty or not, is
    truthy. *)
Definition lockRuleApplies (rule : LockRule) (elementType : ElementKind)
    (elementId : ElementId) : bool :=
  if negb (ElementKind_eqb (subjectKind (subject rule)) elementType) then false
  else
    match subject rule with
    | LockSubjectObject ids => idsInclude ids elementId
    | LockSubjectHouse None => true
    | LockSubjectHouse (Some indices) => indicesInclude indices elementId
    | LockSubjectSign None => true
    | LockSubjectSign (Some indices) => indicesInclude indices elementId
    | LockSubjectAngle None => true
    | LockSubjectAngle (Some types) => typesInclude types elementId
    end.

(** ** Frame keys *)

Definition referenceFrameString (r : ReferenceFrame) : string :=
  match r with
  | ecliptic => "ecliptic"
  | houses => "houses"
  | signs => "signs"
  | angles => "angles"
  end.

(** The text [join] prints for each value of [direction]. *)
Definition directionString (d : Direction) : string :=
  match d with
  | cw => "cw"
  | ccw => "ccw"
  | plus1 => "1"
  | minus1 => "-1"
  end.

Definition anchorKind (anchor : AnchorTargetUnion) : string :=
  match anchor with
  | AnchorTarget _ => "object"
  | AnchorTargetHouse _ => "house"
  | AnchorTargetSign _ => "sign"
  | AnchorTargetAngle _ => "angle"
  end.

(** [parts.join(sep)]. *)
Fixpoint join (sep : string) (parts : list string) : string :=
  match parts with
  | [] => EmptyString
  | [part] => part
  | part :: rest => part +:+ sep +:+ join sep rest
  end.

Section WithNumberToString.
(** The built-in conversion of a number to its text, behind
    [n.toString()] and [String(n)]. *)
Variable numberToString : Q -> string.

Definition anchorTargetToKey (anchor : AnchorTargetUnion) : string :=
  match anchor with
  | AnchorTarget (IdNumber n) => numberToString n
  | AnchorTarget (IdString s) => s
  | AnchorTargetHouse index => numberToString index
  | AnchorTargetSign index => numberToString index
  | AnchorTargetAngle type => angleTypeString type
  end.

(** An omitted [direction] is [undefined], which [filter(Boolean)] drops
    like the empty text; every value of [direction] is truthy. *)
Definition viewFrameToKey (frame : ViewFrame) : string :=
  let parts :=
    [ referenceFrameString (referenceFrame frame);
      anchorKind (anchor frame) +:+ ":" +:+ anchorTargetToKey (anchor frame);
      numberToString (screenAngleDeg frame);
      from_option directionString EmptyString (direction frame);
      if truthy (radialFlip frame) then "rf" else EmptyString;
      if truthy (angularFlip frame) then "af" else EmptyString ] in
  join "|" (List.filter (fun part => negb (String.eqb part EmptyString)) parts).
End WithNumberToString.


End Orientation.

(** ** The transform as the specification words it *)

Module Spec.

(** Reduction into [0,360) by modulo and sign correction. *)
Definition normalize (degrees : Q) : Q :=
  degrees - 360 * inject_Z (Qfloor (degrees / 360)).

(** The difference [a - b] folded to the shortest signed path, in
    (-180,180]. *)
Definition shortestDelta (a b : Q) : Q :=
  (a - b) - 360 * inject_Z (Qceiling ((a - b - 180) / 360)).

(** [normalize(screenZero + direction * shortestDelta(worldLongitude,
    worldZero) * scale)]. *)
Definition zeroPointScreenAngle
    (worldLongitude worldZero screenZero direction scale : Q) : Q :=
  normalize (screenZero + direction * shortestDelta worldLongitude worldZero * scale).

(** Two angles that differ by whole turns. *)
Definition sameAngle (a b : Q) : Prop :=
  exists k : Z, a - b == 360 * inject_Z k.

End Spec.

(** ** Values read from JSON *)

Module Json.

(** A JavaScript value as [JSON.parse] builds it; [VUndefined] is what
    reading a missing property gives. *)
Inductive value : Type :=
| VUndefined
| VNull
| VBool (b : bool)
| VNumber (n : Q)
| VString (s : string)
| VArray (items : list value)
| VObject (fields : list (string * value)).

Inductive typeName : Type :=
| tUndefined | tObject | tBoolean | tNumber | tString.

Definition typeof (v : value) : typeName :=
  match v with
  | VUndefined => tUndefined
  | VNull | VArray _ | VObject _ => tObject
  | VBool _ => tBoolean
  | VNumber _ => tNumber
  | VString _ => tString
  end.

Definition isObject (v : value) : bool :=
  match typeof v with tObject => true | _ => false end.
Definition isString (v : value) : bool :=
  match typeof v with tString => true | _ => false end.
Definition isNumber (v : value) : bool :=
  match typeof v with tNumber => true | _ => false end.
Definition isUndefined (v : value) : bool :=
  match v with VUndefined => true | _ => false end.

(** Truthiness, as [!v] and [if (v)] see it. *)
Definition toBoolean (v : value) : bool :=
  match v with
  | VUndefined | VNull => false
  | VBool b => b
  | VNumber n => negb (Qeq_bool n 0)
  | VString s => negb (String.eqb s EmptyString)
  | VArray _ | VObject _ => true
  end.

Fixpoint lookupField (fields : list (string * value)) (key : string) : value :=
  match fields with
  | [] => VUndefined
  | (k, v) :: rest => if String.eqb k key then v else lookupField rest key
  end.

(** [v.key] for the keys the loader reads (none of them is an array's own
    property). *)
Definition get (v : value) (key : string) : value :=
  match v with
  | VObject fields => lookupField fields key
  | _ => VUndefined
  end.

(** [list.includes(v)] for a list of string literals. *)
Definition includesString (list : list string) (v : value) : bool :=
  match v with
  | VString s => existsb (String.eqb s) list
  | _ => false
  end.

(** The double-quote character, as a one-character text. *)
Definition quote : string := String (ascii_of_nat 34) EmptyString.

(** The text a template literal prints for an index. *)
Definition natToString (n : nat) : string :=
  NilZero.string_of_uint (Nat.to_uint n).

End Json.

(** ** Wheel definitions *)

Module Wheels.
Import Json.

Inductive RingType : Type := ringSigns | ringHouses | ringPlanets | ringAspects.

Record AspectSetFilter : Type := mkAspectSetFilter {
  includeTypes : option (list string);
  minStrength : option Q;
  onlyMajor : option bool
}.

Inductive RingDataSource : Type :=
| StaticZodiacSource
| StaticNakshatraSource
| LayerHousesSource (layerId : string)
| LayerPlanetsSource (layerId : string)
| LayerVargaPlanetsSource (layerId vargaId : string)
| AspectSetSource (aspectSetId : string) (filter : option AspectSetFilter).

Record RingDefinition : Type := mkRing {
  slug : string;
  type : RingType;
  label : string;
  orderIndex : Q;
  radiusInner : Q;
  radiusOuter : Q;
  dataSource : RingDataSource;
  displayOptions : option (list (string * value))
}.

Record WheelDefinitionWithPresets : Type := mkWheel {
  name : string;
  description : option string;
  rings : list RingDefinition;
  config : option (list (string * value));
  defaultVisualConfig : option (list (string * value));
  defaultGlyphConfig : option (list (string * value));
  version : option string;
  author : option string;
  tags : option (list string)
}.

(** [{ ...definition, version: v }]. *)
Definition withVersion (d : WheelDefinitionWithPresets) (v : string)
    : WheelDefinitionWithPresets :=
  mkWheel (name d) (description d) (rings d) (config d)
    (defaultVisualConfig d) (defaultGlyphConfig d) (Some v) (author d) (tags d).

(** The built-in definition of [definitions/standardNatal.ts]. *)
Definition standardNatal : WheelDefinitionWithPresets :=
  {| name := "Standard Natal Wheel";
     description := Some "Default wheel with signs, houses, and planets";
     rings :=
       [ mkRing "ring_signs" ringSigns "Zodiac Signs" 0 (85 # 100) 1
           StaticZodiacSource (Some []);
         mkRing "ring_houses" ringHouses "Houses" 1 (75 # 100) (85 # 100)
           (LayerHousesSource "natal") (Some []);
         mkRing "ring_planets" ringPlanets "Natal Planets" 2 (55 # 100) (75 # 100)
           (LayerPlanetsSource "natal") (Some []) ];
     config := Some [];
     defaultVisualConfig :=
       Some [("ringWidth", VNumber 30); ("ringSpacing", VNumber 10)];
     defaultGlyphConfig := Some [("glyphSize", VNumber 12)];
     version := Some "1.0.0";
     author := Some "Gaia Tools";
     tags := Some ["natal"; "standard"; "default"] |}.

End Wheels.

(** ** Text matching helpers *)

Module Text.

Definition isDigit (c : ascii) : bool :=
  let n := nat_of_ascii c in (48 <=? n)%nat && (n <=? 57)%nat.

(** The rest of [s] after its longest prefix of digits. *)
Fixpoint dropDigits (s : string) : string :=
  match s with
  | String c rest => if isDigit c then dropDigits rest else s
  | EmptyString => EmptyString
  end.

(** One greedy [\d+]: the rest of the text, when at least one digit was
    read. *)
Definition digits1 (s : string) : option string :=
  match s with
  | String c rest => if isDigit c then Some (dropDigits rest) else None
  | EmptyString => None
  end.

(** [/^\d+\.\d+\.\d+$/.test(s)].  After a greedy run of digits the next
    character is not a digit, so giving digits back never helps the match. *)
Definition versionRegex (s : string) : bool :=
  match digits1 s with
  | Some (String "." r1) =>
      match digits1 r1 with
      | Some (String "." r2) =>
          match digits1 r2 with
          | Some EmptyString => true
          | _ => false
          end
      | _ => false
      end
  | _ => false
  end.

(** Every character of [s] is a digit. *)
Fixpoint allDigits (s : string) : bool :=
  match s with
  | String c rest => isDigit c && allDigits rest
  | EmptyString => true
  end.

(** No character of [s] is [x]. *)
Fixpoint lacks (x : ascii) (s : string) : bool :=
  match s with
  | String c rest => negb (Ascii.eqb c x) && lacks x rest
  | EmptyString => true
  end.

(** No character of [s] is the bar that separates the parts of a key. *)
Definition noBar (s : string) : bool := lacks "|" s.

(** [s.split(sep)] for a one-character separator. *)
Fixpoint split (sep : ascii) (s : string) : list string :=
  match s with
  | EmptyString => [EmptyString]
  | String c rest =>
      if Ascii.eqb c sep then EmptyString :: split sep rest
      else
        match split sep rest with
        | first :: others => String c first :: others
        | [] => [String c EmptyString]
        end
  end.

End Text.

(** ** What the frame key asks of the built-in number printing *)

Module KeyText.
Import Orientation Text.

(** Distinct numbers print as distinct texts, and no text is empty or holds
    a bar. *)
Definition printsFaithfully (numberToString : Q -> string) : Prop :=
  (forall a b, numberToString a = numberToString b -> a == b) /\
  (forall a, noBar (numberToString a) = true) /\
  (forall a, numberToString a <> EmptyString).

(** The decimal text of an integer. *)
Definition showZ (z : Z) : string := NilZero.string_of_int (Z.to_int z).

(** A printing of exact numbers that is faithful: a whole number prints as
    its decimal text, as the built-in prints it, and any other number as its
    reduced fraction. *)
Definition printNumber (q : Q) : string :=
  let r := Qred q in
  if (Qden r =? 1)%positive then showZ (Qnum r)
  else showZ (Qnum r) +:+ "/" +:+ showZ (Zpos (Qden r)).

(** [direction] is ['cw'] or ['ccw'], as the anchor-based model declares
    it. *)
Definition legacyDirection (d : option Direction) : bool :=
  match d with
  | Some cw | Some ccw => true
  | _ => false
  end.

(** The end of a key: the marks of the two flip flags. *)
Definition flagsTail (radialFlip angularFlip : bool) : string :=
  match radialFlip, angularFlip with
  | false, false => EmptyString
  | true, false => "|rf"
  | false, true => "|af"
  | true, true => "|rf|af"
  end.

End KeyText.

(** ** Loading wheel definitions from JSON (wheels/loader.ts) *)

Module Loader.
Import Json Text.

Record WheelDefinitionValidationError : Type := mkValidationError {
  message : string;
  field : option string
}.

(** What a call does: it returns a value or throws a validation error. *)
Inductive completion (A : Type) : Type :=
| Returned (a : A)
| Thrown (e : WheelDefinitionValidationError).
Arguments Returned {A} a.
Arguments Thrown {A} e.

Definition andThen {A B : Type} (c : completion A) (k : A -> completion B)
    : completion B :=
  match c with
  | Returned a => k a
  | Thrown e => Thrown e
  end.

Notation "c ;;; k" := (andThen c (fun _ => k))
  (at level 100, k at level 200, right associativity).

(** [if (cond) throw new WheelDefinitionValidationError(message, field)]. *)
Definition throwIf (cond : bool) (message : string) (field : option string)
    : completion unit :=
  if cond then Thrown (mkValidationError message field) else Returned tt.

Definition numberLt (v : value) (bound : Q) : bool :=
  match v with VNumber n => Qltb n bound | _ => false end.
Definition numberGt (v : value) (bound : Q) : bool :=
  match v with VNumber n => Qgtb n bound | _ => false end.

(** [a >= b] for two values already known to be numbers. *)
Definition valueGe (a b : value) : bool :=
  match a, b with
  | VNumber x, VNumber y => Qgeb x y
  | _, _ => false
  end.

Definition stringOf (v : value) : string :=
  match v with VString s => s | _ => EmptyString end.

Definition isLayerKind (kind : value) : bool :=
  includesString ["layer_houses"; "layer_planets"] kind.

Definition validateRingDefinition (ring : value) (index : nat) : completion unit :=
  let i := natToString index in
  let at_ := "Ring at index " +:+ i in
  let path := "rings[" +:+ i +:+ "]" in
  throwIf (negb (toBoolean ring) || negb (isObject ring))
    (at_ +:+ " must be an object") (Some path) ;;;
  throwIf (negb (isString (get ring "slug")) || negb (toBoolean (get ring "slug")))
    (at_ +:+ " must have a non-empty slug") (Some (path +:+ ".slug")) ;;;
  throwIf (negb (includesString ["signs"; "houses"; "planets"; "aspects"] (get ring "type")))
    (at_ +:+ " must have a valid type (signs, houses, planets, or aspects)")
    (Some (path +:+ ".type")) ;;;
  throwIf (negb (isString (get ring "label")) || negb (toBoolean (get ring "label")))
    (at_ +:+ " must have a non-empty label") (Some (path +:+ ".label")) ;;;
  throwIf (negb (isNumber (get ring "orderIndex")))
    (at_ +:+ " must have a numeric orderIndex") (Some (path +:+ ".orderIndex")) ;;;
  throwIf (negb (isNumber (get ring "radiusInner"))
           || numberLt (get ring "radiusInner") 0 || numberGt (get ring "radiusInner") 1)
    (at_ +:+ " must have a radiusInner between 0 and 1")
    (Some (path +:+ ".radiusInner")) ;;;
  throwIf (negb (isNumber (get ring "radiusOuter"))
           || numberLt (get ring "radiusOuter") 0 || numberGt (get ring "radiusOuter") 1)
    (at_ +:+ " must have a radiusOuter between 0 and 1")
    (Some (path +:+ ".radiusOuter")) ;;;
  throwIf (valueGe (get ring "radiusInner") (get ring "radiusOuter"))
    (at_ +:+ " must have radiusInner < radiusOuter") (Some (path +:+ ".radius")) ;;;
  throwIf (negb (toBoolean (get ring "dataSource")) || negb (isObject (get ring "dataSource")))
    (at_ +:+ " must have a dataSource object") (Some (path +:+ ".dataSource")) ;;;
  let kind := get (get ring "dataSource") "kind" in
  throwIf (negb (includesString
                   ["static_zodiac"; "layer_houses"; "layer_planets"; "aspect_set"] kind))
    (at_ +:+ " dataSource must have a valid kind") (Some (path +:+ ".dataSource.kind")) ;;;
  let layerId := get (get ring "dataSource") "layerId" in
  throwIf (isLayerKind kind && (negb (isString layerId) || negb (toBoolean layerId)))
    (at_ +:+ " dataSource must have a layerId for " +:+ stringOf kind)
    (Some (path +:+ ".dataSource.layerId")) ;;;
  let aspectSetId := get (get ring "dataSource") "aspectSetId" in
  throwIf (includesString ["aspect_set"] kind
           && (negb (isString aspectSetId) || negb (toBoolean aspectSetId)))
    (at_ +:+ " dataSource must have an aspectSetId for aspect_set")
    (Some (path +:+ ".dataSource.aspectSetId")) ;;;
  Returned tt.

(** [rings.forEach((ring, index) => validateRingDefinition(ring, index))],
    from [index] on: the first throw ends the walk. *)
Fixpoint validateRingsFrom (index : nat) (rings : list value) : completion unit :=
  match rings with
  | [] => Returned tt
  | ring :: rest =>
      validateRingDefinition ring index ;;; validateRingsFrom (S index) rest
  end.

Definition isArray (v : value) : bool :=
  match v with VArray _ => true | _ => false end.
Definition arrayItems (v : value) : list value :=
  match v with VArray items => items | _ => [] end.

Definition validateWheelDefinition (definition : value) : completion unit :=
  throwIf (negb (toBoolean definition) || negb (isObject definition))
    "Wheel definition must be an object" None ;;;
  throwIf (negb (isString (get definition "name")) || negb (toBoolean (get definition "name")))
    "Wheel definition must have a non-empty name" (Some "name") ;;;
  throwIf (negb (isArray (get definition "rings")))
    "Wheel definition must have a rings array" (Some "rings") ;;;
  throwIf (Nat.eqb (List.length (arrayItems (get definition "rings"))) 0)
    "Wheel definition must have at least one ring" (Some "rings") ;;;
  validateRingsFrom 0 (arrayItems (get definition "rings")) ;;;
  throwIf (negb (isUndefined (get definition "description"))
           && negb (isString (get definition "description")))
    "Wheel definition description must be a string" (Some "description") ;;;
  let version := get definition "version" in
  throwIf (negb (isUndefined version) && negb (isString version))
    "Wheel definition version must be a string" (Some "version") ;;;
  throwIf (negb (isUndefined version) && negb (versionRegex (stringOf version)))
    ("Wheel definition version must be in format major.minor.patch (e.g., "
       +:+ quote +:+ "1.0.0" +:+ quote +:+ "), got: " +:+ stringOf version)
    (Some "version") ;;;
  throwIf (negb (isUndefined (get definition "author"))
           && negb (isString (get definition "author")))
    "Wheel definition author must be a string" (Some "author") ;;;
  let tags := get definition "tags" in
  throwIf (negb (isUndefined tags) && negb (isArray tags))
    "Wheel definition tags must be an array" (Some "tags") ;;;
  throwIf (negb (isUndefined tags) && negb (forallb isString (arrayItems tags)))
    "Wheel definition tags must be an array of strings" (Some "tags") ;;;
  Returned tt.

(** A ring whose fields pass every check made before the two radii are
    compared; [radiusInner] and [radiusOuter] are the numbers it holds. *)
Definition reachesRadiusCheck (ring : value) (radiusInner radiusOuter : Q) : Prop :=
  (exists slug, get ring "slug" = VString slug /\ slug <> EmptyString) /\
  (exists type, get ring "type" = VString type /\
                In type ["signs"; "houses"; "planets"; "aspects"]) /\
  (exists label, get ring "label" = VString label /\ label <> EmptyString) /\
  (exists orderIndex, get ring "orderIndex" = VNumber orderIndex) /\
  get ring "radiusInner" = VNumber radiusInner /\
  0 <= radiusInner /\ radiusInner <= 1 /\
  get ring "radiusOuter" = VNumber radiusOuter /\
  0 <= radiusOuter /\ radiusOuter <= 1.

(** The error thrown for ring [index] when its radii are out of order. *)
Definition radiusError (index : nat) : WheelDefinitionValidationError :=
  {| message := ("Ring at index " +:+ natToString index)
                  +:+ " must have radiusInner < radiusOuter";
     field := Some (("rings[" +:+ natToString index +:+ "]") +:+ ".radius") |}.

(** What [JSON.parse] does with a text: a value, or a [SyntaxError] with
    its message. *)
Inductive parseOutcome : Type :=
| Parsed (v : value)
| SyntaxError (errorMessage : string).

Section WithParser.
(** The built-in [JSON.parse]. *)
Variable JSON_parse : string -> parseOutcome.

Definition loadWheelDefinitionFromJSON (json : string) : completion value :=
  match JSON_parse json with
  | SyntaxError errorMessage =>
      Thrown (mkValidationError ("Invalid JSON: " +:+ errorMessage) None)
  | Parsed parsed =>
      validateWheelDefinition parsed ;;; Returned parsed
  end.
End WithParser.

End Loader.

(** ** Version strings (wheels/versioning.ts) *)

Module Versioning.
Import Text.

(** [Number(s)] on the texts that reach it here, the pieces of a version
    between dots: a run of decimal digits is its value (the empty text is
    0), and any other text is [NaN], written [None].  The built-in also
    reads signs, blanks, exponents and other radixes; no text that passes
    [isValidVersion] holds any of these. *)
Definition Number (s : string) : option N :=
  match NilEmpty.uint_of_string s with
  | Some d => Some (N.of_uint d)
  | None => None
  end.

(** [parts[i] || 0]: a missing piece, [NaN] and 0 all give 0. *)
Definition orZero (part : option (option N)) : N :=
  match part with
  | Some (Some n) => n
  | _ => 0%N
  end.

(** The [for (let i = ...; i < maxLength; i++)] loop of [compareVersions]
    with [remaining = maxLength - i] rounds to go. *)
Fixpoint compareFrom (remaining i : nat) (parts1 parts2 : list (option N)) : Z :=
  match remaining with
  | O => 0%Z
  | S remaining' =>
      let part1 := orZero (parts1 !! i) in
      let part2 := orZero (parts2 !! i) in
      if (part1 <? part2)%N then (-1)%Z
      else if (part2 <? part1)%N then 1%Z
      else compareFrom remaining' (S i) parts1 parts2
  end.

Definition compareVersions (v1 v2 : string) : Z :=
  let parts1 := map Number (split "." v1) in
  let parts2 := map Number (split "." v2) in
  let maxLength := Nat.max (List.length parts1) (List.length parts2) in
  compareFrom maxLength 0 parts1 parts2.

Definition isNewerVersion (v1 v2 : string) : bool :=
  (0 <? compareVersions v1 v2)%Z.

Definition isOlderVersion (v1 v2 : string) : bool :=
  (compareVersions v1 v2 <? 0)%Z.

Definition isValidVersion (version : string) : bool := versionRegex version.

(** The text a template literal prints for a number of this module: its
    decimal digits, all of them. *)
Definition numberToString (n : option N) : string :=
  match n with
  | Some n => NilZero.string_of_uint (N.to_uint n)
  | None => "NaN"
  end.

End Versioning.

(** ** Migration of wheel definitions (wheels/migration.ts) *)

Module Migration.
Import Text Wheels Versioning.

Record MigrationResult : Type := mkMigrationResult {
  success : bool;
  migrated : option WheelDefinitionWithPresets;
  errors : option (list string)
}.

Definition failure (messages : list string) : MigrationResult :=
  mkMigrationResult false None (Some messages).

Definition succeeded (d : WheelDefinitionWithPresets) : MigrationResult :=
  mkMigrationResult true (Some d) None.

(** What a migration function throws: an [Error] with its message, or any
    other value. *)
Inductive thrown : Type :=
| ThrownError (errorMessage : string)
| ThrownOther.

(** A migration function returns the new definition or throws. *)
Definition MigrationFunction : Type :=
  WheelDefinitionWithPresets -> WheelDefinitionWithPresets + thrown.

(** [error instanceof Error ? error.message : 'Unknown error']. *)
Definition thrownMessage (t : thrown) : string :=
  match t with
  | ThrownError errorMessage => errorMessage
  | ThrownOther => "Unknown error"
  end.

(** The module-level [migrations] map is passed as state. *)
Definition registerMigration (fromVersion toVersion : string)
    (migration : MigrationFunction)
    (migrations : gmap string (list MigrationFunction))
    : gmap string (list MigrationFunction) :=
  let key := fromVersion +:+ "->" +:+ toVersion in
  <[key := default [] (migrations !! key) ++ [migration]]> migrations.

(** The template [`${parts[0]}.${parts[1]}.${parts[2]}`]. *)
Definition versionText (major minor patch : option N) : string :=
  numberToString major +:+ "." +:+ numberToString minor +:+ "."
    +:+ numberToString patch.

(** Increment the patch version. *)
Definition getNextVersion (version : string) : option string :=
  match map Number (split "." version) with
  | [major; minor; patch] => Some (versionText major minor (N.succ <$> patch))
  | _ => None
  end.

(** [for (const migration of migrationFunctions) current = migration(current)]
    inside the [try]: the first throw leaves the loop, with [current] as
    the functions before it left it. *)
Fixpoint applyMigrations (migrationFunctions : list MigrationFunction)
    (current : WheelDefinitionWithPresets)
    : WheelDefinitionWithPresets * option thrown :=
  match migrationFunctions with
  | [] => (current, None)
  | migration :: rest =>
      match migration current with
      | inl current' => applyMigrations rest current'
      | inr t => (current, Some t)
      end
  end.

(** The [while (compareVersions(currentVersion, targetVersion) < 0)] loop,
    run for at most [fuel] rounds; [None] when the loop is still running
    after them.  It leaves with the current definition and the errors. *)
Fixpoint migrationLoop (migrations : gmap string (list MigrationFunction))
    (targetVersion : string) (fuel : nat)
    (current : WheelDefinitionWithPresets) (currentVersion : string)
    (errors : list string) : option (WheelDefinitionWithPresets * list string) :=
  if negb (compareVersions currentVersion targetVersion <? 0)%Z
  then Some (current, errors)
  else
    match fuel with
    | O => None
    | S fuel' =>
        match getNextVersion currentVersion with
        | None =>
            Some (current,
                  errors ++ ["Cannot determine next version after " +:+ currentVersion])
        | Some nextVersion =>
            let migrationKey := currentVersion +:+ "->" +:+ nextVersion in
            match migrations !! migrationKey with
            | None | Some [] =>
                migrationLoop migrations targetVersion fuel'
                  (withVersion current nextVersion) nextVersion errors
            | Some migrationFunctions =>
                match applyMigrations migrationFunctions current with
                | (current', None) =>
                    migrationLoop migrations targetVersion fuel'
                      (withVersion current' nextVersion) nextVersion errors
                | (current', Some t) =>
                    Some (current',
                          errors ++ ["Migration failed for " +:+ migrationKey +:+ ": "
                                       +:+ thrownMessage t])
                end
            end
        end
    end.

(** [migrateWheelDefinition] with the loop bounded by [fuel]: [None] when
    the call has not returned within [fuel] rounds of the loop. *)
Definition migrateWheelDefinition (migrations : gmap string (list MigrationFunction))
    (fuel : nat) (definition : WheelDefinitionWithPresets) (targetVersion : string)
    : option MigrationResult :=
  match version definition with
  | None => Some (failure ["Wheel definition has no version"])
  | Some sourceVersion =>
      if String.eqb sourceVersion EmptyString then
        Some (failure ["Wheel definition has no version"])
      else if negb (isValidVersion sourceVersion) then
        Some (failure ["Invalid source version format: " +:+ sourceVersion])
      else if negb (isValidVersion targetVersion) then
        Some (failure ["Invalid target version format: " +:+ targetVersion])
      else if (compareVersions sourceVersion targetVersion =? 0)%Z then
        Some (succeeded definition)
      else if (0 <? compareVersions sourceVersion targetVersion)%Z then
        Some (failure ["Cannot migrate backwards from " +:+ sourceVersion +:+ " to "
                         +:+ targetVersion])
      else
        match migrationLoop migrations targetVersion fuel definition sourceVersion [] with
        | None => None
        | Some (current, errors) =>
            Some (if (0 <? List.length errors)%nat then failure errors
                  else succeeded current)
        end
  end.

(** The version text of three numbers, as [getNextVersion] writes it. *)
Definition versionString (major minor patch : N) : string :=
  versionText (Some major) (Some minor) (Some patch).

(** No migration function is registered under any key. *)
Definition unregistered (migrations : gmap string (list MigrationFunction)) : Prop :=
  forall key, default [] (migrations !! key) = [].

(** No registered migration function throws. *)
Definition neverThrows (migrations : gmap string (list MigrationFunction)) : Prop :=
  forall key migrationFunctions current,
    migrations !! key = Some migrationFunctions ->
    (applyMigrations migrationFunctions current).2 = None.

Definition needsMigration (definition : WheelDefinitionWithPresets)
    (targetVersion : string) : bool :=
  match version definition with
  | None => false
  | Some sourceVersion =>
      if String.eqb sourceVersion EmptyString || negb (isValidVersion sourceVersion) then false
      else if negb (isValidVersion targetVersion) then false
      else (compareVersions sourceVersion targetVersion <? 0)%Z
  end.

End Migration.

(** ** The registry of wheel definitions (wheels/registry.ts) *)

Module Registry.
Import Wheels.

(** [toLowerCase] on the letters A-Z; other characters are kept. *)
Definition lowerChar (c : ascii) : ascii :=
  let n := nat_of_ascii c in
  if (65 <=? n)%nat && (n <=? 90)%nat then ascii_of_nat (n + 32) else c.

Fixpoint toLowerCase (s : string) : string :=
  match s with
  | EmptyString => EmptyString
  | String c rest => String (lowerChar c) (toLowerCase rest)
  end.

(** The characters [\s] matches among the first 128: tab, line feed,
    vertical tab, form feed, carriage return and space. *)
Definition isSpace (c : ascii) : bool :=
  let n := nat_of_ascii c in
  ((9 <=? n)%nat && (n <=? 13)%nat) || (n =? 32)%nat.

(** [s.replace(/\s+/g, '-')]: every maximal run of blanks becomes one
    hyphen; [inRun] tells that the character before was a blank. *)
Fixpoint replaceRuns (inRun : bool) (s : string) : string :=
  match s with
  | EmptyString => EmptyString
  | String c rest =>
      if isSpace c then
        if inRun then replaceRuns true rest
        else String "-" (replaceRuns true rest)
      else String c (replaceRuns false rest)
  end.

Definition normalizeWheelName (name : string) : string :=
  replaceRuns false (toLowerCase name).

(** Every character of [s] is a blank. *)
Fixpoint allSpaces (s : string) : bool :=
  match s with
  | EmptyString => true
  | String c rest => isSpace c && allSpaces rest
  end.

(** The module-level [userDefinitions] map is passed as state. *)
Definition registerWheelDefinition (definition : WheelDefinitionWithPresets)
    (userDefinitions : gmap string WheelDefinitionWithPresets)
    : gmap string WheelDefinitionWithPresets :=
  let key := normalizeWheelName (name definition) in
  <[key := definition]> userDefinitions.

Definition unregisterWheelDefinition (name : string)
    (userDefinitions : gmap string WheelDefinitionWithPresets)
    : bool * gmap string WheelDefinitionWithPresets :=
  let key := normalizeWheelName name in
  (bool_decide (is_Some (userDefinitions !! key)), delete key userDefinitions).

Definition getWheelDefinition
    (userDefinitions : gmap string WheelDefinitionWithPresets) (name : string)
    : option WheelDefinitionWithPresets :=
  let key := normalizeWheelName name in
  match userDefinitions !! key with
  | Some definition => Some definition
  | None =>
      if String.eqb key "standard-natal-wheel" then Some standardNatal else None
  end.

Definition hasWheelDefinition
    (userDefinitions : gmap string WheelDefinitionWithPresets) (name : string) : bool :=
  bool_decide (is_Some (getWheelDefinition userDefinitions name)).

End Registry.

(** ** Frames and rules of the scenarios *)

Module Scenarios.
Import Orientation.

(** [{referenceFrame:'houses', anchor:{angle:'ASC'}, screenAngleDeg:180,
    direction:'ccw'}]. *)
Definition legacyFrame : ViewFrame :=
  {| referenceFrame := houses; anchor := AnchorTargetAngle ASC;
     screenAngleDeg := 180; direction := Some ccw;
     radialFlip := None; angularFlip := None;
     worldZero := None; screenZero := None; scale := None |}.

(** The same frame with the anchor drawn at -90 degrees. *)
Definition legacyFrameAtMinus90 : ViewFrame :=
  {| referenceFrame := houses; anchor := AnchorTargetAngle ASC;
     screenAngleDeg := -90; direction := Some ccw;
     radialFlip := None; angularFlip := None;
     worldZero := None; screenZero := None; scale := None |}.

(** A frame of the worldZero/screenZero model over [legacyFrame]'s other
    fields. *)
Definition zeroPointFrame (worldZero' screenZero' : Q)
    (direction' : option Direction) (scale' : option Q) : ViewFrame :=
  {| referenceFrame := houses; anchor := AnchorTargetAngle ASC;
     screenAngleDeg := 180; direction := direction';
     radialFlip := None; angularFlip := None;
     worldZero := Some worldZero'; screenZero := Some screenZero';
     scale := scale' |}.

(** [{worldZero:95, screenZero:90, direction:-1, scale:1}]. *)
Definition mirroredFrame : ViewFrame :=
  zeroPointFrame 95 90 (Some minus1) (Some 1).

(** Two frames of the worldZero/screenZero model that differ in
    [worldZero] only. *)
Definition frameAt95 : ViewFrame := zeroPointFrame 95 90 (Some minus1) None.
Definition frameAt100 : ViewFrame := zeroPointFrame 100 90 (Some minus1) None.

(** [legacyFrame] with its screen angle written as the fraction 360/2. *)
Definition legacyFrameHalf360 : ViewFrame :=
  {| referenceFrame := houses; anchor := AnchorTargetAngle ASC;
     screenAngleDeg := 360 # 2; direction := Some ccw;
     radialFlip := None; angularFlip := None;
     worldZero := None; screenZero := None; scale := None |}.

(** Two frames of the anchor-based model: the first anchored at the object
    named [a|90] and drawn at 1 degree with [direction] omitted, the second
    anchored at the object named [a] and drawn at 90 degrees with
    [direction] 1. *)
Definition barFrame : ViewFrame :=
  {| referenceFrame := ecliptic; anchor := AnchorTarget (IdString "a|90");
     screenAngleDeg := 1; direction := None;
     radialFlip := None; angularFlip := None;
     worldZero := None; screenZero := None; scale := None |}.

Definition plainFrame : ViewFrame :=
  {| referenceFrame := ecliptic; anchor := AnchorTarget (IdString "a");
     screenAngleDeg := 90; direction := Some plus1;
     radialFlip := None; angularFlip := None;
     worldZero := None; screenZero := None; scale := None |}.

Definition houseRule (indices : option (list HouseNumber)) : LockRule :=
  {| subject := LockSubjectHouse indices; frame := lockHouses;
     mode := followAnchorMode; followAnchor := None |}.

Definition signRule (indices : option (list SignNumber)) : LockRule :=
  {| subject := LockSubjectSign indices; frame := lockSigns;
     mode := exact; followAnchor := None |}.

Definition angleRule (types : option (list AngleType)) : LockRule :=
  {| subject := LockSubjectAngle types; frame := lockScreen;
     mode := exact; followAnchor := None |}.

Definition objectRule (ids : list AstroObjectId) : LockRule :=
  {| subject := LockSubjectObject ids; frame := lockScreen;
     mode := exact; followAnchor := None |}.

Import Json Wheels.

(** A ring with [radiusInner = 0.9] and [radiusOuter = 0.5], otherwise
    well formed. *)
Definition badRing : value :=
  VObject [ ("slug", VString "ring_signs"); ("type", VString "signs");
            ("label", VString "Zodiac Signs"); ("orderIndex", VNumber 0);
            ("radiusInner", VNumber (9 # 10)); ("radiusOuter", VNumber (5 # 10));
            ("dataSource", VObject [("kind", VString "static_zodiac")]) ].

Definition badWheel : value :=
  VObject [ ("name", VString "Bad Wheel"); ("rings", VArray [badRing]) ].

(** A [JSON.parse] that reads every text as the value [v]. *)
Definition parseAs (v : value) : string -> Loader.parseOutcome :=
  fun _ => Loader.Parsed v.

(** A migration function that throws an [Error]. *)
Definition failingMigration : Migration.MigrationFunction :=
  fun _ => inr (Migration.ThrownError "not supported").

(** A user's definition that takes the built-in's name. *)
Definition userStandardNatal : WheelDefinitionWithPresets :=
  {| name := "Standard Natal Wheel";
     description := Some "My own natal wheel";
     rings := [ mkRing "ring_signs" ringSigns "Zodiac Signs" 0 (85 # 100) 1
                  StaticZodiacSource None ];
     config := None; defaultVisualConfig := None; defaultGlyphConfig := None;
     version := Some "2.0.0"; author := None; tags := None |}.

End Scenarios.

(** ** Frames of the anchor-based model, compared *)

Module Frames.
Import Orientation.

(** Whether the anchor-based transform runs against the world's
    direction: ['ccw'] negates the offset and [angularFlip] negates it once
    more. *)
Definition reversed (viewFrame : ViewFrame) : bool :=
  xorb (isCcw (direction viewFrame)) (truthy (angularFlip viewFrame)).


End Frames.

(** ** The numbers of the program: doubles

    A finite double is the rational it stands for.  The arithmetic of the
    source is the exact operation followed by [round]. *)

Module Doubles.
Import Orientation.

(** A double: a finite value, an infinity, or [NaN].  The finite doubles
    are the rationals [m * 2^e] with [|m| < 2^53] and [-1074 <= e <= 971].
    The sign of zero is not kept: none of the functions below tells -0
    from 0 in what it returns. *)
Inductive double : Type :=
| Value (q : Q)
| Infinite (negative : bool)
| NotANumber.

(** The whole part of the base-2 logarithm of a positive rational. *)
Definition ilog2 (q : Q) : Z :=
  let k := (Z.log2 (Qnum q) - Z.log2 (Zpos (Qden q)))%Z in
  if Qle_bool (2 ^ k) q then k else (k - 1)%Z.

(** The exponent of the last place of the doubles next to [q]: 53 binary
    digits, and no exponent below -1074. *)
Definition exponentOf (q : Q) : Z := Z.max (ilog2 (Qabs q) - 52) (-1074).

(** The nearest whole number, a tie going to the even one. *)
Definition nearestEven (t : Q) : Z :=
  let f := Qfloor t in
  match Qcompare (t - inject_Z f) (1 # 2) with
  | Lt => f
  | Gt => (f + 1)%Z
  | Eq => if Z.even f then f else (f + 1)%Z
  end.

(** Rounding to the nearest double, ties to even; what rounds to 2^1024
    or beyond is infinite. *)
Definition round (q : Q) : double :=
  if Qeq_bool q 0 then Value 0
  else
    let e := exponentOf q in
    let r := inject_Z (nearestEven (q / 2 ^ e)) * 2 ^ e in
    if Qle_bool (2 ^ 1024) (Qabs r) then Infinite (Qltb r 0) else Value (Qred r).

(** The double that a decimal literal of the source denotes (for a
    literal within the range of the doubles). *)
Definition literal (q : Q) : Q :=
  match round q with
  | Value r => r
  | _ => 0
  end.

(** Half a unit of the last place of the doubles below 2^15: 2^-38. *)
Definition halfUlp : Q := 1 # 274877906944.

Definition neg (x : double) : double :=
  match x with
  | Value a => Value (- a)
  | Infinite negative => Infinite (negb negative)
  | NotANumber => NotANumber
  end.

Definition add (x y : double) : double :=
  match x, y with
  | NotANumber, _ | _, NotANumber => NotANumber
  | Value a, Value b => round (a + b)
  | Infinite s, Infinite s' => if Bool.eqb s s' then Infinite s else NotANumber
  | Infinite s, Value _ | Value _, Infinite s => Infinite s
  end.

Definition sub (x y : double) : double := add x (neg y).

Definition mul (x y : double) : double :=
  match x, y with
  | NotANumber, _ | _, NotANumber => NotANumber
  | Value a, Value b => round (a * b)
  | Infinite s, Infinite s' => Infinite (xorb s s')
  | Infinite s, Value b | Value b, Infinite s =>
      if Qeq_bool b 0 then NotANumber else Infinite (xorb s (Qltb b 0))
  end.

(** Division; a zero divisor is taken as +0. *)
Definition div (x y : double) : double :=
  match x, y with
  | NotANumber, _ | _, NotANumber => NotANumber
  | Value a, Value b =>
      if Qeq_bool b 0
      then if Qeq_bool a 0 then NotANumber else Infinite (Qltb a 0)
      else round (a / b)
  | Infinite _, Infinite _ => NotANumber
  | Infinite s, Value b => Infinite (xorb s (Qltb b 0))
  | Value _, Infinite _ => Value 0
  end.

(** The [%] operator: the remainder takes the sign of the dividend, and is
    a double without any rounding. *)
Definition rem (x y : double) : double :=
  match x, y with
  | Value a, Value b =>
      if Qeq_bool b 0 then NotANumber else Value (Qred (JsNumber.rem a b))
  | Value a, Infinite _ => Value a
  | _, _ => NotANumber
  end.

(** [x < y]; a comparison with [NaN] is false. *)
Definition lt (x y : double) : bool :=
  match x, y with
  | NotANumber, _ | _, NotANumber => false
  | Value a, Value b => Qltb a b
  | Infinite s, Infinite s' => s && negb s'
  | Infinite s, Value _ => s
  | Value _, Infinite s => negb s
  end.

Definition gt (x y : double) : bool := lt y x.

(** [x >= y]. *)
Definition ge (x y : double) : bool :=
  match x, y with
  | NotANumber, _ | _, NotANumber => false
  | Value a, Value b => Qgeb a b
  | Infinite s, Infinite s' => negb s || s'
  | Infinite s, Value _ => negb s
  | Value _, Infinite s => s
  end.

(** [normalizeDeg]: normalize an angle to the 0-360 range. *)
Definition normalizeDeg (degrees : double) : double :=
  let normalized := rem degrees (Value 360) in
  if lt normalized (Value 0) then add normalized (Value 360) else normalized.

(** [while (offset > 180) offset -= 360]; [None] when the loop is still
    running after [fuel] rounds. *)
Fixpoint whileAbove (fuel : nat) (offset : double) : option double :=
  if gt offset (Value 180) then
    match fuel with
    | O => None
    | S fuel' => whileAbove fuel' (sub offset (Value 360))
    end
  else Some offset.

(** [while (offset < -180) offset += 360]. *)
Fixpoint whileBelow (fuel : nat) (offset : double) : option double :=
  if lt offset (Value (-180)) then
    match fuel with
    | O => None
    | S fuel' => whileBelow fuel' (add offset (Value 360))
    end
  else Some offset.

(** The two [if]s of the worldZero/screenZero model: one step each way. *)
Definition foldOnce (delta : double) : double :=
  let normalizedDelta := delta in
  let normalizedDelta :=
    if gt normalizedDelta (Value 180) then sub normalizedDelta (Value 360)
    else normalizedDelta in
  if lt normalizedDelta (Value (-180)) then add normalizedDelta (Value 360)
  else normalizedDelta.

(** The value of [direction] in the product, after the default [= 1]:
    a string multiplies to [NaN]. *)
Definition directionNumber (d : option Direction) : double :=
  match d with
  | None => Value 1
  | Some plus1 => Value 1
  | Some minus1 => Value (-1)
  | Some cw | Some ccw => NotANumber
  end.

(** The transforms, on arguments that are any doubles and a frame whose
    fields are finite doubles.  The two loops of the anchor-based model are
    given [fuel] rounds each: the result is [None] when one of them is
    still running after these, as it is for ever on an offset that
    subtracting 360 does not change. *)
Definition worldToScreenAngle (fuel : nat)
    (worldLongitude : double) (viewFrame : ViewFrame) (anchorLongitude : double)
    : option double :=
  match worldZero viewFrame, screenZero viewFrame with
  | Some worldZero, Some screenZero =>
      let direction := directionNumber (direction viewFrame) in
      let scale := Value (default 1 (scale viewFrame)) in
      let delta := normalizeDeg (sub worldLongitude (Value worldZero)) in
      let normalizedDelta := foldOnce delta in
      Some (normalizeDeg
              (add (Value screenZero) (mul (mul direction normalizedDelta) scale)))
  | _, _ =>
      let offset := sub worldLongitude anchorLongitude in
      offset ← whileAbove fuel offset;
      offset ← whileBelow fuel offset;
      let offset := if isCcw (direction viewFrame) then neg offset else offset in
      let screenAngle := add (Value (screenAngleDeg viewFrame)) offset in
      let screenAngle :=
        if truthy (angularFlip viewFrame)
        then sub (Value (screenAngleDeg viewFrame))
               (sub screenAngle (Value (screenAngleDeg viewFrame)))
        else screenAngle in
      Some (normalizeDeg screenAngle)
  end.

Definition screenToWorldLongitude (fuel : nat)
    (screenAngle : double) (viewFrame : ViewFrame) (anchorLongitude : double)
    : option double :=
  match worldZero viewFrame, screenZero viewFrame with
  | Some worldZero, Some screenZero =>
      let direction := directionNumber (direction viewFrame) in
      let scale := Value (default 1 (scale viewFrame)) in
      let normalizedScreen := normalizeDeg screenAngle in
      let delta := sub normalizedScreen (Value screenZero) in
      let normalizedDelta := foldOnce delta in
      Some (normalizeDeg
              (add (Value worldZero) (mul (div normalizedDelta scale) direction)))
  | _, _ =>
      let normalizedScreen := normalizeDeg screenAngle in
      let offset := sub normalizedScreen (Value (screenAngleDeg viewFrame)) in
      offset ← whileAbove fuel offset;
      offset ← whileBelow fuel offset;
      let offset := if truthy (angularFlip viewFrame) then neg offset else offset in
      let offset := if isCcw (direction viewFrame) then neg offset else offset in
      Some (normalizeDeg (add anchorLongitude offset))
  end.

(** The inverse after the forward transform. *)
Definition roundTrip (fuel : nat)
    (worldLongitude : double) (viewFrame : ViewFrame) (anchorLongitude : double)
    : option double :=
  screenAngle ← worldToScreenAngle fuel worldLongitude viewFrame anchorLongitude;
  screenToWorldLongitude fuel screenAngle viewFrame anchorLongitude.

(** The forward transform after the inverse. *)
Definition screenRoundTrip (fuel : nat)
    (screenAngle : double) (viewFrame : ViewFrame) (anchorLongitude : double)
    : option double :=
  worldLongitude ← screenToWorldLongitude fuel screenAngle viewFrame anchorLongitude;
  worldToScreenAngle fuel worldLongitude viewFrame anchorLongitude.

(** The specification's tolerance, 1e-9 degrees. *)
Definition tolerance : Q := 1 # 1000000000.

(** Two angles that differ by whole turns and at most [tolerance]. *)
Definition sameAngleWithin (tolerance a b : Q) : Prop :=
  exists k : Z, Qabs (a - b - 360 * inject_Z k) <= tolerance.

(** The frames whose angles are at most 10000 degrees in magnitude. *)
Definition boundedFrame (viewFrame : ViewFrame) : Prop :=
  Qabs (screenAngleDeg viewFrame) <= 10000 /\
  Qabs (default 0 (worldZero viewFrame)) <= 10000 /\
  Qabs (default 0 (screenZero viewFrame)) <= 10000.

(** The frames of the worldZero/screenZero model whose [direction] is 1,
    -1 or omitted and whose [scale] is 1, -1 or omitted. *)
Definition unitZeroPoint (viewFrame : ViewFrame) : Prop :=
  usesZeroPoint viewFrame = true /\
  numericDirection (direction viewFrame) = true /\
  Qabs (default 1 (scale viewFrame)) == 1.

End Doubles.

(** ** The machine's doubles

    Rocq's primitive floats are the doubles of the processor.  [ofFloat]
    reads one as a [double], so that the arithmetic of [Doubles] can be
    compared with the machine's own. *)

Module Machine.
Import PrimFloat FloatOps SpecFloat Doubles.

Definition ofFloat (f : float) : double :=
  match Prim2SF f with
  | S754_zero _ => Value 0
  | S754_infinity negative => Infinite negative
  | S754_nan => NotANumber
  | S754_finite negative m e =>
      Value (Qred ((if negative then -1 else 1) * inject_Z (Zpos m) * 2 ^ e))
  end.

End Machine.

(** ** The transforms before the worldZero/screenZero model

    The earlier [orientation/utils]: the anchor-based transforms alone,
    every normalization written as a pair of [while] loops; on doubles. *)

Module AnchorOnly.
Import Orientation Doubles.

(** [while (x < 0) x += 360]; [None] when the loop is still running after
    [fuel] rounds. *)
Fixpoint whileNegative (fuel : nat) (x : double) : option double :=
  if lt x (Value 0) then
    match fuel with
    | O => None
    | S fuel' => whileNegative fuel' (add x (Value 360))
    end
  else Some x.

(** [while (x >= 360) x -= 360]. *)
Fixpoint whileFullTurn (fuel : nat) (x : double) : option double :=
  if ge x (Value 360) then
    match fuel with
    | O => None
    | S fuel' => whileFullTurn fuel' (sub x (Value 360))
    end
  else Some x.

(** The two loops that normalize to 0-360, one after the other. *)
Definition wrapCircle (fuel : nat) (x : double) : option double :=
  x ← whileNegative fuel x;
  whileFullTurn fuel x.

Definition worldToScreenAngle (fuel : nat)
    (worldLongitude : double) (viewFrame : ViewFrame) (anchorLongitude : double)
    : option double :=
  let offset := sub worldLongitude anchorLongitude in
  offset ← whileAbove fuel offset;
  offset ← whileBelow fuel offset;
  let offset := if isCcw (direction viewFrame) then neg offset else offset in
  let screenAngle := add (Value (screenAngleDeg viewFrame)) offset in
  let screenAngle :=
    if truthy (angularFlip viewFrame)
    then sub (Value (screenAngleDeg viewFrame))
           (sub screenAngle (Value (screenAngleDeg viewFrame)))
    else screenAngle in
  wrapCircle fuel screenAngle.

Definition screenToWorldLongitude (fuel : nat)
    (screenAngle : double) (viewFrame : ViewFrame) (anchorLongitude : double)
    : option double :=
  normalizedScreen ← wrapCircle fuel screenAngle;
  let offset := sub normalizedScreen (Value (screenAngleDeg viewFrame)) in
  offset ← whileAbove fuel offset;
  offset ← whileBelow fuel offset;
  let offset := if truthy (angularFlip viewFrame) then neg offset else offset in
  let offset := if isCcw (direction viewFrame) then neg offset else offset in
  wrapCircle fuel (add anchorLongitude offset).

End AnchorOnly.

(** ** Queries on versions (wheels/versioning.ts) *)

Module VersionQueries.
Import Text Wheels Versioning.

(** The result of [getVersionParts]; a field is [None] when the piece is
    [NaN] or missing, which no text that passes [isValidVersion] gives. *)
Record VersionParts : Type := mkVersionParts {
  major : option N;
  minor : option N;
  patch : option N
}.

Definition getVersionParts (version : string) : option VersionParts :=
  if negb (isValidVersion version) then None
  else
    let parts := map Number (split "." version) in
    Some {| major := mjoin (parts !! 0%nat);
            minor := mjoin (parts !! 1%nat);
            patch := mjoin (parts !! 2%nat) |}.

(** [a === b] on two pieces of valid versions: numbers are compared by
    value, and [NaN] equals nothing. *)
Definition sameNumber (a b : option N) : bool :=
  match a, b with
  | Some x, Some y => (x =? y)%N
  | _, _ => false
  end.

Definition areVersionsCompatible (v1 v2 : string) : bool :=
  match getVersionParts v1, getVersionParts v2 with
  | Some parts1, Some parts2 => sameNumber (major parts1) (major parts2)
  | _, _ => false
  end.

(** [wheel.version] where the source tests it for truthiness: a version
    that is present and not the empty text. *)
Definition truthyVersion (wheel : WheelDefinitionWithPresets) : option string :=
  match version wheel with
  | Some v => if String.eqb v EmptyString then None else Some v
  | None => None
  end.

(** The [for] loop of [getLatestVersion] over the wheels after the
    first. *)
Fixpoint latestFrom (latest : WheelDefinitionWithPresets)
    (wheels : list WheelDefinitionWithPresets) : WheelDefinitionWithPresets :=
  match wheels with
  | [] => latest
  | wheel :: rest =>
      let latest' :=
        match truthyVersion wheel, truthyVersion latest with
        | Some wheelVersion, Some latestVersion =>
            if isNewerVersion wheelVersion latestVersion then wheel else latest
        | Some _, None => wheel
        | None, _ => latest
        end in
      latestFrom latest' rest
  end.

Definition getLatestVersion (wheels : list WheelDefinitionWithPresets)
    : option WheelDefinitionWithPresets :=
  match wheels with
  | [] => None
  | first :: rest => Some (latestFrom first rest)
  end.

(** The numbers of two versions compared piece by piece, the first
    difference deciding. *)
Fixpoint compareNumbers (numbers1 numbers2 : list N) : Z :=
  match numbers1, numbers2 with
  | n1 :: rest1, n2 :: rest2 =>
      if (n1 <? n2)%N then (-1)%Z
      else if (n2 <? n1)%N then 1%Z
      else compareNumbers rest1 rest2
  | _, _ => 0%Z
  end.

(** A text of digits and dots only: every piece between two dots is a run
    of digits, which [Number] reads as its value. *)
Fixpoint digitsAndDots (s : string) : bool :=
  match s with
  | EmptyString => true
  | String c rest => (isDigit c || Ascii.eqb c ".") && digitsAndDots rest
  end.

(** The number [compareVersions] reads at place [i] of a text: a piece
    that is missing counts as 0. *)
Definition pieceAt (v : string) (i : nat) : N :=
  orZero (map Number (split "." v) !! i).

(** A text of one or more digits. *)
Definition isDigits (s : string) : Prop :=
  allDigits s = true /\ s <> EmptyString.

End VersionQueries.

(** ** Version numbers that are doubles of their own *)

Module SafeIntegers.
Import Text Wheels Versioning VersionQueries.

(** [Number.MAX_SAFE_INTEGER], 2^53 - 1: the whole numbers up to it are
    doubles, each printed with all its digits, and adding 1 to one below it
    is exact. *)
Definition maxSafeInteger : N := 9007199254740991.

Definition safeNumber (part : option N) : bool :=
  match part with
  | Some n => (n <=? maxSafeInteger)%N
  | None => true
  end.

(** Every piece of the text between dots reads as a number of at most
    [maxSafeInteger]. *)
Definition safePieces (v : string) : bool :=
  forallb safeNumber (map Number (split "." v)).

(** Every number of the list is at most [maxSafeInteger]. *)
Definition safeNumbers (numbers : list N) : bool :=
  forallb (fun n => (n <=? maxSafeInteger)%N) numbers.

End SafeIntegers.

(** ** Rounds of the migration loop, function by function *)

Module MigrationRuns.
Import Text Wheels Versioning Migration VersionQueries.

(** The migration functions of one step called in order, each on the
    result of the one before: all of them return. *)
Inductive allReturn :
    list MigrationFunction -> WheelDefinitionWithPresets ->
    WheelDefinitionWithPresets -> Prop :=
| allReturnNil current : allReturn [] current current
| allReturnCons migration rest current next final :
    migration current = inl next ->
    allReturn rest next final ->
    allReturn (migration :: rest) current final.

(** One of them throws [t], those before it having returned. *)
Inductive oneThrows :
    list MigrationFunction -> WheelDefinitionWithPresets -> thrown -> Prop :=
| throwsFirst migration rest current t :
    migration current = inr t ->
    oneThrows (migration :: rest) current t
| throwsLater migration rest current next t :
    migration current = inl next ->
    oneThrows rest next t ->
    oneThrows (migration :: rest) current t.

(** [rounds] rounds of the loop of [migrateWheelDefinition] in which no
    migration function throws: from [currentVersion] with the definition
    [current] they lead to [reachedVersion] with [reached]. *)
Inductive roundsReturn (migrations : gmap string (list MigrationFunction)) :
    nat -> string -> WheelDefinitionWithPresets ->
    string -> WheelDefinitionWithPresets -> Prop :=
| roundsNone currentVersion current :
    roundsReturn migrations 0 currentVersion current currentVersion current
| roundsNext rounds currentVersion nextVersion current stepped reachedVersion reached :
    getNextVersion currentVersion = Some nextVersion ->
    allReturn (default [] (migrations !! (currentVersion +:+ "->" +:+ nextVersion)))
      current stepped ->
    roundsReturn migrations rounds nextVersion (withVersion stepped nextVersion)
      reachedVersion reached ->
    roundsReturn migrations (S rounds) currentVersion current reachedVersion reached.

End MigrationRuns.

(** ** The definitions the loader accepts *)

Module WellFormed.
Import Json Text Loader.

Definition nonEmptyString (v : value) : Prop :=
  exists s, v = VString s /\ s <> EmptyString.

Definition optionalString (v : value) : Prop :=
  v = VUndefined \/ exists s, v = VString s.

Definition wellFormedDataSource (dataSource : value) : Prop :=
  exists kind, get dataSource "kind" = VString kind /\
    (kind = "static_zodiac" \/
     ((kind = "layer_houses" \/ kind = "layer_planets") /\
      nonEmptyString (get dataSource "layerId")) \/
     (kind = "aspect_set" /\ nonEmptyString (get dataSource "aspectSetId"))).

Definition wellFormedRing (ring : value) : Prop :=
  nonEmptyString (get ring "slug") /\
  (exists type, get ring "type" = VString type /\
                In type ["signs"; "houses"; "planets"; "aspects"]) /\
  nonEmptyString (get ring "label") /\
  (exists orderIndex, get ring "orderIndex" = VNumber orderIndex) /\
  (exists radiusInner radiusOuter,
      get ring "radiusInner" = VNumber radiusInner /\
      get ring "radiusOuter" = VNumber radiusOuter /\
      0 <= radiusInner /\ radiusInner < radiusOuter /\ radiusOuter <= 1) /\
  wellFormedDataSource (get ring "dataSource").

Definition wellFormedWheel (definition : value) : Prop :=
  nonEmptyString (get definition "name") /\
  (exists rings, get definition "rings" = VArray rings /\ rings <> [] /\
                 Forall wellFormedRing rings) /\
  optionalString (get definition "description") /\
  (get definition "version" = VUndefined \/
   exists version, get definition "version" = VString version /\
                   versionRegex version = true) /\
  optionalString (get definition "author") /\
  (get definition "tags" = VUndefined \/
   exists tags, get definition "tags" = VArray tags /\
                Forall (fun tag => exists s, tag = VString s) tags).

(** The prefix of the [field] of every error about ring [index]. *)
Definition ringPath (index : nat) : string :=
  "rings[" +:+ natToString index +:+ "]".

(** [prefix] starts the text [s]. *)
Definition startsWith (prefix s : string) : Prop :=
  exists rest, s = prefix +:+ rest.

End WellFormed.

(** ** Definitions as JSON values, for the scenarios *)

Module Samples.
Import Json.

(** The ring of the wheels in [registry.test.ts]. *)
Definition signsRing : value :=
  VObject [ ("slug", VString "signs"); ("type", VString "signs");
            ("label", VString "Zodiac Signs"); ("orderIndex", VNumber 0);
            ("radiusInner", VNumber (85 # 100)); ("radiusOuter", VNumber 1);
            ("dataSource", VObject [("kind", VString "static_zodiac")]) ].

(** The wheel named [Test Wheel] of [registry.test.ts]. *)
Definition testWheel : value :=
  VObject [ ("name", VString "Test Wheel"); ("description", VString "A test wheel");
            ("version", VString "1.0.0"); ("rings", VArray [signsRing]);
            ("config", VObject []) ].

(** The first ring of [definitions/vedicNatal.ts]. *)
Definition nakshatraRing : value :=
  VObject [ ("slug", VString "ring_nakshatras"); ("type", VString "signs");
            ("label", VString "Nakshatras"); ("orderIndex", VNumber 0);
            ("radiusInner", VNumber (85 # 100)); ("radiusOuter", VNumber 1);
            ("dataSource", VObject [("kind", VString "static_nakshatras")]);
            ("displayOptions", VObject []) ].

(** A wheel that holds the nakshatra ring. *)
Definition nakshatraWheel : value :=
  VObject [ ("name", VString "Vedic Natal Wheel"); ("version", VString "1.0.0");
            ("rings", VArray [nakshatraRing]) ].

(** A user's definition whose name is the key of the built-in. *)
Definition keyNamedWheel : Wheels.WheelDefinitionWithPresets :=
  {| Wheels.name := "standard-natal-wheel";
     Wheels.description := None;
     Wheels.rings := [ Wheels.mkRing "ring_signs" Wheels.ringSigns "Zodiac Signs" 0
                         (85 # 100) 1 Wheels.StaticZodiacSource None ];
     Wheels.config := None; Wheels.defaultVisualConfig := None;
     Wheels.defaultGlyphConfig := None;
     Wheels.version := Some "0.1.0"; Wheels.author := None; Wheels.tags := None |}.

End Samples.

(** ** Visual and glyph configurations (configs/visual.ts, configs/glyphs.ts) *)

Module Configs.
Import Json.

(** A configuration object is the map of its own properties by key; a
    property that holds [undefined] is present, with the value
    [VUndefined]. *)

(** The own enumerable properties of a value, as the spread [...v] inside
    an object literal copies them: the fields of an object, the items of an
    array under their indices, the characters of a text under theirs, and
    nothing for [undefined], [null], a boolean or a number. *)
Definition ownProperties (v : value) : gmap string value :=
  match v with
  | VObject fields => list_to_map fields
  | VArray items => list_to_map (imap (fun i item => (natToString i, item)) items)
  | VString s =>
      list_to_map (imap (fun i c => (natToString i, VString (String c EmptyString)))
                     (list_ascii_of_string s))
  | _ => ∅
  end.

(** The object a configuration is stored as inside another one. *)
Definition objectOf (config : gmap string value) : value := VObject (map_to_list config).

(** [{ ...a, ...b }]: the properties of [b] over those of [a]. *)
Definition spread (a b : gmap string value) : gmap string value := b ∪ a.

(** The first of two lookups that finds the key. *)
Definition orElse (first second : option value) : option value :=
  match first with
  | Some v => Some v
  | None => second
  end.

(** [config?.key]. *)
Definition optionalField (config : option (gmap string value)) (key : string) : value :=
  match config with
  | Some config => default VUndefined (config !! key)
  | None => VUndefined
  end.

(** [{ ...base[key], ...config?.[key] }], the nested merge of one field. *)
Definition mergeField (base : gmap string value) (config : option (gmap string value)) (key : string) : value :=
  objectOf (spread (ownProperties (default VUndefined (base !! key)))
              (ownProperties (optionalField config key))).

Definition colors (list : list string) : value := VArray (VString <$> list).

Definition defaultVisualConfig : gmap string value :=
  list_to_map
    [ ("ringWidth", VNumber 30);
      ("ringSpacing", VNumber 10);
      ("signColors",
        colors ["#FF6B6B"; "#FFA07A"; "#FFD700"; "#98D8C8"; "#FF6347"; "#F0E68C";
                "#87CEEB"; "#9370DB"; "#FFA500"; "#2F4F4F"; "#00CED1"; "#FF69B4"]);
      ("houseColors",
        colors ["#E8E8E8"; "#D3D3D3"; "#C0C0C0"; "#A9A9A9"; "#808080"; "#696969";
                "#E8E8E8"; "#D3D3D3"; "#C0C0C0"; "#A9A9A9"; "#808080"; "#696969"]);
      ("planetColors",
        colors ["#FFD700"; "#C0C0C0"; "#FF6347"; "#FFA500"; "#FF4500"; "#FFD700";
                "#9370DB"; "#00CED1"; "#4169E1"; "#8B4513"]);
      ("aspectColors",
        VObject [ ("conjunction", VString "#FF0000"); ("opposition", VString "#0000FF");
                  ("trine", VString "#00FF00"); ("square", VString "#FF0000");
                  ("sextile", VString "#FFFF00"); ("semisextile", VString "#FFA500");
                  ("semisquare", VString "#FF6347");
                  ("sesquiquadrate", VString "#FF6347");
                  ("quincunx", VString "#9370DB") ]);
      ("aspectStrokeWidth", VNumber 2);
      ("backgroundColor", VString "#FFFFFF");
      ("strokeColor", VString "#000000");
      ("strokeWidth", VNumber 1) ].

Definition mergeVisualConfig (config : option (gmap string value)) : gmap string value :=
  <["aspectColors" := mergeField defaultVisualConfig config "aspectColors"]>
    (spread defaultVisualConfig (default ∅ config)).

Definition defaultGlyphConfig : gmap string value :=
  list_to_map
    [ ("signGlyphs",
        VObject [ ("0", VString "♈"); ("1", VString "♉"); ("2", VString "♊");
                  ("3", VString "♋"); ("4", VString "♌"); ("5", VString "♍");
                  ("6", VString "♎"); ("7", VString "♏"); ("8", VString "♐");
                  ("9", VString "♑"); ("10", VString "♒"); ("11", VString "♓") ]);
      ("planetGlyphs",
        VObject [ ("0", VString "☉"); ("1", VString "☽"); ("2", VString "☿");
                  ("3", VString "♀"); ("4", VString "♂"); ("5", VString "♃");
                  ("6", VString "♄"); ("7", VString "♅"); ("8", VString "♆");
                  ("9", VString "♇") ]);
      ("aspectGlyphs",
        VObject [ ("conjunction", VString "☌"); ("opposition", VString "☍");
                  ("trine", VString "△"); ("square", VString "□");
                  ("sextile", VString "⚹"); ("semisextile", VString "⚺");
                  ("semisquare", VString "∠"); ("sesquiquadrate", VString "⚻");
                  ("quincunx", VString "⚼") ]);
      ("glyphSize", VNumber 12);
      ("glyphFont", VString "Arial") ].

Definition mergeGlyphConfig (config : option (gmap string value)) : gmap string value :=
  <["aspectGlyphs" := mergeField defaultGlyphConfig config "aspectGlyphs"]>
    (<["planetGlyphs" := mergeField defaultGlyphConfig config "planetGlyphs"]>
       (<["signGlyphs" := mergeField defaultGlyphConfig config "signGlyphs"]>
          (spread defaultGlyphConfig (default ∅ config)))).

End Configs.

(** ** Chart presets (presets/chartPresets.ts) *)

Module ChartPresets.
Import Json Wheels Registry Configs.

Record ChartPreset : Type := mkChartPreset {
  name : string;
  description : option string;
  wheel : WheelDefinitionWithPresets;
  visualConfig : gmap string value;
  glyphConfig : gmap string value
}.

(** What [createPresetFromWheel] does: it returns a preset or throws an
    [Error] with its message. *)
Inductive creation : Type :=
| Created (preset : ChartPreset)
| NotFound (errorMessage : string).

(** A configuration kept in a wheel definition, as an object. *)
Definition wheelConfig (fields : option (list (string * value))) : option (gmap string value) :=
  list_to_map <$> fields.

(** [{ ...wheelDefaults, ...overrides, key: { ...wheelDefaults?.key,
    ...overrides?.key } }] for each of the nested [keys]. *)
Definition combineOverrides (wheelDefaults overrides : option (gmap string value))
    (keys : list string) : gmap string value :=
  foldl (fun combined key =>
           <[key := objectOf (spread (ownProperties (optionalField wheelDefaults key))
                                (ownProperties (optionalField overrides key)))]> combined)
    (spread (default ∅ wheelDefaults) (default ∅ overrides)) keys.

Definition createPresetFromWheel
    (userDefinitions : gmap string WheelDefinitionWithPresets)
    (wheelName presetName : string)
    (visualOverrides glyphOverrides : option (gmap string value)) : creation :=
  match getWheelDefinition userDefinitions wheelName with
  | None => NotFound ("Wheel definition not found: " +:+ wheelName)
  | Some wheel =>
      let combinedVisualOverrides :=
        combineOverrides (wheelConfig (Wheels.defaultVisualConfig wheel)) visualOverrides
          ["aspectColors"] in
      let visualConfig := mergeVisualConfig (Some combinedVisualOverrides) in
      let combinedGlyphOverrides :=
        combineOverrides (wheelConfig (Wheels.defaultGlyphConfig wheel)) glyphOverrides
          ["signGlyphs"; "planetGlyphs"; "aspectGlyphs"] in
      let glyphConfig := mergeGlyphConfig (Some combinedGlyphOverrides) in
      Created {| name := presetName; description := None; wheel := wheel;
                 visualConfig := visualConfig; glyphConfig := glyphConfig |}
  end.

End ChartPresets.

(** * Facts *)

(** ** Comparisons and remainders *)

Section NumberFacts.

Lemma Qltb_lt (x y : Q) : Qltb x y = true <-> x < y.
Proof.
  unfold Qltb. rewrite negb_true_iff, <- not_true_iff_false, Qle_bool_iff.
  split; [apply Qnot_le_lt | apply Qlt_not_le].
Qed.

Lemma Qltb_ge (x y : Q) : Qltb x y = false <-> y <= x.
Proof.
  unfold Qltb. rewrite negb_false_iff. apply Qle_bool_iff.
Qed.

Lemma Qgtb_gt (x y : Q) : Qgtb x y = true <-> y < x.
Proof. apply Qltb_lt. Qed.

Lemma Qgtb_le (x y : Q) : Qgtb x y = false <-> x <= y.
Proof. apply Qltb_ge. Qed.

Lemma truncate_nonneg (x : Q) : 0 <= x -> truncate x = Qfloor x.
Proof.
  destruct x as [n d]. unfold Qle, truncate, Qfloor. simpl. intros Hn.
  apply Z.quot_div_nonneg; lia.
Qed.

Lemma truncate_nonpos (x : Q) : x <= 0 -> truncate x = Qceiling x.
Proof.
  destruct x as [n d]. unfold Qle, truncate, Qceiling, Qfloor. simpl. intros Hn.
  replace n with (- - n)%Z at 1 by lia.
  rewrite Z.quot_opp_l by lia. f_equal.
  apply Z.quot_div_nonneg; lia.
Qed.

(** The remainder differs from the dividend by whole multiples of the
    divisor. *)
Lemma rem_sameAngle (x : Q) : Spec.sameAngle (rem x 360) x.
Proof.
  exists (- truncate (x / 360))%Z. unfold rem.
  rewrite inject_Z_opp. ring.
Qed.

Lemma rem_nonneg (x : Q) : 0 <= x -> 0 <= rem x 360 /\ rem x 360 < 360.
Proof.
  intros Hx. unfold rem.
  assert (H0 : 0 <= x / 360) by (apply Qle_shift_div_l; lra).
  rewrite (truncate_nonneg _ H0).
  pose proof (Qfloor_le (x / 360)) as Hlo.
  pose proof (Qlt_floor (x / 360)) as Hhi.
  rewrite inject_Z_plus in Hhi.
  assert (Hx' : x == 360 * (x / 360)) by (field).
  change (inject_Z 1) with 1 in Hhi.
  remember (inject_Z (Qfloor (x / 360))) as f. remember (x / 360) as y.
  split; lra.
Qed.

Lemma rem_nonpos (x : Q) : x <= 0 -> -360 < rem x 360 /\ rem x 360 <= 0.
Proof.
  intros Hx. unfold rem.
  assert (H0 : x / 360 <= 0) by (apply Qle_shift_div_r; lra).
  rewrite (truncate_nonpos _ H0).
  pose proof (Qle_ceiling (x / 360)) as Hhi.
  pose proof (Qceiling_lt (x / 360)) as Hlo.
  unfold Z.sub in Hlo. rewrite inject_Z_plus in Hlo.
  assert (Hx' : x == 360 * (x / 360)) by (field).
  change (inject_Z (- (1))) with (-1) in Hlo.
  remember (inject_Z (Qceiling (x / 360))) as f. remember (x / 360) as y.
  split; lra.
Qed.

(** A whole number strictly between -1 and 1 is 0. *)
Lemma small_turns_zero (k : Z) (a b : Q) :
  a - b == 360 * inject_Z k -> -360 < a - b -> a - b < 360 -> k = 0%Z.
Proof.
  intros Hk Hlo Hhi. rewrite Hk in Hlo, Hhi.
  assert (H1 : inject_Z (-1) < inject_Z k)
    by (change (inject_Z (-1)) with (-1); lra).
  assert (H2 : inject_Z k < inject_Z 1)
    by (change (inject_Z 1) with 1; lra).
  rewrite <- Zlt_Qlt in H1, H2. lia.
Qed.

Lemma Qgeb_ge (x y : Q) : Qgeb x y = true <-> y <= x.
Proof. unfold Qgeb. apply Qle_bool_iff. Qed.

Lemma Qgeb_lt (x y : Q) : Qgeb x y = false <-> x < y.
Proof.
  unfold Qgeb. rewrite <- not_true_iff_false, Qle_bool_iff. split.
  - apply Qnot_le_lt.
  - intros Hlt Hle. lra.
Qed.

End NumberFacts.

(** ** Angles up to whole turns *)

#[global] Instance sameAngle_equivalence : Equivalence Spec.sameAngle.
Proof.
  split.
  - intros a. exists 0%Z. change (inject_Z 0) with 0. ring.
  - intros a b [k Hk]. exists (- k)%Z. rewrite inject_Z_opp. lra.
  - intros a b c [k Hk] [l Hl]. exists (k + l)%Z. rewrite inject_Z_plus. lra.
Qed.

#[global] Instance Qeq_sameAngle : subrelation Qeq Spec.sameAngle.
Proof.
  intros a b Hab. exists 0%Z. rewrite Hab. change (inject_Z 0) with 0. ring.
Qed.

#[global] Instance sameAngle_Qeq_proper :
  Proper (Qeq ==> Qeq ==> iff) Spec.sameAngle.
Proof.
  intros a a' Ha b b' Hb. unfold Spec.sameAngle.
  split; intros [k Hk]; exists k; [rewrite <- Ha, <- Hb | rewrite Ha, Hb]; exact Hk.
Qed.

#[global] Instance Qplus_sameAngle :
  Proper (Spec.sameAngle ==> Spec.sameAngle ==> Spec.sameAngle) Qplus.
Proof.
  intros a a' [k Hk] b b' [l Hl]. exists (k + l)%Z. rewrite inject_Z_plus. lra.
Qed.

#[global] Instance Qopp_sameAngle :
  Proper (Spec.sameAngle ==> Spec.sameAngle) Qopp.
Proof.
  intros a a' [k Hk]. exists (- k)%Z. rewrite inject_Z_opp. lra.
Qed.

#[global] Instance Qminus_sameAngle :
  Proper (Spec.sameAngle ==> Spec.sameAngle ==> Spec.sameAngle) Qminus.
Proof.
  intros a a' Ha b b' Hb. unfold Qminus. rewrite Ha, Hb. reflexivity.
Qed.

Section AngleFacts.
Import Orientation.

Lemma turn_sameAngle (x : Q) (k : Z) : Spec.sameAngle (x + 360 * inject_Z k) x.
Proof. exists k. ring. Qed.

Lemma plus360_sameAngle (x : Q) : Spec.sameAngle (x + 360) x.
Proof. exists 1%Z. change (inject_Z 1) with 1. ring. Qed.

Lemma minus360_sameAngle (x : Q) : Spec.sameAngle (x - 360) x.
Proof. exists (-1)%Z. change (inject_Z (-1)) with (-1). ring. Qed.

(** Two angles of [0,360) that differ by whole turns are equal. *)
Lemma canonical_unique (a b : Q) :
  0 <= a -> a < 360 -> 0 <= b -> b < 360 -> Spec.sameAngle a b -> a == b.
Proof.
  intros Ha0 Ha1 Hb0 Hb1 [k Hk].
  assert (k = 0%Z) as -> by (apply (small_turns_zero k a b Hk); lra).
  change (inject_Z 0) with 0 in Hk. lra.
Qed.

Lemma normalizeDeg_sameAngle (x : Q) : Spec.sameAngle (normalizeDeg x) x.
Proof.
  unfold normalizeDeg. destruct (Qltb (rem x 360) 0).
  - rewrite plus360_sameAngle. apply rem_sameAngle.
  - apply rem_sameAngle.
Qed.

Lemma normalizeDeg_range (x : Q) : 0 <= normalizeDeg x /\ normalizeDeg x < 360.
Proof.
  unfold normalizeDeg.
  destruct (Qltb (rem x 360) 0) eqn:Hneg.
  - apply Qltb_lt in Hneg.
    destruct (Qlt_le_dec x 0) as [Hx | Hx].
    + destruct (rem_nonpos x) as [Hlo Hhi]; [lra |]. lra.
    + destruct (rem_nonneg x Hx) as [Hlo Hhi]. lra.
  - apply Qltb_ge in Hneg.
    destruct (Qlt_le_dec x 0) as [Hx | Hx].
    + destruct (rem_nonpos x) as [Hlo Hhi]; [lra |]. lra.
    + destruct (rem_nonneg x Hx) as [Hlo Hhi]. lra.
Qed.

#[global] Instance normalizeDeg_sameAngle_proper :
  Proper (Spec.sameAngle ==> Qeq) normalizeDeg.
Proof.
  intros a b Hab.
  destruct (normalizeDeg_range a), (normalizeDeg_range b).
  apply canonical_unique; try assumption.
  rewrite !normalizeDeg_sameAngle. exact Hab.
Qed.

#[global] Instance normalizeDeg_Qeq_proper : Proper (Qeq ==> Qeq) normalizeDeg.
Proof.
  intros a b Hab. apply normalizeDeg_sameAngle_proper.
  apply Qeq_sameAngle, Hab.
Qed.

Lemma normalizeDeg_fixed (x : Q) : 0 <= x -> x < 360 -> normalizeDeg x == x.
Proof.
  intros H0 H1. destruct (normalizeDeg_range x).
  apply canonical_unique; try assumption. apply normalizeDeg_sameAngle.
Qed.

(** *** The loops of the anchor-based model *)

Lemma whileAbove_sameAngle (fuel : nat) (x : Q) :
  Spec.sameAngle (whileAbove fuel x) x.
Proof.
  revert x. induction fuel as [| fuel IH]; intros x; simpl.
  - reflexivity.
  - destruct (Qgtb x 180); [| reflexivity].
    rewrite IH. apply minus360_sameAngle.
Qed.

Lemma whileBelow_sameAngle (fuel : nat) (x : Q) :
  Spec.sameAngle (whileBelow fuel x) x.
Proof.
  revert x. induction fuel as [| fuel IH]; intros x; simpl.
  - reflexivity.
  - destruct (Qltb x (-180)); [| reflexivity].
    rewrite IH. apply plus360_sameAngle.
Qed.

Lemma wrapOffset_sameAngle (x : Q) : Spec.sameAngle (wrapOffset x) x.
Proof.
  unfold wrapOffset. rewrite whileBelow_sameAngle. apply whileAbove_sameAngle.
Qed.

Lemma foldOnce_sameAngle (x : Q) : Spec.sameAngle (foldOnce x) x.
Proof.
  unfold foldOnce.
  destruct (Qgtb x 180);
    [destruct (Qltb (x - 360) (-180)) | destruct (Qltb x (-180))];
    rewrite ?plus360_sameAngle, ?minus360_sameAngle; reflexivity.
Qed.

Lemma whileRuns_exit cond body x y :
  whileRuns cond body x y -> cond y = false.
Proof. induction 1; assumption. Qed.

Lemma whileAbove_runs (fuel : nat) (x : Q) :
  x <= 180 + 360 * inject_Z (Z.of_nat fuel) ->
  whileRuns above180 minus360 x (whileAbove fuel x).
Proof.
  revert x. induction fuel as [| fuel IH]; intros x Hx.
  - change (inject_Z (Z.of_nat 0)) with 0 in Hx. simpl.
    apply whileStop. apply Qgtb_le. lra.
  - simpl. destruct (Qgtb x 180) eqn:Hgt.
    + apply whileStep; [exact Hgt |]. apply IH. unfold minus360.
      rewrite Nat2Z.inj_succ, <- Z.add_1_r, inject_Z_plus in Hx.
      change (inject_Z 1) with 1 in Hx. lra.
    + apply whileStop. exact Hgt.
Qed.

Lemma whileBelow_runs (fuel : nat) (x : Q) :
  -180 - 360 * inject_Z (Z.of_nat fuel) <= x ->
  whileRuns below180 plus360 x (whileBelow fuel x).
Proof.
  revert x. induction fuel as [| fuel IH]; intros x Hx.
  - change (inject_Z (Z.of_nat 0)) with 0 in Hx. simpl.
    apply whileStop. apply Qltb_ge. lra.
  - simpl. destruct (Qltb x (-180)) eqn:Hlt.
    + apply whileStep; [exact Hlt |]. apply IH. unfold plus360.
      rewrite Nat2Z.inj_succ, <- Z.add_1_r, inject_Z_plus in Hx.
      change (inject_Z 1) with 1 in Hx. lra.
    + apply whileStop. exact Hlt.
Qed.

Lemma turnsOf_bound (x : Q) : Qabs x <= 360 * inject_Z (Z.of_nat (turnsOf x)).
Proof.
  unfold turnsOf.
  pose proof (Qle_ceiling (Qabs x / 360)) as Hc.
  pose proof (Qabs_nonneg x) as Hn.
  assert (H0 : (0 <= Qceiling (Qabs x / 360))%Z).
  { rewrite Zle_Qle. change (inject_Z 0) with 0.
    apply Qle_trans with (Qabs x / 360); [| exact Hc].
    apply Qle_shift_div_l; lra. }
  rewrite Z2Nat.id by exact H0.
  assert (Hx : Qabs x == 360 * (Qabs x / 360)) by field.
  remember (Qabs x / 360) as y. remember (inject_Z (Qceiling y)) as c. lra.
Qed.

(** The rounds allotted to each loop are enough for it to stop. *)
Lemma whileAbove_done (x : Q) :
  whileRuns above180 minus360 x (whileAbove (turnsOf x) x).
Proof.
  apply whileAbove_runs.
  pose proof (turnsOf_bound x). pose proof (Qle_Qabs x). lra.
Qed.

Lemma whileBelow_done (x : Q) :
  whileRuns below180 plus360 x (whileBelow (turnsOf x) x).
Proof.
  apply whileBelow_runs.
  pose proof (turnsOf_bound x) as Hb. pose proof (Qle_Qabs (- x)) as Hq.
  rewrite Qabs_opp in Hq. lra.
Qed.

(** [wrapOffset] is the value the two loops leave with. *)
Lemma wrapOffset_runs (x : Q) :
  exists offset1,
    whileRuns above180 minus360 x offset1 /\
    whileRuns below180 plus360 offset1 (wrapOffset x).
Proof.
  exists (whileAbove (turnsOf x) x). split.
  - apply whileAbove_done.
  - apply whileBelow_done.
Qed.

Lemma whileBelow_le (fuel : nat) (x : Q) : x <= 180 -> whileBelow fuel x <= 180.
Proof.
  revert x. induction fuel as [| fuel IH]; intros x Hx; simpl; [exact Hx |].
  destruct (Qltb x (-180)) eqn:Hlt; [| exact Hx].
  apply Qltb_lt in Hlt. apply IH. lra.
Qed.

Lemma wrapOffset_range (x : Q) : -180 <= wrapOffset x /\ wrapOffset x <= 180.
Proof.
  split.
  - apply Qltb_ge. exact (whileRuns_exit _ _ _ _ (whileBelow_done _)).
  - apply whileBelow_le, Qgtb_le.
    exact (whileRuns_exit _ _ _ _ (whileAbove_done x)).
Qed.

Lemma wrapOffset_zero (x : Q) : x == 0 -> wrapOffset x == 0.
Proof.
  intros Hx. destruct (wrapOffset_range x) as [Hlo Hhi].
  destruct (wrapOffset_sameAngle x) as [k Hk].
  assert (k = 0%Z) as -> by (apply (small_turns_zero k _ _ Hk); lra).
  change (inject_Z 0) with 0 in Hk. lra.
Qed.

(** *** The specification's wording against the code *)

Lemma spec_normalize_range (x : Q) : 0 <= Spec.normalize x /\ Spec.normalize x < 360.
Proof.
  unfold Spec.normalize.
  pose proof (Qfloor_le (x / 360)) as Hlo.
  pose proof (Qlt_floor (x / 360)) as Hhi.
  rewrite inject_Z_plus in Hhi. change (inject_Z 1) with 1 in Hhi.
  assert (Hx : x == 360 * (x / 360)) by field.
  remember (x / 360) as y. remember (inject_Z (Qfloor y)) as c. split; lra.
Qed.

Lemma spec_normalize_sameAngle (x : Q) : Spec.sameAngle (Spec.normalize x) x.
Proof.
  exists (- Qfloor (x / 360))%Z. unfold Spec.normalize.
  rewrite inject_Z_opp. ring.
Qed.

Lemma spec_normalize_normalizeDeg (x : Q) : Spec.normalize x == normalizeDeg x.
Proof.
  destruct (spec_normalize_range x), (normalizeDeg_range x).
  apply canonical_unique; try assumption.
  rewrite spec_normalize_sameAngle, normalizeDeg_sameAngle. reflexivity.
Qed.

Lemma spec_shortestDelta_range (a b : Q) :
  -180 < Spec.shortestDelta a b /\ Spec.shortestDelta a b <= 180.
Proof.
  unfold Spec.shortestDelta.
  pose proof (Qle_ceiling ((a - b - 180) / 360)) as Hhi.
  pose proof (Qceiling_lt ((a - b - 180) / 360)) as Hlo.
  unfold Z.sub in Hlo. rewrite inject_Z_plus in Hlo.
  change (inject_Z (- (1))) with (-1) in Hlo.
  assert (Hx : a - b - 180 == 360 * ((a - b - 180) / 360)) by field.
  remember ((a - b - 180) / 360) as y. remember (inject_Z (Qceiling y)) as c.
  split; lra.
Qed.

Lemma spec_shortestDelta_sameAngle (a b : Q) :
  Spec.sameAngle (Spec.shortestDelta a b) (a - b).
Proof.
  exists (- Qceiling ((a - b - 180) / 360))%Z. unfold Spec.shortestDelta.
  rewrite inject_Z_opp. ring.
Qed.

Lemma foldOnce_normalizeDeg_range (x : Q) :
  -180 < foldOnce (normalizeDeg x) /\ foldOnce (normalizeDeg x) <= 180.
Proof.
  destruct (normalizeDeg_range x) as [Hlo Hhi]. unfold foldOnce.
  destruct (Qgtb (normalizeDeg x) 180) eqn:Hgt.
  - apply Qgtb_gt in Hgt.
    destruct (Qltb (normalizeDeg x - 360) (-180)) eqn:Hlt.
    + apply Qltb_lt in Hlt. lra.
    + split; lra.
  - apply Qgtb_le in Hgt.
    destruct (Qltb (normalizeDeg x) (-180)) eqn:Hlt.
    + apply Qltb_lt in Hlt. lra.
    + split; lra.
Qed.

(** The code's folded difference is the specification's [shortestDelta]. *)
Lemma foldOnce_shortestDelta (a b : Q) :
  foldOnce (normalizeDeg (a - b)) == Spec.shortestDelta a b.
Proof.
  destruct (foldOnce_normalizeDeg_range (a - b)) as [Hlo Hhi].
  destruct (spec_shortestDelta_range a b) as [Hlo' Hhi'].
  assert (Hs : Spec.sameAngle (foldOnce (normalizeDeg (a - b))) (Spec.shortestDelta a b)).
  { rewrite foldOnce_sameAngle, normalizeDeg_sameAngle, spec_shortestDelta_sameAngle.
    reflexivity. }
  destruct Hs as [k Hk].
  assert (k = 0%Z) as -> by (apply (small_turns_zero k _ _ Hk); lra).
  change (inject_Z 0) with 0 in Hk. lra.
Qed.

End AngleFacts.

(** ** The view-frame transforms *)

Section TransformFacts.
Import Orientation Scenarios.

(** Over exact arithmetic [normalizeDeg x] lies in [0,360), and
    normalizing a second time changes nothing. *)
Lemma normalizeDeg_exact (x : Q) :
  (0 <= normalizeDeg x /\ normalizeDeg x < 360) /\
  normalizeDeg (normalizeDeg x) == normalizeDeg x.
Proof.
  split; [apply normalizeDeg_range |].
  destruct (normalizeDeg_range x). apply normalizeDeg_fixed; assumption.
Qed.

Lemma legacy_worldToScreenAngle (worldLongitude : Q) (f : ViewFrame) (anchorLongitude : Q) :
  usesZeroPoint f = false ->
  worldToScreenAngle worldLongitude f anchorLongitude =
  Finite (normalizeDeg
    (let offset := wrapOffset (worldLongitude - anchorLongitude) in
     let offset := if isCcw (direction f) then - offset else offset in
     let screenAngle := screenAngleDeg f + offset in
     if truthy (angularFlip f)
     then screenAngleDeg f - (screenAngle - screenAngleDeg f)
     else screenAngle)).
Proof.
  unfold usesZeroPoint, worldToScreenAngle.
  destruct (worldZero f), (screenZero f); intros Hz; try discriminate; reflexivity.
Qed.

Lemma legacy_screenToWorldLongitude (screenAngle : Q) (f : ViewFrame) (anchorLongitude : Q) :
  usesZeroPoint f = false ->
  screenToWorldLongitude screenAngle f anchorLongitude =
  Finite (normalizeDeg
    (let offset := wrapOffset (normalizeDeg screenAngle - screenAngleDeg f) in
     let offset := if truthy (angularFlip f) then - offset else offset in
     let offset := if isCcw (direction f) then - offset else offset in
     anchorLongitude + offset)).
Proof.
  unfold usesZeroPoint, screenToWorldLongitude.
  destruct (worldZero f), (screenZero f); intros Hz; try discriminate; reflexivity.
Qed.

(** C2, counterexample.  With the anchor drawn at -90 degrees the anchor
    lands at 270, not at [screenAngleDeg]. *)
Lemma anchor_fixed_point_counterexample :
  usesZeroPoint legacyFrameAtMinus90 = false /\
  strictEq (worldToScreenAngle 95 legacyFrameAtMinus90 95) (Finite 270) /\
  ~ strictEq (worldToScreenAngle 95 legacyFrameAtMinus90 95)
      (Finite (screenAngleDeg legacyFrameAtMinus90)).
Proof.
  split; [reflexivity |]. split; [reflexivity |].
  vm_compute. discriminate.
Qed.

(** C2, amended.  For every anchor longitude and every [direction] and
    [angularFlip], a frame of the anchor-based model sends the anchor's own
    longitude to [normalizeDeg screenAngleDeg], which is [screenAngleDeg]
    itself when that lies in [0,360); and for the frame [{houses, ASC,
    180, ccw}] with the anchor at 95, 95 goes to 180 and 185 goes to 90. *)
Theorem anchor_fixed_point :
  (forall (f : ViewFrame) (anchorLongitude : Q),
      usesZeroPoint f = false ->
      strictEq (worldToScreenAngle anchorLongitude f anchorLongitude)
        (Finite (normalizeDeg (screenAngleDeg f))) /\
      (0 <= screenAngleDeg f -> screenAngleDeg f < 360 ->
       strictEq (worldToScreenAngle anchorLongitude f anchorLongitude)
         (Finite (screenAngleDeg f)))) /\
  strictEq (worldToScreenAngle 95 legacyFrame 95) (Finite 180) /\
  strictEq (worldToScreenAngle 185 legacyFrame 95) (Finite 90).
Proof.
  split; [| split; reflexivity].
  intros f anchorLongitude Hlegacy.
  rewrite (legacy_worldToScreenAngle _ _ _ Hlegacy). simpl.
  assert (Hw : wrapOffset (anchorLongitude - anchorLongitude) == 0)
    by (apply wrapOffset_zero; ring).
  assert (Hn : normalizeDeg
                 (let offset := wrapOffset (anchorLongitude - anchorLongitude) in
                  let offset := if isCcw (direction f) then - offset else offset in
                  let screenAngle := screenAngleDeg f + offset in
                  if truthy (angularFlip f)
                  then screenAngleDeg f - (screenAngle - screenAngleDeg f)
                  else screenAngle)
               == normalizeDeg (screenAngleDeg f)).
  { apply normalizeDeg_Qeq_proper. cbv zeta.
    destruct (isCcw (direction f)), (truthy (angularFlip f)); lra. }
  split; [exact Hn |].
  intros H0 H1. rewrite Hn. apply normalizeDeg_fixed; assumption.
Qed.

Lemma anchor_fixed_point_witness :
  strictEq (worldToScreenAngle 95 legacyFrame 95) (Finite (screenAngleDeg legacyFrame)).
Proof.
  destruct anchor_fixed_point as [Hgeneral _].
  destruct (Hgeneral legacyFrame 95 eq_refl) as [_ Hin].
  apply Hin; [discriminate | reflexivity].
Defined.

Lemma zeroPoint_worldToScreenAngle (worldLongitude : Q) (f : ViewFrame)
    (anchorLongitude wz sz : Q) :
  worldZero f = Some wz -> screenZero f = Some sz ->
  worldToScreenAngle worldLongitude f anchorLongitude =
  bindNumber (directionNumber (direction f)) (fun d =>
    Finite (normalizeDeg
      (sz + d * foldOnce (normalizeDeg (worldLongitude - wz)) * default 1 (scale f)))).
Proof.
  unfold worldToScreenAngle. intros -> ->. reflexivity.
Qed.

Lemma zeroPoint_screenToWorldLongitude (screenAngle : Q) (f : ViewFrame)
    (anchorLongitude wz sz : Q) :
  worldZero f = Some wz -> screenZero f = Some sz ->
  screenToWorldLongitude screenAngle f anchorLongitude =
  if Qeq_bool (default 1 (scale f)) 0 then NaN
  else bindNumber (directionNumber (direction f)) (fun d =>
    Finite (normalizeDeg
      (wz + (foldOnce (normalizeDeg screenAngle - sz) / default 1 (scale f)) * d))).
Proof.
  unfold screenToWorldLongitude. intros -> ->. reflexivity.
Qed.

(** Over exact arithmetic, when [worldZero] and [screenZero] are both
    set, [worldToScreenAngle] is the specification's [normalize(screenZero
    + direction * shortestDelta(worldLongitude, worldZero) * scale)] with
    [direction] 1 and [scale] 1 when omitted. *)
Lemma zero_point_formula_exact (f : ViewFrame) (worldLongitude anchorLongitude wz sz : Q) :
  worldZero f = Some wz -> screenZero f = Some sz ->
  sameValue (worldToScreenAngle worldLongitude f anchorLongitude)
    (bindNumber (directionNumber (direction f)) (fun d =>
       Finite (Spec.zeroPointScreenAngle worldLongitude wz sz d
                 (default 1 (scale f))))).
Proof.
  intros Hwz Hsz.
  rewrite (zeroPoint_worldToScreenAngle _ _ _ _ _ Hwz Hsz).
  destruct (directionNumber (direction f)) as [d |]; simpl; [| exact I].
  unfold Spec.zeroPointScreenAngle.
  rewrite spec_normalize_normalizeDeg, foldOnce_shortestDelta. reflexivity.
Qed.

(** On an offset of -1e19 adding 360 changes nothing, and the loop
    [while (offset < -180) offset += 360] is still running after any number
    of rounds. *)
Lemma whileBelow_stalls (fuel : nat) :
  Doubles.whileBelow fuel (Doubles.Value (-10000000000000000000)) = None.
Proof.
  induction fuel as [| fuel IH]; [reflexivity |].
  cbn [Doubles.whileBelow].
  replace (Doubles.lt (Doubles.Value (-10000000000000000000)) (Doubles.Value (-180)))
    with true by reflexivity.
  replace (Doubles.add (Doubles.Value (-10000000000000000000)) (Doubles.Value 360))
    with (Doubles.Value (-10000000000000000000)) by (vm_compute; reflexivity).
  exact IH.
Qed.

(** C1, counterexample.  In the worldZero/screenZero model the inverse
    does not undo the forward transform when [scale] is 2 (100 comes back
    as 280), nor when [direction] is ['ccw'] (the product is [NaN]); this is
    so over exact arithmetic and over doubles alike.  And over doubles, in
    the anchor-based model, with the anchor at 0.3 the longitude 0 comes
    back as 360, which is not within 1e-9 of 0, and with the anchor at
    1e19 the call does not return. *)
Lemma round_trip_counterexample :
  (0 <= 100 /\ 100 < 360) /\
  strictEq (roundTrip 100 (zeroPointFrame 0 0 (Some plus1) (Some 2)) 0) (Finite 280) /\
  ~ strictEq (roundTrip 100 (zeroPointFrame 0 0 (Some plus1) (Some 2)) 0) (Finite 100) /\
  roundTrip 100 (zeroPointFrame 0 0 (Some ccw) None) 0 = NaN /\
  ~ strictEq (roundTrip 100 (zeroPointFrame 0 0 (Some ccw) None) 0) (Finite 100) /\
  (forall fuel,
      Doubles.roundTrip fuel (Doubles.Value 100)
        (zeroPointFrame 0 0 (Some plus1) (Some 2)) (Doubles.Value 0)
      = Some (Doubles.Value 280)) /\
  ~ Qabs (280 - 100) <= Doubles.tolerance /\
  (forall fuel,
      Doubles.roundTrip fuel (Doubles.Value 100)
        (zeroPointFrame 0 0 (Some ccw) None) (Doubles.Value 0)
      = Some Doubles.NotANumber) /\
  Doubles.roundTrip 56 (Doubles.Value 0) legacyFrame
    (Doubles.Value (Doubles.literal (3 # 10)))
  = Some (Doubles.Value 360) /\
  ~ Qabs (360 - 0) <= Doubles.tolerance /\
  (forall fuel,
      Doubles.roundTrip fuel (Doubles.Value 0) legacyFrame
        (Doubles.Value 10000000000000000000)
      = None).
Proof.
  split; [split; [discriminate | reflexivity] |].
  split; [reflexivity |].
  split; [vm_compute; discriminate |].
  split; [reflexivity |].
  split; [vm_compute; tauto |].
  split; [intros fuel; vm_compute; reflexivity |].
  split; [vm_compute; intros H; apply H; reflexivity |].
  split; [intros fuel; vm_compute; reflexivity |].
  split; [vm_compute; reflexivity |].
  split; [vm_compute; intros H; apply H; reflexivity |].
  intros fuel. unfold Doubles.roundTrip, Doubles.worldToScreenAngle.
  cbn [worldZero screenZero legacyFrame].
  replace (Doubles.sub (Doubles.Value 0) (Doubles.Value 10000000000000000000))
    with (Doubles.Value (-10000000000000000000)) by (vm_compute; reflexivity).
  replace (Doubles.whileAbove fuel (Doubles.Value (-10000000000000000000)))
    with (Some (Doubles.Value (-10000000000000000000)))
    by (destruct fuel; reflexivity).
  cbn [mbind option_bind]. rewrite whileBelow_stalls. reflexivity.
Qed.

Lemma normalizeDeg_back (x worldLongitude : Q) :
  0 <= worldLongitude -> worldLongitude < 360 ->
  Spec.sameAngle x worldLongitude -> normalizeDeg x == worldLongitude.
Proof.
  intros H0 H1 Hx. rewrite (normalizeDeg_sameAngle_proper _ _ Hx).
  apply normalizeDeg_fixed; assumption.
Qed.

Lemma round_trip_legacy (f : ViewFrame) (worldLongitude anchorLongitude : Q) :
  0 <= worldLongitude -> worldLongitude < 360 ->
  usesZeroPoint f = false ->
  strictEq (roundTrip worldLongitude f anchorLongitude) (Finite worldLongitude).
Proof.
  intros H0 H1 Hlegacy. unfold roundTrip.
  rewrite (legacy_worldToScreenAngle _ _ _ Hlegacy). simpl bindNumber.
  rewrite (legacy_screenToWorldLongitude _ _ _ Hlegacy). simpl strictEq.
  apply normalizeDeg_back; [assumption | assumption |]. cbv zeta.
  destruct (isCcw (direction f)), (truthy (angularFlip f));
    rewrite ?wrapOffset_sameAngle, ?normalizeDeg_sameAngle, ?wrapOffset_sameAngle;
    apply Qeq_sameAngle; ring.
Qed.

Lemma numericDirection_sign (d : option Direction) :
  numericDirection d = true ->
  exists sign, directionNumber d = Finite sign /\ (sign = 1 \/ sign = -1).
Proof.
  destruct d as [[| | |] |]; try discriminate; intros _;
    [exists 1 | exists (-1) | exists 1]; split; auto.
Qed.

Lemma Qabs_one (x : Q) : Qabs x == 1 -> x == 1 \/ x == -1.
Proof.
  intros Hx. destruct (Qlt_le_dec x 0) as [Hneg | Hpos].
  - right. rewrite Qabs_neg in Hx by lra. lra.
  - left. rewrite Qabs_pos in Hx by lra. exact Hx.
Qed.

(** With [direction * scale] of absolute value 1 the two transforms differ
    by whole turns only. *)
Lemma zero_point_unit_core (wz sz worldLongitude d sc : Q) :
  (forall x, d * x * sc == x /\ x / sc * d == x) \/
  (forall x, d * x * sc == - x /\ x / sc * d == - x) ->
  Spec.sameAngle
    (wz + foldOnce (normalizeDeg
            (normalizeDeg (sz + d * foldOnce (normalizeDeg (worldLongitude - wz)) * sc))
            - sz) / sc * d)
    worldLongitude.
Proof.
  intros [Hsign | Hsign];
    rewrite (proj2 (Hsign _));
    rewrite (foldOnce_sameAngle (normalizeDeg (normalizeDeg _) - sz)),
      (normalizeDeg_sameAngle (normalizeDeg _)),
      (normalizeDeg_sameAngle (sz + _));
    rewrite (proj1 (Hsign _));
    rewrite foldOnce_sameAngle, normalizeDeg_sameAngle;
    apply Qeq_sameAngle; ring.
Qed.

Lemma foldOnce_range (x : Q) :
  -540 <= x -> x <= 540 -> -180 <= foldOnce x /\ foldOnce x <= 180.
Proof.
  intros Hlo Hhi. unfold foldOnce.
  destruct (Qgtb x 180) eqn:Hgt.
  - apply Qgtb_gt in Hgt.
    destruct (Qltb (x - 360) (-180)) eqn:Hlt.
    + apply Qltb_lt in Hlt. lra.
    + split; lra.
  - apply Qgtb_le in Hgt.
    destruct (Qltb x (-180)) eqn:Hlt.
    + apply Qltb_lt in Hlt. split; lra.
    + apply Qltb_ge in Hlt. split; lra.
Qed.

(** With [scale] strictly inside (-1,1) and [screenZero] in [0,360] the
    inverse recovers the scaled difference itself. *)
Lemma zero_point_zoom_core (sz d sc delta : Q) :
  d = 1 \/ d = -1 ->
  0 < Qabs sc -> Qabs sc < 1 -> 0 <= sz -> sz <= 360 ->
  -180 < delta -> delta <= 180 ->
  foldOnce (normalizeDeg (normalizeDeg (sz + d * delta * sc)) - sz) == d * delta * sc.
Proof.
  intros Hd Hsc0 Hsc1 Hsz0 Hsz1 Hlo Hhi.
  assert (Hp : -180 < d * delta * sc /\ d * delta * sc < 180).
  { destruct (Qlt_le_dec sc 0) as [Hneg | Hpos].
    - rewrite Qabs_neg in Hsc0, Hsc1 by lra. destruct Hd as [-> | ->]; split; nra.
    - rewrite Qabs_pos in Hsc0, Hsc1 by lra. destruct Hd as [-> | ->]; split; nra. }
  remember (d * delta * sc) as p eqn:Ep. clear Ep.
  destruct (normalizeDeg_range (sz + p)) as [Hn0 Hn1].
  assert (Hfix : normalizeDeg (normalizeDeg (sz + p)) == normalizeDeg (sz + p))
    by (apply normalizeDeg_fixed; assumption).
  destruct (foldOnce_range (normalizeDeg (normalizeDeg (sz + p)) - sz)) as [Hf0 Hf1];
    [lra | lra |].
  assert (Hsame : Spec.sameAngle
                    (foldOnce (normalizeDeg (normalizeDeg (sz + p)) - sz)) p).
  { rewrite foldOnce_sameAngle, !normalizeDeg_sameAngle.
    apply Qeq_sameAngle. ring. }
  destruct Hsame as [k Hk].
  assert (k = 0%Z) as -> by (apply (small_turns_zero k _ _ Hk); lra).
  change (inject_Z 0) with 0 in Hk. lra.
Qed.

Lemma round_trip_zero_point (f : ViewFrame) (worldLongitude anchorLongitude : Q) :
  0 <= worldLongitude -> worldLongitude < 360 ->
  invertibleZeroPoint f ->
  strictEq (roundTrip worldLongitude f anchorLongitude) (Finite worldLongitude).
Proof.
  intros H0 H1 (Hzero & Hdir & Hscale). unfold roundTrip.
  unfold usesZeroPoint in Hzero.
  destruct (worldZero f) as [wz |] eqn:Hwz; [| discriminate].
  destruct (screenZero f) as [sz |] eqn:Hsz; [| discriminate].
  rewrite (zeroPoint_worldToScreenAngle _ _ _ _ _ Hwz Hsz).
  destruct (numericDirection_sign _ Hdir) as (d & Hd & Hsign).
  rewrite Hd. simpl bindNumber.
  rewrite (zeroPoint_screenToWorldLongitude _ _ _ _ _ Hwz Hsz), Hd.
  set (sc := default 1 (scale f)) in *.
  assert (Hnz : ~ sc == 0).
  { intros E. destruct Hscale as [Hone | (Hpos & _)].
    - rewrite E in Hone. discriminate.
    - rewrite E in Hpos. discriminate. }
  assert (Hnzb : Qeq_bool sc 0 = false)
    by (apply not_true_iff_false; rewrite Qeq_bool_iff; exact Hnz).
  rewrite Hnzb. simpl.
  apply normalizeDeg_back; try assumption.
  destruct Hscale as [Hone | (Hpos & Hlt & Hsz0 & Hsz1)].
  - apply zero_point_unit_core.
    destruct (Qabs_one _ Hone) as [Hs | Hs], Hsign as [-> | ->].
    + left. intros x. rewrite Hs. split; [ring | field].
    + right. intros x. rewrite Hs. split; [ring | field].
    + right. intros x. rewrite Hs. split; [ring | field].
    + left. intros x. rewrite Hs. split; [ring | field].
  - simpl in Hsz0, Hsz1.
    destruct (foldOnce_normalizeDeg_range (worldLongitude - wz)) as [Hlo Hhi].
    rewrite (zero_point_zoom_core sz d sc _ Hsign Hpos Hlt Hsz0 Hsz1 Hlo Hhi).
    assert (Hback : d * foldOnce (normalizeDeg (worldLongitude - wz)) * sc / sc * d
                    == foldOnce (normalizeDeg (worldLongitude - wz)))
      by (destruct Hsign as [-> | ->]; field; exact Hnz).
    rewrite Hback, foldOnce_sameAngle, normalizeDeg_sameAngle.
    apply Qeq_sameAngle. ring.
Qed.

(** The bound on [screenZero] is needed when [scale] is not 1 or -1: with
    [scale] 2/3 and [screenZero] 1000, the longitude 100 comes back as 280. *)
Lemma round_trip_zoom_outside_range :
  strictEq (roundTrip 100 (zeroPointFrame 0 1000 None (Some (2 # 3))) 0) (Finite 280).
Proof. reflexivity. Qed.

End TransformFacts.

(** ** Version texts *)

Section VersionFacts.
Import Text Versioning Migration.

Lemma uint_string_allDigits (d : Decimal.uint) :
  allDigits (NilEmpty.string_of_uint d) = true.
Proof. induction d; simpl; auto. Qed.

Lemma N_to_uint_nonnil (n : N) : N.to_uint n <> Decimal.Nil.
Proof.
  destruct n as [| p]; simpl; [discriminate |].
  apply DecimalPos.Unsigned.to_uint_nonnil.
Qed.

Lemma numberToString_NilEmpty (n : N) :
  numberToString (Some n) = NilEmpty.string_of_uint (N.to_uint n).
Proof.
  unfold numberToString, NilZero.string_of_uint.
  pose proof (N_to_uint_nonnil n) as Hn.
  destruct (N.to_uint n); [contradiction | reflexivity ..].
Qed.

Lemma numberToString_allDigits (n : N) : allDigits (numberToString (Some n)) = true.
Proof. rewrite numberToString_NilEmpty. apply uint_string_allDigits. Qed.

Lemma numberToString_nonempty (n : N) : numberToString (Some n) <> EmptyString.
Proof.
  rewrite numberToString_NilEmpty.
  pose proof (N_to_uint_nonnil n) as Hn.
  destruct (N.to_uint n); [contradiction | discriminate ..].
Qed.

(** Reading back a printed number gives the number. *)
Lemma Number_numberToString (n : N) : Number (numberToString (Some n)) = Some n.
Proof.
  unfold Number. rewrite numberToString_NilEmpty, NilEmpty.usu.
  f_equal. apply DecimalN.Unsigned.of_to.
Qed.

Lemma isDigit_not_dot (c : ascii) : isDigit c = true -> Ascii.eqb c "." = false.
Proof.
  intros Hc. destruct (Ascii.eqb_spec c "."%char) as [-> |]; [discriminate | reflexivity].
Qed.

Lemma dot_append (s : string) : "." +:+ s = String "." s.
Proof. reflexivity. Qed.

Lemma split_digits_dot (d rest : string) :
  allDigits d = true ->
  split "." (d +:+ String "." rest) = d :: split "." rest.
Proof.
  induction d as [| c d IH]; simpl; intros Hd; [reflexivity |].
  apply andb_prop in Hd as [Hc Hd].
  rewrite (isDigit_not_dot c Hc), (IH Hd). reflexivity.
Qed.

Lemma split_digits (d : string) : allDigits d = true -> split "." d = [d].
Proof.
  induction d as [| c d IH]; simpl; intros Hd; [reflexivity |].
  apply andb_prop in Hd as [Hc Hd].
  rewrite (isDigit_not_dot c Hc), (IH Hd). reflexivity.
Qed.

Lemma split_versionString (major minor patch : N) :
  split "." (versionString major minor patch) =
  [numberToString (Some major); numberToString (Some minor);
   numberToString (Some patch)].
Proof.
  unfold versionString, versionText. rewrite !dot_append.
  rewrite split_digits_dot by apply numberToString_allDigits.
  rewrite split_digits_dot by apply numberToString_allDigits.
  rewrite split_digits by apply numberToString_allDigits.
  reflexivity.
Qed.

Lemma parts_versionString (major minor patch : N) :
  map Number (split "." (versionString major minor patch)) =
  [Some major; Some minor; Some patch].
Proof.
  rewrite split_versionString. cbn [map]. rewrite !Number_numberToString. reflexivity.
Qed.

Lemma dropDigits_dot (d rest : string) :
  allDigits d = true -> dropDigits (d +:+ String "." rest) = String "." rest.
Proof.
  induction d as [| c d IH]; simpl; intros Hd; [reflexivity |].
  apply andb_prop in Hd as [Hc Hd]. rewrite Hc. apply IH, Hd.
Qed.

Lemma dropDigits_end (d : string) : allDigits d = true -> dropDigits d = EmptyString.
Proof.
  induction d as [| c d IH]; simpl; intros Hd; [reflexivity |].
  apply andb_prop in Hd as [Hc Hd]. rewrite Hc. apply IH, Hd.
Qed.

Lemma digits1_dot (d rest : string) :
  allDigits d = true -> d <> EmptyString ->
  digits1 (d +:+ String "." rest) = Some (String "." rest).
Proof.
  destruct d as [| c d]; [contradiction |]. simpl. intros Hd _.
  apply andb_prop in Hd as [Hc Hd]. rewrite Hc.
  f_equal. apply dropDigits_dot, Hd.
Qed.

Lemma digits1_end (d : string) :
  allDigits d = true -> d <> EmptyString -> digits1 d = Some EmptyString.
Proof.
  destruct d as [| c d]; [contradiction |]. simpl. intros Hd _.
  apply andb_prop in Hd as [Hc Hd]. rewrite Hc.
  f_equal. apply dropDigits_end, Hd.
Qed.

(** The texts [getNextVersion] writes are valid versions. *)
Lemma isValidVersion_versionString (major minor patch : N) :
  isValidVersion (versionString major minor patch) = true.
Proof.
  unfold isValidVersion, versionRegex, versionString, versionText.
  rewrite !dot_append.
  rewrite digits1_dot
    by (apply numberToString_allDigits || apply numberToString_nonempty).
  rewrite digits1_dot
    by (apply numberToString_allDigits || apply numberToString_nonempty).
  rewrite digits1_end
    by (apply numberToString_allDigits || apply numberToString_nonempty).
  reflexivity.
Qed.

Lemma versionString_nonempty (major minor patch : N) :
  String.eqb (versionString major minor patch) EmptyString = false.
Proof.
  unfold versionString, versionText.
  pose proof (numberToString_nonempty major) as Hn.
  destruct (numberToString (Some major)); [contradiction | reflexivity].
Qed.

(** [compareVersions] on printed versions compares the numbers, major
    first. *)
Lemma compareVersions_versionString (a b c a' b' c' : N) :
  compareVersions (versionString a b c) (versionString a' b' c') =
  if (a <? a')%N then (-1)%Z else if (a' <? a)%N then 1%Z
  else if (b <? b')%N then (-1)%Z else if (b' <? b)%N then 1%Z
  else if (c <? c')%N then (-1)%Z else if (c' <? c)%N then 1%Z
  else 0%Z.
Proof.
  unfold compareVersions. rewrite !parts_versionString. reflexivity.
Qed.

Lemma getNextVersion_versionString (major minor patch : N) :
  getNextVersion (versionString major minor patch) =
  Some (versionString major minor (N.succ patch)).
Proof.
  unfold getNextVersion. rewrite parts_versionString. reflexivity.
Qed.

Lemma versionString_standard : versionString 1 0 0 = "1.0.0".
Proof. reflexivity. Qed.

End VersionFacts.

(** ** Migration *)

Section MigrationFacts.
Import Wheels Versioning Migration Scenarios.

Implicit Types migrations : gmap string (list MigrationFunction).

Lemma unregistered_empty : unregistered ∅.
Proof. intros key. rewrite lookup_empty. reflexivity. Qed.

Lemma neverThrows_empty : neverThrows ∅.
Proof. intros key fs current. rewrite lookup_empty. discriminate. Qed.

Lemma unregistered_neverThrows migrations :
  unregistered migrations -> neverThrows migrations.
Proof.
  intros Hun key fs current Hkey. specialize (Hun key).
  rewrite Hkey in Hun. simpl in Hun. subst fs. reflexivity.
Qed.

Lemma migrationLoop_stop migrations targetVersion fuel current currentVersion errors :
  (compareVersions currentVersion targetVersion <? 0)%Z = false ->
  migrationLoop migrations targetVersion fuel current currentVersion errors
  = Some (current, errors).
Proof. intros Hcmp. destruct fuel; simpl; rewrite Hcmp; reflexivity. Qed.

Lemma migrationLoop_step_unregistered
    migrations targetVersion fuel current currentVersion nextVersion errors :
  unregistered migrations ->
  (compareVersions currentVersion targetVersion <? 0)%Z = true ->
  getNextVersion currentVersion = Some nextVersion ->
  migrationLoop migrations targetVersion (S fuel) current currentVersion errors
  = migrationLoop migrations targetVersion fuel
      (withVersion current nextVersion) nextVersion errors.
Proof.
  intros Hun Hcmp Hnext. simpl. rewrite Hcmp, Hnext. simpl.
  specialize (Hun (currentVersion +:+ "->" +:+ nextVersion)).
  destruct (migrations !! (currentVersion +:+ "->" +:+ nextVersion)) as [[| f fs] |];
    simpl in Hun; try discriminate; reflexivity.
Qed.

Lemma migrationLoop_step_neverThrows
    migrations targetVersion fuel current currentVersion nextVersion errors :
  neverThrows migrations ->
  (compareVersions currentVersion targetVersion <? 0)%Z = true ->
  getNextVersion currentVersion = Some nextVersion ->
  exists current',
    migrationLoop migrations targetVersion (S fuel) current currentVersion errors
    = migrationLoop migrations targetVersion fuel
        (withVersion current' nextVersion) nextVersion errors.
Proof.
  intros Hnt Hcmp Hnext. simpl. rewrite Hcmp, Hnext. simpl.
  destruct (migrations !! (currentVersion +:+ "->" +:+ nextVersion))
    as [[| f fs] |] eqn:Hkey; try (exists current; reflexivity).
  specialize (Hnt _ _ current Hkey).
  destruct (applyMigrations (f :: fs) current) as [current' [t |]];
    simpl in Hnt; [discriminate |].
  exists current'. reflexivity.
Qed.

Lemma compare_patch_lt (major minor patch patch' : N) :
  (patch < patch')%N ->
  compareVersions (versionString major minor patch) (versionString major minor patch')
  = (-1)%Z.
Proof.
  intros Hlt. rewrite compareVersions_versionString, !N.ltb_irrefl.
  apply N.ltb_lt in Hlt. rewrite Hlt. reflexivity.
Qed.

Lemma compare_same (major minor patch : N) :
  compareVersions (versionString major minor patch) (versionString major minor patch)
  = 0%Z.
Proof. rewrite compareVersions_versionString, !N.ltb_irrefl. reflexivity. Qed.

Lemma compare_lower_line (a b c a' b' c' : N) :
  (a < a')%N \/ (a = a' /\ (b < b')%N) ->
  compareVersions (versionString a b c) (versionString a' b' c') = (-1)%Z.
Proof.
  intros [Hlt | [-> Hlt]]; rewrite compareVersions_versionString.
  - apply N.ltb_lt in Hlt. rewrite Hlt. reflexivity.
  - rewrite N.ltb_irrefl. apply N.ltb_lt in Hlt. rewrite Hlt. reflexivity.
Qed.

(** With nothing registered, the loop walks the patch number up to the
    target's and stops there. *)
Lemma migrationLoop_reaches migrations (major minor : N) :
  unregistered migrations ->
  forall (n fuel : nat) (patch : N) current errors,
    (n <= fuel)%nat ->
    migrationLoop migrations (versionString major minor (patch + N.of_nat n)) fuel
      current (versionString major minor patch) errors
    = Some (match n with
            | O => current
            | S _ => withVersion current (versionString major minor (patch + N.of_nat n))
            end, errors).
Proof.
  intros Hun. induction n as [| n IH]; intros fuel patch current errors Hfuel.
  - rewrite N.add_0_r. apply migrationLoop_stop.
    rewrite compare_same. reflexivity.
  - destruct fuel as [| fuel]; [lia |].
    rewrite (migrationLoop_step_unregistered _ _ _ _ _
               (versionString major minor (N.succ patch))).
    + replace (patch + N.of_nat (S n))%N with (N.succ patch + N.of_nat n)%N by lia.
      rewrite IH by lia. destruct n; [| reflexivity].
      rewrite N.add_0_r. reflexivity.
    + exact Hun.
    + rewrite compare_patch_lt by lia. reflexivity.
    + apply getNextVersion_versionString.
Qed.

(** When the target lies on a later major or minor line, the loop
    condition holds after every round. *)
Lemma migrationLoop_diverges migrations (a b a' b' c' : N) :
  neverThrows migrations ->
  (a < a')%N \/ (a = a' /\ (b < b')%N) ->
  forall (fuel : nat) (c : N) current errors,
    migrationLoop migrations (versionString a' b' c') fuel
      current (versionString a b c) errors = None.
Proof.
  intros Hnt Hline. induction fuel as [| fuel IH]; intros c current errors.
  - simpl. rewrite (compare_lower_line _ _ _ _ _ _ Hline). reflexivity.
  - destruct (migrationLoop_step_neverThrows migrations (versionString a' b' c') fuel
                current (versionString a b c) (versionString a b (N.succ c)) errors)
      as [current' ->].
    + exact Hnt.
    + rewrite (compare_lower_line _ _ _ _ _ _ Hline). reflexivity.
    + apply getNextVersion_versionString.
    + apply IH.
Qed.

Lemma migrate_enters_loop migrations fuel definition (a b c a' b' c' : N) :
  version definition = Some (versionString a b c) ->
  compareVersions (versionString a b c) (versionString a' b' c') = (-1)%Z ->
  migrateWheelDefinition migrations fuel definition (versionString a' b' c') =
  match migrationLoop migrations (versionString a' b' c') fuel definition
          (versionString a b c) [] with
  | None => None
  | Some (current, errors) =>
      Some (if (0 <? List.length errors)%nat then failure errors else succeeded current)
  end.
Proof.
  intros Hversion Hcmp. unfold migrateWheelDefinition.
  rewrite Hversion, versionString_nonempty, !isValidVersion_versionString, Hcmp.
  reflexivity.
Qed.

Lemma migrate_diverges migrations fuel definition (a b c a' b' c' : N) :
  neverThrows migrations ->
  version definition = Some (versionString a b c) ->
  (a < a')%N \/ (a = a' /\ (b < b')%N) ->
  migrateWheelDefinition migrations fuel definition (versionString a' b' c') = None.
Proof.
  intros Hnt Hversion Hline.
  rewrite (migrate_enters_loop _ _ _ a b c) by
    (assumption || apply compare_lower_line; assumption).
  rewrite migrationLoop_diverges by assumption. reflexivity.
Qed.

(** C10, at the failing input.  Migrating the built-in definition, at
    version 1.0.0, to 2.0.0 or to 1.1.0 with nothing registered has not
    returned after any number of rounds of the loop. *)
Theorem migrate_to_later_line_never_returns (fuel : nat) :
  migrateWheelDefinition ∅ fuel standardNatal "2.0.0" = None /\
  migrateWheelDefinition ∅ fuel standardNatal "1.1.0" = None.
Proof.
  split.
  - apply (migrate_diverges ∅ fuel standardNatal 1 0 0 2 0 0);
      [apply neverThrows_empty | reflexivity | left; reflexivity].
  - apply (migrate_diverges ∅ fuel standardNatal 1 0 0 1 1 0);
      [apply neverThrows_empty | reflexivity | right; split; reflexivity].
Qed.

(** C8, counterexample.  With no migration registered, migrating from
    1.0.0 to 1.0.1 succeeds. *)
Lemma unregistered_gap_counterexample :
  isValidVersion "1.0.0" = true /\ isValidVersion "1.0.1" = true /\
  (∅ : gmap string (list MigrationFunction)) !! "1.0.0->1.0.1" = None /\
  migrateWheelDefinition ∅ 1 standardNatal "1.0.1"
  = Some (succeeded (withVersion standardNatal "1.0.1")) /\
  (forall messages,
      migrateWheelDefinition ∅ 1 standardNatal "1.0.1" <> Some (failure messages)).
Proof.
  split; [reflexivity |]. split; [reflexivity |]. split; [reflexivity |].
  split; [reflexivity |]. intros messages. vm_compute. discriminate.
Qed.

Lemma migrate_backwards migrations fuel definition sourceVersion targetVersion :
  version definition = Some sourceVersion ->
  isValidVersion sourceVersion = true ->
  isValidVersion targetVersion = true ->
  (0 < compareVersions sourceVersion targetVersion)%Z ->
  migrateWheelDefinition migrations fuel definition targetVersion
  = Some (failure ["Cannot migrate backwards from " +:+ sourceVersion +:+ " to "
                     +:+ targetVersion]).
Proof.
  intros Hversion Hsource Htarget Hcmp. unfold migrateWheelDefinition.
  rewrite Hversion, Hsource, Htarget. simpl.
  destruct (String.eqb_spec sourceVersion EmptyString) as [-> | _];
    [discriminate |].
  destruct (Z.eqb_spec (compareVersions sourceVersion targetVersion) 0) as [E | _];
    [lia |].
  apply Z.ltb_lt in Hcmp. rewrite Hcmp. reflexivity.
Qed.

Lemma migrate_unregistered_gap migrations definition (major minor patch : N)
    (n fuel : nat) :
  unregistered migrations ->
  version definition = Some (versionString major minor patch) ->
  (n < fuel)%nat ->
  migrateWheelDefinition migrations fuel definition
    (versionString major minor (patch + N.of_nat (S n)))
  = Some (succeeded
            (withVersion definition (versionString major minor (patch + N.of_nat (S n))))).
Proof.
  intros Hun Hversion Hfuel.
  rewrite (migrate_enters_loop _ _ _ major minor patch) by
    (assumption || apply compare_patch_lt; lia).
  rewrite (migrationLoop_reaches _ _ _ Hun (S n)) by lia. reflexivity.
Qed.

End MigrationFacts.

(** ** Lock rules and frame keys *)

Section LockFacts.
Import Orientation Scenarios.

Lemma lockRuleApplies_kind_mismatch rule elementType elementId :
  subjectKind (subject rule) <> elementType ->
  lockRuleApplies rule elementType elementId = false.
Proof.
  intros Hkind. unfold lockRuleApplies.
  destruct (subjectKind (subject rule)), elementType; try reflexivity;
    contradiction.
Qed.

Lemma indicesInclude_1_10 (elementId : ElementId) :
  indicesInclude [1; 10] elementId = true <->
  exists n, elementId = IdNumber n /\ (n == 1 \/ n == 10).
Proof.
  unfold indicesInclude. simpl. rewrite orb_false_r, orb_true_iff.
  destruct elementId as [n | s]; simpl.
  - rewrite !Qeq_bool_iff. split.
    + intros [H | H]; exists n; split; auto; [left | right]; symmetry; exact H.
    + intros (m & [= <-] & [H | H]); [left | right]; symmetry; exact H.
  - split; [intros [H | H]; discriminate | intros (m & H & _); discriminate].
Qed.

(** C5, counterexample.  A house rule with the empty list [indices = []]
    applies to no house: not to house 1. *)
Lemma empty_list_counterexample :
  lockRuleApplies (houseRule (Some [])) kindHouse (IdNumber 1) = false.
Proof. reflexivity. Qed.

(** C5, amended.  A rule whose index or type list is omitted applies to
    every element of its subject's kind, so a house rule without [indices]
    applies to each house 1 to 12; a rule whose list is empty applies to no
    element; a house rule with [indices = [1, 10]] applies to houses 1 and
    10 only; and a rule never applies to an element of another kind. *)
Theorem lock_rule_wildcard :
  (forall rule elementId,
      subject rule = LockSubjectHouse None \/ subject rule = LockSubjectSign None \/
      subject rule = LockSubjectAngle None ->
      lockRuleApplies rule (subjectKind (subject rule)) elementId = true) /\
  (forall house : Z, (1 <= house <= 12)%Z ->
      lockRuleApplies (houseRule None) kindHouse (IdNumber (inject_Z house)) = true) /\
  (forall rule elementType elementId,
      subject rule = LockSubjectHouse (Some []) \/
      subject rule = LockSubjectSign (Some []) \/
      subject rule = LockSubjectAngle (Some []) \/
      subject rule = LockSubjectObject [] ->
      lockRuleApplies rule elementType elementId = false) /\
  (forall rule elementId,
      subject rule = LockSubjectHouse (Some [1; 10]) ->
      lockRuleApplies rule kindHouse elementId = true <->
      exists n, elementId = IdNumber n /\ (n == 1 \/ n == 10)) /\
  (forall rule elementType elementId,
      subjectKind (subject rule) <> elementType ->
      lockRuleApplies rule elementType elementId = false).
Proof.
  split; [| split; [| split; [| split]]].
  - intros rule elementId [H | [H | H]]; unfold lockRuleApplies; rewrite H;
      reflexivity.
  - intros house _. reflexivity.
  - intros rule elementType elementId [H | [H | [H | H]]];
      unfold lockRuleApplies; rewrite H; simpl; destruct elementType; reflexivity.
  - intros rule elementId H. unfold lockRuleApplies. rewrite H. simpl.
    apply indicesInclude_1_10.
  - apply lockRuleApplies_kind_mismatch.
Qed.

Lemma lock_rule_wildcard_witness :
  lockRuleApplies (houseRule None) kindHouse (IdNumber 7) = true /\
  lockRuleApplies (signRule None) kindSign (IdNumber 11) = true /\
  lockRuleApplies (angleRule None) kindAngle (IdString "MC") = true /\
  lockRuleApplies (objectRule []) kindObject (IdNumber 0) = false /\
  lockRuleApplies (houseRule (Some [1; 10])) kindHouse (IdNumber 10) = true /\
  lockRuleApplies (houseRule None) kindSign (IdNumber 7) = false.
Proof.
  destruct lock_rule_wildcard as (Hall & _ & Hnone & Hsome & Hkind).
  split; [| split; [| split; [| split; [| split]]]].
  - apply (Hall (houseRule None)). left. reflexivity.
  - apply (Hall (signRule None)). right. left. reflexivity.
  - apply (Hall (angleRule None)). right. right. reflexivity.
  - apply Hnone. right. right. right. reflexivity.
  - apply (Hsome (houseRule (Some [1; 10])) (IdNumber 10) eq_refl).
    exists 10. split; [reflexivity | right; reflexivity].
  - apply Hkind. discriminate.
Defined.

(** C4, at the failing input.  Whatever text numbers print as, two frames
    of the worldZero/screenZero model that differ in [worldZero] only have
    the same key (with whole numbers printed in decimal, the text
    [houses|angle:ASC|180|-1]), and send the longitude 185 to different
    screen angles (0 and 5). *)
Theorem frame_key_ignores_zero_point (numberToString : Q -> string) :
  viewFrameToKey numberToString frameAt95 = viewFrameToKey numberToString frameAt100 /\
  viewFrameToKey KeyText.printNumber frameAt95 = "houses|angle:ASC|180|-1" /\
  strictEq (worldToScreenAngle 185 frameAt95 0) (Finite 0) /\
  strictEq (worldToScreenAngle 185 frameAt100 0) (Finite 5) /\
  ~ sameValue (worldToScreenAngle 185 frameAt95 0) (worldToScreenAngle 185 frameAt100 0).
Proof.
  split; [reflexivity |]. split; [reflexivity |].
  split; [reflexivity |]. split; [reflexivity |].
  vm_compute. discriminate.
Qed.

(** *** The key of a frame of the anchor-based model *)

Lemma chars_app (s t : string) :
  list_ascii_of_string (s +:+ t) = list_ascii_of_string s ++ list_ascii_of_string t.
Proof.
  induction s as [| c s IH]; [reflexivity |].
  change (String c s +:+ t) with (String c (s +:+ t)). simpl. rewrite IH. reflexivity.
Qed.

Lemma chars_inj (s t : string) :
  list_ascii_of_string s = list_ascii_of_string t -> s = t.
Proof.
  intros Hst. rewrite <- (string_of_list_ascii_of_string s),
    <- (string_of_list_ascii_of_string t), Hst. reflexivity.
Qed.

Lemma lacks_chars (sep : ascii) (s : string) :
  Text.lacks sep s = true -> Forall (fun c => c <> sep) (list_ascii_of_string s).
Proof.
  induction s as [| c s IH]; simpl; intros Hs; [constructor |].
  apply andb_prop in Hs as [Hc Hs]. constructor; [| apply IH, Hs].
  intros ->. rewrite Ascii.eqb_refl in Hc. discriminate.
Qed.

Lemma noBar_chars (s : string) :
  Text.noBar s = true -> Forall (fun c => c <> "|"%char) (list_ascii_of_string s).
Proof. apply lacks_chars. Qed.

(** Two texts without the separator, each followed by it, are equal when
    the whole texts are. *)
Lemma separator_split (sep : ascii) (u v x y : list ascii) :
  Forall (fun c => c <> sep) u -> Forall (fun c => c <> sep) v ->
  u ++ sep :: x = v ++ sep :: y -> u = v /\ x = y.
Proof.
  intros Hu. revert v. induction Hu as [| c u Hc Hu IH]; intros v Hv Heq.
  - destruct Hv as [| d v Hd Hv]; simpl in Heq.
    + injection Heq as ->. split; reflexivity.
    + injection Heq as Heq _. congruence.
  - destruct Hv as [| d v Hd Hv]; simpl in Heq.
    + injection Heq as Heq _. congruence.
    + injection Heq as -> Heq. destruct (IH v Hv Heq) as [-> ->].
      split; reflexivity.
Qed.

Lemma bar_split (u v x y : list ascii) :
  Forall (fun c => c <> "|"%char) u -> Forall (fun c => c <> "|"%char) v ->
  u ++ "|"%char :: x = v ++ "|"%char :: y -> u = v.
Proof. intros Hu Hv Heq. apply (separator_split _ _ _ _ _ Hu Hv Heq). Qed.

(** *** A faithful printing of numbers exists *)

Lemma lacks_app (x : ascii) (s t : string) :
  Text.lacks x (s +:+ t) = Text.lacks x s && Text.lacks x t.
Proof.
  induction s as [| c s IH]; [reflexivity |].
  change (String c s +:+ t) with (String c (s +:+ t)). simpl.
  rewrite IH, andb_assoc. reflexivity.
Qed.

Lemma lacks_cons (x c : ascii) (s : string) :
  Text.lacks x (String c s) = negb (Ascii.eqb c x) && Text.lacks x s.
Proof. reflexivity. Qed.

Lemma lacks_allDigits (x : ascii) (s : string) :
  Text.isDigit x = false -> Text.allDigits s = true -> Text.lacks x s = true.
Proof.
  intros Hx. induction s as [| c s IH]; simpl; intros Hs; [reflexivity |].
  apply andb_prop in Hs as [Hc Hs]. rewrite (IH Hs), andb_true_r.
  destruct (Ascii.eqb_spec c x) as [-> |]; [congruence | reflexivity].
Qed.

Lemma string_of_uint_nonnil (d : Decimal.uint) :
  d <> Decimal.Nil -> NilZero.string_of_uint d = NilEmpty.string_of_uint d.
Proof. destruct d; [contradiction | reflexivity ..]. Qed.

Lemma showZ_lacks (x : ascii) (z : Z) :
  Text.isDigit x = false -> x <> "-"%char -> Text.lacks x (KeyText.showZ z) = true.
Proof.
  intros Hx Hminus. unfold KeyText.showZ.
  destruct z as [| p | p]; cbn [Z.to_int NilZero.string_of_int].
  - apply lacks_allDigits; [exact Hx | reflexivity].
  - rewrite string_of_uint_nonnil by apply DecimalPos.Unsigned.to_uint_nonnil.
    apply lacks_allDigits; [exact Hx | apply uint_string_allDigits].
  - rewrite string_of_uint_nonnil by apply DecimalPos.Unsigned.to_uint_nonnil.
    rewrite lacks_cons.
    destruct (Ascii.eqb_spec "-"%char x) as [<- |]; [contradiction |].
    apply lacks_allDigits; [exact Hx | apply uint_string_allDigits].
Qed.

Lemma showZ_inj (a b : Z) : KeyText.showZ a = KeyText.showZ b -> a = b.
Proof.
  unfold KeyText.showZ. intros Hab.
  assert (Hparse : forall z,
             NilZero.int_of_string (NilZero.string_of_int (Z.to_int z))
             = Some (Z.to_int z)).
  { intros z. apply NilZero.isi; destruct z as [| p | p]; simpl; try discriminate;
      intros [= H]; exact (DecimalPos.Unsigned.to_uint_nonnil p H). }
  apply DecimalZ.to_int_inj.
  pose proof (Hparse a) as Ha. rewrite Hab, Hparse in Ha. congruence.
Qed.

Lemma showZ_nonempty (z : Z) : KeyText.showZ z <> EmptyString.
Proof.
  unfold KeyText.showZ. destruct z as [| p | p]; simpl; try discriminate.
  rewrite string_of_uint_nonnil by apply DecimalPos.Unsigned.to_uint_nonnil.
  pose proof (DecimalPos.Unsigned.to_uint_nonnil p) as Hp.
  destruct (Pos.to_uint p); [contradiction | discriminate ..].
Qed.

Lemma showZ_not_fraction (a b c : Z) :
  KeyText.showZ a <> KeyText.showZ b +:+ "/" +:+ KeyText.showZ c.
Proof.
  intros Heq.
  assert (Hlacks : Text.lacks "/" (KeyText.showZ a) = true)
    by (apply showZ_lacks; [reflexivity | discriminate]).
  rewrite Heq, lacks_app in Hlacks.
  apply andb_prop in Hlacks as [_ Hlacks]. discriminate.
Qed.

Lemma printNumber_faithful : KeyText.printsFaithfully KeyText.printNumber.
Proof.
  split; [| split].
  - intros a b. unfold KeyText.printNumber. intros Hab.
    apply Qred_eq_iff.
    destruct (Qred a) as [n d], (Qred b) as [n' d']. cbn [Qden Qnum] in Hab.
    destruct (Pos.eqb_spec d 1) as [Hd | Hd];
      destruct (Pos.eqb_spec d' 1) as [Hd' | Hd']; subst.
    + apply showZ_inj in Hab as ->. reflexivity.
    + destruct (showZ_not_fraction _ _ _ Hab).
    + symmetry in Hab. destruct (showZ_not_fraction _ _ _ Hab).
    + apply (f_equal list_ascii_of_string) in Hab.
      rewrite !chars_app in Hab. cbn [list_ascii_of_string app] in Hab.
      apply separator_split in Hab as [Hn Hd''];
        try (apply lacks_chars, showZ_lacks; [reflexivity | discriminate]).
      apply chars_inj, showZ_inj in Hn, Hd''. congruence.
  - intros a. unfold KeyText.printNumber, Text.noBar.
    destruct (Qden (Qred a) =? 1)%positive; rewrite ?lacks_app;
      rewrite ?showZ_lacks by (reflexivity || discriminate); reflexivity.
  - intros a. unfold KeyText.printNumber.
    destruct (Qden (Qred a) =? 1)%positive; [apply showZ_nonempty |].
    pose proof (showZ_nonempty (Qnum (Qred a))) as Hn.
    destruct (KeyText.showZ (Qnum (Qred a))); [contradiction | discriminate].
Qed.

Lemma legacy_key_shape (numberToString : Q -> string) (f : ViewFrame) (d : Direction) :
  KeyText.printsFaithfully numberToString ->
  direction f = Some d -> KeyText.legacyDirection (Some d) = true ->
  exists front,
    viewFrameToKey numberToString f
    = front +:+ "|" +:+ numberToString (screenAngleDeg f) +:+ "|"
        +:+ directionString d
        +:+ KeyText.flagsTail (truthy (radialFlip f)) (truthy (angularFlip f)).
Proof.
  intros (_ & _ & Hne) Hd Hlegacy. unfold viewFrameToKey. rewrite Hd.
  pose proof (Hne (screenAngleDeg f)) as HS.
  exists (referenceFrameString (referenceFrame f) +:+ "|"
          +:+ anchorKind (anchor f) +:+ ":" +:+ anchorTargetToKey numberToString (anchor f)).
  destruct (numberToString (screenAngleDeg f)) as [| c S]; [contradiction |].
  destruct (referenceFrame f), (anchor f), d; try discriminate;
    destruct (truthy (radialFlip f)), (truthy (angularFlip f));
    reflexivity.
Qed.

Lemma key_tail_inj (front1 front2 S1 S2 : string) (d1 d2 : Direction)
    (rf1 af1 rf2 af2 : bool) :
  Text.noBar S1 = true -> Text.noBar S2 = true ->
  KeyText.legacyDirection (Some d1) = true -> KeyText.legacyDirection (Some d2) = true ->
  front1 +:+ "|" +:+ S1 +:+ "|" +:+ directionString d1 +:+ KeyText.flagsTail rf1 af1
  = front2 +:+ "|" +:+ S2 +:+ "|" +:+ directionString d2 +:+ KeyText.flagsTail rf2 af2 ->
  S1 = S2 /\ d1 = d2 /\ af1 = af2.
Proof.
  intros HS1 HS2 Hd1 Hd2 Hkey.
  apply (f_equal list_ascii_of_string) in Hkey.
  rewrite !chars_app in Hkey.
  apply (f_equal (@rev ascii)) in Hkey.
  rewrite !rev_app_distr in Hkey.
  apply noBar_chars, Forall_rev in HS1. apply noBar_chars, Forall_rev in HS2.
  assert (Hsame : forall x y,
             (rev (list_ascii_of_string S1) ++ ["|"%char]) ++ x
             = (rev (list_ascii_of_string S2) ++ ["|"%char]) ++ y -> S1 = S2).
  { intros x y H. rewrite <- !app_assoc in H. simpl in H.
    apply (bar_split _ _ _ _ HS1 HS2) in H.
    apply chars_inj. rewrite <- (rev_involutive (list_ascii_of_string S1)), H.
    apply rev_involutive. }
  destruct d1; try discriminate; destruct d2; try discriminate;
    destruct rf1, af1, rf2, af2; simpl in Hkey; simplify_eq;
    (split; [eapply Hsame; eassumption | split; reflexivity]).
Qed.

(** Two frames of the anchor-based model, with [direction] ['cw'] or
    ['ccw'], that have the same key send every longitude to the same screen
    angle, as long as numbers print faithfully. *)
Lemma legacy_key_faithful (numberToString : Q -> string) (f1 f2 : ViewFrame) :
  KeyText.printsFaithfully numberToString ->
  usesZeroPoint f1 = false -> usesZeroPoint f2 = false ->
  KeyText.legacyDirection (direction f1) = true ->
  KeyText.legacyDirection (direction f2) = true ->
  viewFrameToKey numberToString f1 = viewFrameToKey numberToString f2 ->
  forall worldLongitude anchorLongitude,
    strictEq (worldToScreenAngle worldLongitude f1 anchorLongitude)
      (worldToScreenAngle worldLongitude f2 anchorLongitude).
Proof.
  intros Hprint Hz1 Hz2 Hd1 Hd2 Hkey worldLongitude anchorLongitude.
  destruct (direction f1) as [d1 |] eqn:Hdir1; [| discriminate].
  destruct (direction f2) as [d2 |] eqn:Hdir2; [| discriminate].
  destruct (legacy_key_shape numberToString f1 d1 Hprint Hdir1 Hd1) as [front1 Hk1].
  destruct (legacy_key_shape numberToString f2 d2 Hprint Hdir2 Hd2) as [front2 Hk2].
  rewrite Hk1, Hk2 in Hkey.
  destruct Hprint as (Hinj & Hbar & _).
  apply key_tail_inj in Hkey as (HS & -> & Haf); try assumption || apply Hbar.
  apply Hinj in HS.
  rewrite (legacy_worldToScreenAngle _ _ _ Hz1), (legacy_worldToScreenAngle _ _ _ Hz2).
  rewrite Hdir1, Hdir2, Haf. simpl strictEq. apply normalizeDeg_Qeq_proper. cbv zeta.
  destruct (isCcw (Some d2)), (truthy (angularFlip f2)); rewrite HS; reflexivity.
Qed.

Lemma legacy_key_faithful_instance :
  strictEq (worldToScreenAngle 185 legacyFrame 95)
    (worldToScreenAngle 185 legacyFrameHalf360 95).
Proof.
  apply (legacy_key_faithful KeyText.printNumber);
    [apply printNumber_faithful | reflexivity ..].
Qed.

(** Outside these conditions the key can collide within the anchor-based
    model too: a bar inside an object's name is read as a separator. *)
Lemma legacy_key_collision_with_bar :
  viewFrameToKey KeyText.printNumber barFrame = "ecliptic|object:a|90|1" /\
  viewFrameToKey KeyText.printNumber plainFrame = "ecliptic|object:a|90|1" /\
  strictEq (worldToScreenAngle 0 barFrame 0) (Finite 1) /\
  strictEq (worldToScreenAngle 0 plainFrame 0) (Finite 90).
Proof. repeat split; reflexivity. Qed.

End LockFacts.

(** ** The registry *)

Section RegistryFacts.
Import Wheels Registry Scenarios.

Implicit Types userDefinitions : gmap string WheelDefinitionWithPresets.

Lemma lowerChar_idempotent (c : ascii) : lowerChar (lowerChar c) = lowerChar c.
Proof. destruct c as [[] [] [] [] [] [] [] []]; reflexivity. Qed.

Lemma isSpace_lowerChar (c : ascii) : isSpace (lowerChar c) = isSpace c.
Proof. destruct c as [[] [] [] [] [] [] [] []]; reflexivity. Qed.

Lemma toLowerCase_idempotent (s : string) : toLowerCase (toLowerCase s) = toLowerCase s.
Proof.
  induction s as [| c s IH]; simpl; [reflexivity |].
  rewrite lowerChar_idempotent, IH. reflexivity.
Qed.

Lemma toLowerCase_app (s t : string) :
  toLowerCase (s +:+ t) = toLowerCase s +:+ toLowerCase t.
Proof.
  induction s as [| c s IH]; simpl; [reflexivity |].
  change (String c s +:+ t) with (String c (s +:+ t)). simpl.
  rewrite IH. reflexivity.
Qed.

Lemma allSpaces_toLowerCase (s : string) : allSpaces (toLowerCase s) = allSpaces s.
Proof.
  induction s as [| c s IH]; simpl; [reflexivity |].
  rewrite isSpace_lowerChar, IH. reflexivity.
Qed.

Lemma replaceRuns_skip (ws rest : string) :
  allSpaces ws = true -> replaceRuns true (ws +:+ rest) = replaceRuns true rest.
Proof.
  induction ws as [| c ws IH]; intros Hws; [reflexivity |].
  simpl in Hws. apply andb_prop in Hws as [Hc Hws].
  change (String c ws +:+ rest) with (String c (ws +:+ rest)). simpl.
  rewrite Hc. apply IH, Hws.
Qed.

(** A run of blanks is replaced like one blank. *)
Lemma replaceRuns_run (inRun : bool) (ws rest : string) :
  allSpaces ws = true -> ws <> EmptyString ->
  replaceRuns inRun (ws +:+ rest) = replaceRuns inRun (" " +:+ rest).
Proof.
  destruct ws as [| c ws]; [contradiction |]. intros Hws _.
  simpl in Hws. apply andb_prop in Hws as [Hc Hws].
  change (String c ws +:+ rest) with (String c (ws +:+ rest)).
  change (" " +:+ rest) with (String " " rest). simpl.
  rewrite Hc, (replaceRuns_skip _ _ Hws). reflexivity.
Qed.

Lemma replaceRuns_prefix (prefix x y : string) :
  (forall inRun, replaceRuns inRun x = replaceRuns inRun y) ->
  forall inRun, replaceRuns inRun (prefix +:+ x) = replaceRuns inRun (prefix +:+ y).
Proof.
  intros Hxy. induction prefix as [| c prefix IH]; intros inRun; [apply Hxy |].
  change (String c prefix +:+ ?z) with (String c (prefix +:+ z)). simpl.
  rewrite !IH. reflexivity.
Qed.

Lemma normalizeWheelName_case (name : string) :
  normalizeWheelName (toLowerCase name) = normalizeWheelName name.
Proof. unfold normalizeWheelName. rewrite toLowerCase_idempotent. reflexivity. Qed.

Lemma normalizeWheelName_blanks (prefix ws rest : string) :
  allSpaces ws = true -> ws <> EmptyString ->
  normalizeWheelName (prefix +:+ ws +:+ rest)
  = normalizeWheelName (prefix +:+ " " +:+ rest).
Proof.
  intros Hws Hne. unfold normalizeWheelName. rewrite !toLowerCase_app.
  apply replaceRuns_prefix. intros inRun.
  change (toLowerCase " ") with " ".
  apply replaceRuns_run.
  - rewrite allSpaces_toLowerCase. exact Hws.
  - destruct ws; [contradiction | discriminate].
Qed.

Lemma getWheelDefinition_registered userDefinitions definition lookupName :
  normalizeWheelName lookupName = normalizeWheelName (name definition) ->
  getWheelDefinition (registerWheelDefinition definition userDefinitions) lookupName
  = Some definition.
Proof.
  intros Hkey. unfold getWheelDefinition, registerWheelDefinition.
  rewrite Hkey, lookup_insert_eq. reflexivity.
Qed.

Lemma getWheelDefinition_same_key userDefinitions (name1 name2 : string) :
  normalizeWheelName name1 = normalizeWheelName name2 ->
  getWheelDefinition userDefinitions name1 = getWheelDefinition userDefinitions name2.
Proof. unfold getWheelDefinition. intros ->. reflexivity. Qed.

(** C9.  Lookup goes by the lower-cased name with every run of blanks
    turned into one hyphen, so names that differ in the case of their
    letters, or in the blanks that stand between two words, find the same
    definition; and a user's registration is found before the built-in: once
    a definition named "Standard Natal Wheel" is registered, looking up
    "standard natal wheel" returns it, where the empty registry returns the
    built-in. *)
Theorem user_definition_takes_precedence :
  (forall userDefinitions definition lookupName,
      normalizeWheelName lookupName = normalizeWheelName (name definition) ->
      getWheelDefinition (registerWheelDefinition definition userDefinitions) lookupName
      = Some definition) /\
  (forall userDefinitions definition,
      name definition = "Standard Natal Wheel" ->
      getWheelDefinition (registerWheelDefinition definition userDefinitions)
        "standard natal wheel" = Some definition) /\
  getWheelDefinition ∅ "standard natal wheel" = Some standardNatal /\
  (forall userDefinitions name1 name2,
      toLowerCase name1 = toLowerCase name2 ->
      getWheelDefinition userDefinitions name1 = getWheelDefinition userDefinitions name2) /\
  (forall userDefinitions prefix ws rest,
      allSpaces ws = true -> ws <> EmptyString ->
      getWheelDefinition userDefinitions (prefix +:+ ws +:+ rest)
      = getWheelDefinition userDefinitions (prefix +:+ " " +:+ rest)).
Proof.
  split; [| split; [| split; [| split]]].
  - apply getWheelDefinition_registered.
  - intros userDefinitions definition Hname.
    apply getWheelDefinition_registered. rewrite Hname. reflexivity.
  - reflexivity.
  - intros userDefinitions name1 name2 Hcase.
    apply getWheelDefinition_same_key. unfold normalizeWheelName.
    rewrite Hcase. reflexivity.
  - intros userDefinitions prefix ws rest Hws Hne.
    apply getWheelDefinition_same_key, normalizeWheelName_blanks; assumption.
Qed.

Lemma user_definition_takes_precedence_witness :
  getWheelDefinition (registerWheelDefinition userStandardNatal ∅)
    "standard natal wheel" = Some userStandardNatal /\
  userStandardNatal <> standardNatal.
Proof.
  destruct user_definition_takes_precedence as (_ & Hscenario & _).
  split; [apply Hscenario; reflexivity | discriminate].
Defined.

End RegistryFacts.

(** ** The loader *)

Section LoaderFacts.
Import Json Loader Scenarios.

Lemma get_object (v : value) (key : string) :
  get v key <> VUndefined -> toBoolean v = true /\ isObject v = true.
Proof. destruct v; simpl; intros H; try contradiction; split; reflexivity. Qed.

Lemma string_nonempty (s : string) : s <> EmptyString -> String.eqb s EmptyString = false.
Proof. intros Hs. destruct s; [contradiction | reflexivity]. Qed.

Lemma append_cons (c : ascii) (s t : string) :
  String c s +:+ t = String c (s +:+ t).
Proof. reflexivity. Qed.

Lemma append_assoc (s t u : string) : (s +:+ t) +:+ u = s +:+ t +:+ u.
Proof.
  induction s as [| c s IH]; [reflexivity |].
  rewrite !append_cons, IH. reflexivity.
Qed.

Lemma radiusError_field (index : nat) :
  field (radiusError index) = Some ("rings[" +:+ natToString index +:+ "].radius").
Proof.
  unfold radiusError. cbn [field]. f_equal. rewrite !append_assoc. reflexivity.
Qed.

Lemma includesString_In (list : list string) (s : string) :
  In s list -> includesString list (VString s) = true.
Proof.
  intros Hin. simpl. apply existsb_exists. exists s.
  split; [exact Hin | apply String.eqb_refl].
Qed.

(** A ring that reaches the comparison of its radii with
    [radiusInner >= radiusOuter] is rejected there. *)
Lemma validateRingDefinition_radius (ring : value) (index : nat)
    (radiusInner radiusOuter : Q) :
  reachesRadiusCheck ring radiusInner radiusOuter ->
  radiusOuter <= radiusInner ->
  validateRingDefinition ring index = Thrown (radiusError index).
Proof.
  intros ((slug & Hslug & Hslug') & (type & Htype & Htype') &
          (label & Hlabel & Hlabel') & (orderIndex & Horder) &
          Hinner & Hi0 & Hi1 & Houter & Ho0 & Ho1) Hge.
  destruct (get_object ring "slug") as [Htruthy Hobject];
    [rewrite Hslug; discriminate |].
  unfold validateRingDefinition.
  rewrite Htruthy, Hobject, Hslug, Htype, Hlabel, Horder, Hinner, Houter.
  rewrite (includesString_In _ _ Htype').
  simpl. rewrite (string_nonempty _ Hslug'), (string_nonempty _ Hlabel'). simpl.
  apply Qltb_ge in Hi0, Ho0. rewrite Hi0, Ho0.
  apply Qgtb_le in Hi1, Ho1. rewrite Hi1, Ho1. simpl.
  unfold Qgeb. apply Qle_bool_iff in Hge. rewrite Hge. reflexivity.
Qed.

Lemma validateRingsFrom_first_throw (rings : list value) (index i : nat)
    (ring : value) (e : WheelDefinitionValidationError) :
  (forall j r, (j < i)%nat -> rings !! j = Some r ->
               validateRingDefinition r (index + j) = Returned tt) ->
  rings !! i = Some ring ->
  validateRingDefinition ring (index + i) = Thrown e ->
  validateRingsFrom index rings = Thrown e.
Proof.
  revert index i. induction rings as [| first rest IH]; intros index i Hbefore Hi Hthrow.
  - discriminate.
  - destruct i as [| i]; simpl in Hi |- *.
    + injection Hi as ->. rewrite Nat.add_0_r in Hthrow. rewrite Hthrow. reflexivity.
    + rewrite <- (Nat.add_0_r index) at 1.
      rewrite (Hbefore 0%nat first) by (lia || reflexivity). simpl.
      apply (IH (S index) i).
      * intros j r Hj Hr. replace (S index + j)%nat with (index + S j)%nat by lia.
        apply Hbefore; [lia | exact Hr].
      * exact Hi.
      * replace (S index + i)%nat with (index + S i)%nat by lia. exact Hthrow.
Qed.

Lemma validateWheelDefinition_radius (definition : value) (wheelName : string)
    (rings : list value) (i : nat) (ring : value) (radiusInner radiusOuter : Q) :
  get definition "name" = VString wheelName -> wheelName <> EmptyString ->
  get definition "rings" = VArray rings ->
  (forall j r, (j < i)%nat -> rings !! j = Some r ->
               validateRingDefinition r j = Returned tt) ->
  rings !! i = Some ring ->
  reachesRadiusCheck ring radiusInner radiusOuter ->
  radiusOuter <= radiusInner ->
  validateWheelDefinition definition = Thrown (radiusError i).
Proof.
  intros Hname Hname' Hrings Hbefore Hi Hreach Hge.
  destruct (get_object definition "name") as [Htruthy Hobject];
    [rewrite Hname; discriminate |].
  unfold validateWheelDefinition.
  rewrite Htruthy, Hobject, Hname, Hrings. simpl.
  rewrite (string_nonempty _ Hname'). simpl.
  destruct rings as [| first rest]; [discriminate |]. simpl Nat.eqb. simpl throwIf.
  cbn [andThen].
  rewrite (validateRingsFrom_first_throw (first :: rest) 0 i ring (radiusError i)).
  - reflexivity.
  - exact Hbefore.
  - exact Hi.
  - apply (validateRingDefinition_radius _ _ radiusInner radiusOuter); assumption.
Qed.

(** C7, counterexample.  Loading a wheel whose only ring has
    [radiusInner = 0.9] and [radiusOuter = 0.5] throws the validation
    error; no value is returned. *)
Lemma validation_failure_counterexample :
  loadWheelDefinitionFromJSON (parseAs badWheel) "bad-wheel"
  = Thrown (radiusError 0) /\
  field (radiusError 0) = Some "rings[0].radius" /\
  (forall v, loadWheelDefinitionFromJSON (parseAs badWheel) "bad-wheel" <> Returned v).
Proof.
  split; [reflexivity |]. split; [reflexivity |].
  intros v. vm_compute. discriminate.
Qed.

(** C7, amended.  A validation failure is thrown out of
    [loadWheelDefinitionFromJSON] as a [WheelDefinitionValidationError]; it
    is not returned as a value, and whatever the function returns has
    passed validation.  In particular, when the first ring to fail is an
    otherwise well-formed ring with [radiusInner >= radiusOuter], the error
    thrown names the field [rings[i].radius] of that ring. *)
Theorem validation_failure_is_thrown (JSON_parse : string -> parseOutcome)
    (json : string) (definition : value) :
  JSON_parse json = Parsed definition ->
  (forall e, validateWheelDefinition definition = Thrown e ->
             loadWheelDefinitionFromJSON JSON_parse json = Thrown e) /\
  (forall v, loadWheelDefinitionFromJSON JSON_parse json = Returned v ->
             v = definition /\ validateWheelDefinition definition = Returned tt) /\
  (forall wheelName rings i ring radiusInner radiusOuter,
      get definition "name" = VString wheelName -> wheelName <> EmptyString ->
      get definition "rings" = VArray rings ->
      (forall j r, (j < i)%nat -> rings !! j = Some r ->
                   validateRingDefinition r j = Returned tt) ->
      rings !! i = Some ring ->
      reachesRadiusCheck ring radiusInner radiusOuter ->
      radiusOuter <= radiusInner ->
      loadWheelDefinitionFromJSON JSON_parse json = Thrown (radiusError i) /\
      field (radiusError i) = Some ("rings[" +:+ natToString i +:+ "].radius")).
Proof.
  intros Hparse. unfold loadWheelDefinitionFromJSON. rewrite Hparse.
  split; [| split].
  - intros e He. rewrite He. reflexivity.
  - intros v. destruct (validateWheelDefinition definition) as [[] | e]; simpl.
    + intros [= <-]. split; reflexivity.
    + discriminate.
  - intros wheelName rings i ring radiusInner radiusOuter
      Hname Hname' Hrings Hbefore Hi Hreach Hge.
    rewrite (validateWheelDefinition_radius definition wheelName rings i ring
               radiusInner radiusOuter) by assumption.
    split; [reflexivity | apply radiusError_field].
Qed.

Lemma validation_failure_is_thrown_witness :
  loadWheelDefinitionFromJSON (parseAs badWheel) "bad-wheel" = Thrown (radiusError 0).
Proof.
  destruct (validation_failure_is_thrown (parseAs badWheel) "bad-wheel" badWheel eq_refl)
    as (_ & _ & Hradius).
  apply (Hradius "Bad Wheel" [badRing] 0%nat badRing (9 # 10) (5 # 10)).
  - reflexivity.
  - discriminate.
  - reflexivity.
  - intros j r Hj. lia.
  - reflexivity.
  - unfold reachesRadiusCheck.
    split; [exists "ring_signs"; split; [reflexivity | discriminate] |].
    split; [exists "signs"; split; [reflexivity | left; reflexivity] |].
    split; [exists "Zodiac Signs"; split; [reflexivity | discriminate] |].
    split; [exists 0; reflexivity |].
    split; [reflexivity |]. split; [discriminate |]. split; [discriminate |].
    split; [reflexivity |]. split; discriminate.
  - discriminate.
Defined.

End LoaderFacts.

(** ** The transforms, frame by frame *)

Section FrameFacts.
Import Orientation Scenarios Frames.

Lemma legacy_forward_angle (f : ViewFrame) (w a : Q) :
  usesZeroPoint f = false ->
  exists q, worldToScreenAngle w f a = Finite q /\
    q == normalizeDeg (screenAngleDeg f + (if reversed f then - (w - a) else w - a)).
Proof.
  intros Hf. rewrite legacy_worldToScreenAngle by exact Hf.
  eexists. split; [reflexivity |]. cbv zeta.
  apply normalizeDeg_sameAngle_proper. unfold reversed.
  destruct (isCcw (direction f)), (truthy (angularFlip f)); simpl;
    pose proof (wrapOffset_sameAngle (w - a)) as [k Hk];
    first [ solve [exists k; lra]
          | solve [exists (- k)%Z; rewrite inject_Z_opp; lra] ].
Qed.

Lemma legacy_inverse_angle (f : ViewFrame) (s a : Q) :
  usesZeroPoint f = false ->
  exists q, screenToWorldLongitude s f a = Finite q /\
    q == normalizeDeg (a + (if reversed f then - (s - screenAngleDeg f)
                            else s - screenAngleDeg f)).
Proof.
  intros Hf. rewrite legacy_screenToWorldLongitude by exact Hf.
  eexists. split; [reflexivity |]. cbv zeta.
  apply normalizeDeg_sameAngle_proper. unfold reversed.
  pose proof (wrapOffset_sameAngle (normalizeDeg s - screenAngleDeg f)) as [k Hk].
  pose proof (normalizeDeg_sameAngle s) as [j Hj].
  destruct (isCcw (direction f)), (truthy (angularFlip f)); simpl;
    first [ solve [exists (k + j)%Z; rewrite inject_Z_plus; lra]
          | solve [exists (- (k + j))%Z; rewrite inject_Z_opp, inject_Z_plus; lra] ].
Qed.



(** X7.  Within the anchor-based model the key is faithful: two frames
    with [direction] ['cw'] or ['ccw'] that have the same key are sent to
    the same angle by [worldToScreenAngle] and by [screenToWorldLongitude],
    as long as the built-in prints distinct numbers as distinct texts, none
    of them empty or holding a bar. *)
Theorem frame_key_faithful_in_anchor_model (numberToString : Q -> string)
    (f1 f2 : ViewFrame) :
  KeyText.printsFaithfully numberToString ->
  usesZeroPoint f1 = false -> usesZeroPoint f2 = false ->
  KeyText.legacyDirection (direction f1) = true ->
  KeyText.legacyDirection (direction f2) = true ->
  viewFrameToKey numberToString f1 = viewFrameToKey numberToString f2 ->
  forall x anchorLongitude,
    strictEq (worldToScreenAngle x f1 anchorLongitude)
      (worldToScreenAngle x f2 anchorLongitude) /\
    strictEq (screenToWorldLongitude x f1 anchorLongitude)
      (screenToWorldLongitude x f2 anchorLongitude).
Proof.
  intros Hprint Hz1 Hz2 Hd1 Hd2 Hkey x anchorLongitude.
  destruct (direction f1) as [d1 |] eqn:Hdir1; [| discriminate].
  destruct (direction f2) as [d2 |] eqn:Hdir2; [| discriminate].
  destruct (legacy_key_shape numberToString f1 d1 Hprint Hdir1 Hd1) as [front1 Hk1].
  destruct (legacy_key_shape numberToString f2 d2 Hprint Hdir2 Hd2) as [front2 Hk2].
  rewrite Hk1, Hk2 in Hkey.
  destruct Hprint as (Hinj & Hbar & _).
  apply key_tail_inj in Hkey as (HS & -> & Haf); try assumption || apply Hbar.
  apply Hinj in HS.
  assert (Hrev : reversed f1 = reversed f2)
    by (unfold reversed; rewrite Hdir1, Hdir2, Haf; reflexivity).
  destruct (legacy_forward_angle f1 x anchorLongitude Hz1) as (q1 & -> & H1).
  destruct (legacy_forward_angle f2 x anchorLongitude Hz2) as (q2 & -> & H2).
  destruct (legacy_inverse_angle f1 x anchorLongitude Hz1) as (r1 & -> & R1).
  destruct (legacy_inverse_angle f2 x anchorLongitude Hz2) as (r2 & -> & R2).
  simpl. rewrite H1, H2, R1, R2, Hrev.
  split; apply normalizeDeg_Qeq_proper; destruct (reversed f2); rewrite HS; reflexivity.
Qed.

Lemma frame_key_faithful_in_anchor_model_witness :
  strictEq (worldToScreenAngle 185 legacyFrame 95)
    (worldToScreenAngle 185 legacyFrameHalf360 95) /\
  strictEq (screenToWorldLongitude 185 legacyFrame 95)
    (screenToWorldLongitude 185 legacyFrameHalf360 95).
Proof.
  apply (frame_key_faithful_in_anchor_model KeyText.printNumber);
    [apply printNumber_faithful | reflexivity ..].
Defined.

End FrameFacts.

(** ** Rounding to the nearest double *)

Section RoundingFacts.
Import Doubles.

Lemma pow2_pos (e : Z) : 0 < 2 ^ e.
Proof. apply Qpower_0_lt. reflexivity. Qed.

Lemma pow2_inverse (e : Z) : 2 ^ e * 2 ^ (- e) == 1.
Proof.
  rewrite <- Qpower_plus by discriminate.
  rewrite Z.add_opp_diag_r. reflexivity.
Qed.

Lemma pow2_whole (e : Z) : (0 <= e)%Z -> 2 ^ e == inject_Z (2 ^ e).
Proof. intros He. rewrite (Zpower_Qpower 2 e He). reflexivity. Qed.

Lemma pow2_le (a b : Z) : (a <= b)%Z -> 2 ^ a <= 2 ^ b.
Proof. intros Hab. apply Qpower_le_compat_l; [exact Hab | discriminate]. Qed.

Lemma nearestEven_floor (t : Q) :
  (Qfloor t <= nearestEven t <= Qfloor t + 1)%Z.
Proof.
  unfold nearestEven.
  destruct (Qcompare (t - inject_Z (Qfloor t)) (1 # 2)); [destruct (Z.even _) | |]; lia.
Qed.

(** The nearest whole number is at most one half away. *)
Lemma nearestEven_close (t : Q) :
  - (1 # 2) <= inject_Z (nearestEven t) - t /\ inject_Z (nearestEven t) - t <= 1 # 2.
Proof.
  pose proof (Qfloor_le t) as Hlo. pose proof (Qlt_floor t) as Hhi.
  rewrite inject_Z_plus in Hhi. change (inject_Z 1) with 1 in Hhi.
  unfold nearestEven.
  destruct (Qcompare (t - inject_Z (Qfloor t)) (1 # 2)) eqn:Hc.
  - apply Qeq_alt in Hc.
    destruct (Z.even (Qfloor t)); rewrite ?inject_Z_plus;
      change (inject_Z 1) with 1; split; lra.
  - apply Qlt_alt in Hc. split; lra.
  - apply Qgt_alt in Hc. rewrite inject_Z_plus. change (inject_Z 1) with 1. split; lra.
Qed.

(** Rounding to a whole number does not cross a whole number. *)
Lemma nearestEven_ge (n : Z) (t : Q) : inject_Z n <= t -> (n <= nearestEven t)%Z.
Proof.
  intros Hn. apply Qfloor_resp_le in Hn. rewrite Qfloor_Z in Hn.
  pose proof (nearestEven_floor t). lia.
Qed.

Lemma nearestEven_le (n : Z) (t : Q) : t <= inject_Z n -> (nearestEven t <= n)%Z.
Proof.
  intros Hn.
  destruct (Z_le_gt_dec (nearestEven t) n) as [Hle | Hgt]; [exact Hle | exfalso].
  pose proof (nearestEven_floor t) as Hf.
  pose proof (Qfloor_le t) as Hlo.
  pose proof (Qfloor_resp_le _ _ Hn) as Hfl. rewrite Qfloor_Z in Hfl.
  assert (Heq : Qfloor t = n) by lia.
  assert (Ht : t == inject_Z n) by (rewrite Heq in Hlo; lra).
  unfold nearestEven in Hgt. rewrite Heq in Hgt.
  assert (Hc : Qcompare (t - inject_Z n) (1 # 2) = Lt).
  { rewrite <- Qlt_alt. lra. }
  rewrite Hc in Hgt. lia.
Qed.

(** The logarithm of a positive rational of at most [2^b]. *)
Lemma ilog2_le (q : Q) (b : Z) :
  (0 <= b)%Z -> 0 < q -> q <= inject_Z (2 ^ b) -> (ilog2 q <= b)%Z.
Proof.
  intros Hb Hpos Hq.
  assert (Hk : (Z.log2 (Qnum q) - Z.log2 (Zpos (Qden q)) <= b)%Z).
  { destruct q as [n d]. unfold Qle, Qlt in *. cbn [Qnum Qden inject_Z] in *.
    rewrite Z.mul_1_r in *. rewrite Z.mul_0_l in Hpos.
    assert (Hn : (0 < n)%Z) by exact Hpos.
    pose proof (Z.log2_spec (Zpos d) eq_refl) as [_ Hd].
    pose proof (Z.log2_nonneg (Zpos d)) as Hd0.
    assert (Hlt : (n < 2 ^ (b + Z.log2 (Zpos d) + 1))%Z).
    { rewrite Z.pow_add_r, Z.pow_add_r by lia. rewrite Z.pow_1_r.
      rewrite Z.pow_succ_r in Hd by lia.
      assert (0 < 2 ^ b)%Z by (apply Z.pow_pos_nonneg; lia).
      nia. }
    apply Z.log2_lt_pow2 in Hlt; lia. }
  unfold ilog2. destruct (Qle_bool _ _); lia.
Qed.


Lemma exponentOf_le (q : Q) (b : Z) :
  (0 <= b <= 52)%Z -> ~ q == 0 -> Qabs q <= inject_Z (2 ^ b) ->
  (exponentOf q <= b - 52)%Z.
Proof.
  intros Hb Hq Habs. unfold exponentOf.
  assert (Hpos : 0 < Qabs q).
  { destruct (Qlt_le_dec q 0) as [Hneg | Hnonneg].
    - rewrite Qabs_neg by lra. lra.
    - rewrite Qabs_pos by exact Hnonneg.
      destruct (Qlt_le_dec 0 q) as [H | H]; [exact H |].
      exfalso. apply Hq. lra. }
  pose proof (ilog2_le (Qabs q) b (proj1 Hb) Hpos Habs). lia.
Qed.

(** Rounding a rational of magnitude at most [2^b], [b <= 52]: the result
    is finite, at most half a unit of the last place away, and on the same
    side of every whole number. *)
Lemma round_bounded (q : Q) (b : Z) :
  (0 <= b <= 52)%Z -> Qabs q <= inject_Z (2 ^ b) ->
  exists r, round q = Value r /\
    (- ((1 # 2) * 2 ^ (b - 52)) <= r - q /\ r - q <= (1 # 2) * 2 ^ (b - 52)) /\
    (forall n : Z, inject_Z n <= q -> inject_Z n <= r) /\
    (forall n : Z, q <= inject_Z n -> r <= inject_Z n).
Proof.
  intros Hb Habs. unfold round.
  destruct (Qeq_bool q 0) eqn:Hzero.
  - apply Qeq_bool_iff in Hzero. exists 0. split; [reflexivity |].
    pose proof (pow2_pos (b - 52)) as Hp.
    split; [split; lra |]. split; intros n Hn; lra.
  - assert (Hq : ~ q == 0).
    { intros E. apply Qeq_bool_iff in E. congruence. }
    pose proof (exponentOf_le q b Hb Hq Habs) as He.
    set (e := exponentOf q) in *.
    set (m := nearestEven (q / 2 ^ e)).
    pose proof (pow2_pos e) as HP.
    pose proof (pow2_le e (b - 52) He) as HPle.
    pose proof (pow2_inverse e) as Hinv.
    pose proof (pow2_whole (- e) ltac:(lia)) as Hwhole.
    pose proof (pow2_pos (- e)) as HP'.
    assert (Hdiv : q / 2 ^ e == q * 2 ^ (- e)).
    { rewrite Qpower_opp. reflexivity. }
    pose proof (nearestEven_close (q / 2 ^ e)) as [Hc1 Hc2]. fold m in Hc1, Hc2.
    assert (Hq' : q == (q / 2 ^ e) * 2 ^ e) by (field; lra).
    assert (Hlow : forall n : Z, inject_Z n <= q -> inject_Z n <= inject_Z m * 2 ^ e).
    { intros n Hn.
      assert (Hm : (n * 2 ^ (- e) <= m)%Z).
      { apply nearestEven_ge. rewrite inject_Z_mult, <- Hwhole, Hdiv.
        apply Qmult_le_compat_r; [exact Hn | lra]. }
      rewrite Zle_Qle, inject_Z_mult, <- Hwhole in Hm.
      apply Qle_trans with (inject_Z n * 2 ^ (- e) * 2 ^ e).
      - rewrite <- Qmult_assoc, (Qmult_comm (2 ^ (- e))), Hinv. lra.
      - apply Qmult_le_compat_r; [exact Hm | lra]. }
    assert (Hhigh : forall n : Z, q <= inject_Z n -> inject_Z m * 2 ^ e <= inject_Z n).
    { intros n Hn.
      assert (Hm : (m <= n * 2 ^ (- e))%Z).
      { apply nearestEven_le. rewrite inject_Z_mult, <- Hwhole, Hdiv.
        apply Qmult_le_compat_r; [exact Hn | lra]. }
      rewrite Zle_Qle, inject_Z_mult, <- Hwhole in Hm.
      apply Qle_trans with (inject_Z n * 2 ^ (- e) * 2 ^ e).
      - apply Qmult_le_compat_r; [exact Hm | lra].
      - rewrite <- Qmult_assoc, (Qmult_comm (2 ^ (- e))), Hinv. lra. }
    apply Qabs_Qle_condition in Habs as [Hlo Hhi].
    assert (Hfinite : Qle_bool (2 ^ 1024) (Qabs (inject_Z m * 2 ^ e)) = false).
    { apply not_true_iff_false. rewrite Qle_bool_iff. intros Hbig.
      assert (Hr : Qabs (inject_Z m * 2 ^ e) <= inject_Z (2 ^ b)).
      { apply Qabs_Qle_condition. split.
        - rewrite <- inject_Z_opp. apply Hlow. rewrite inject_Z_opp. exact Hlo.
        - apply Hhigh. exact Hhi. }
      assert (H52 : inject_Z (2 ^ b) <= inject_Z (2 ^ 52)).
      { rewrite <- Zle_Qle. apply Z.pow_le_mono_r; lia. }
      assert (Hlt : inject_Z (2 ^ 52) < 2 ^ 1024) by reflexivity.
      lra. }
    rewrite Hfinite. exists (Qred (inject_Z m * 2 ^ e)). split; [reflexivity |].
    split; [rewrite Qred_correct | split; intros n Hn; rewrite Qred_correct; auto].
    assert (Herr : inject_Z m * 2 ^ e - q == (inject_Z m - q / 2 ^ e) * 2 ^ e)
      by (field; lra).
    rewrite Herr.
    remember (inject_Z m - q / 2 ^ e) as d. remember (2 ^ e) as P.
    remember (2 ^ (b - 52)) as B. split; nra.
Qed.


(** Rounding an angle of magnitude at most 2^15. *)
Lemma round_angle (q : Q) :
  -32768 <= q -> q <= 32768 ->
  exists r, round q = Value r /\
    (- halfUlp <= r - q /\ r - q <= halfUlp) /\
    (forall n : Z, inject_Z n <= q -> inject_Z n <= r) /\
    (forall n : Z, q <= inject_Z n -> r <= inject_Z n).
Proof.
  intros Hlo Hhi.
  destruct (round_bounded q 15) as (r & Hr & Herr & Hsides); [lia | |].
  - apply Qabs_Qle_condition. change (inject_Z (2 ^ 15)) with 32768. split; lra.
  - exists r. split; [exact Hr |]. split; [| exact Hsides].
    assert (E : (1 # 2) * 2 ^ (15 - 52) == halfUlp) by reflexivity.
    rewrite E in Herr. exact Herr.
Qed.

Lemma add_values (a b : Q) :
  -32768 <= a + b -> a + b <= 32768 ->
  exists r, add (Value a) (Value b) = Value r /\
    (- halfUlp <= r - (a + b) /\ r - (a + b) <= halfUlp) /\
    (forall n : Z, inject_Z n <= a + b -> inject_Z n <= r) /\
    (forall n : Z, a + b <= inject_Z n -> r <= inject_Z n).
Proof. intros Hlo Hhi. apply round_angle; assumption. Qed.

Lemma sub_values (a b : Q) :
  -32768 <= a - b -> a - b <= 32768 ->
  exists r, sub (Value a) (Value b) = Value r /\
    (- halfUlp <= r - (a - b) /\ r - (a - b) <= halfUlp) /\
    (forall n : Z, inject_Z n <= a - b -> inject_Z n <= r) /\
    (forall n : Z, a - b <= inject_Z n -> r <= inject_Z n).
Proof. intros Hlo Hhi. apply (round_angle (a + - b)); assumption. Qed.

Lemma mul_values (a b : Q) :
  -32768 <= a * b -> a * b <= 32768 ->
  exists r, mul (Value a) (Value b) = Value r /\
    (- halfUlp <= r - a * b /\ r - a * b <= halfUlp) /\
    (forall n : Z, inject_Z n <= a * b -> inject_Z n <= r) /\
    (forall n : Z, a * b <= inject_Z n -> r <= inject_Z n).
Proof. intros Hlo Hhi. apply round_angle; assumption. Qed.

Lemma div_values (a b : Q) :
  ~ b == 0 -> -32768 <= a / b -> a / b <= 32768 ->
  exists r, div (Value a) (Value b) = Value r /\
    (- halfUlp <= r - a / b /\ r - a / b <= halfUlp) /\
    (forall n : Z, inject_Z n <= a / b -> inject_Z n <= r) /\
    (forall n : Z, a / b <= inject_Z n -> r <= inject_Z n).
Proof.
  intros Hb Hlo Hhi. simpl.
  assert (E : Qeq_bool b 0 = false).
  { apply not_true_iff_false. rewrite Qeq_bool_iff. exact Hb. }
  rewrite E. apply round_angle; assumption.
Qed.

(** [normalizeDeg] of any finite double is a double between 0 and 360,
    both included, at most one rounding away from the angle itself up to
    whole turns. *)
Lemma normalizeDeg_value (x : Q) :
  exists r, normalizeDeg (Value x) = Value r /\
    (0 <= r /\ r <= 360) /\
    exists k : Z,
      - halfUlp <= r - x - 360 * inject_Z k /\ r - x - 360 * inject_Z k <= halfUlp.
Proof.
  unfold normalizeDeg. simpl rem.
  pose proof (rem_sameAngle x) as [k Hk].
  assert (Hrange : -360 < JsNumber.rem x 360 /\ JsNumber.rem x 360 < 360).
  { destruct (Qlt_le_dec x 0) as [Hx | Hx].
    - destruct (rem_nonpos x) as [H1 H2]; [lra |]. split; lra.
    - destruct (rem_nonneg x Hx) as [H1 H2]. split; lra. }
  simpl lt.
  destruct (Qltb (Qred (JsNumber.rem x 360)) 0) eqn:Hneg.
  - apply Qltb_lt in Hneg. rewrite Qred_correct in Hneg.
    destruct (add_values (Qred (JsNumber.rem x 360)) 360)
      as (r & -> & [He1 He2] & Hlow & Hhigh);
      try (rewrite Qred_correct; lra).
    rewrite Qred_correct in He1, He2.
    exists r. split; [reflexivity |]. split.
    + split.
      * apply (Hlow 0%Z). rewrite Qred_correct. change (inject_Z 0) with 0. lra.
      * apply (Hhigh 360%Z). rewrite Qred_correct. change (inject_Z 360) with 360. lra.
    + exists (k + 1)%Z. rewrite inject_Z_plus. change (inject_Z 1) with 1.
      unfold halfUlp in *. split; lra.
  - apply Qltb_ge in Hneg. rewrite Qred_correct in Hneg.
    exists (Qred (JsNumber.rem x 360)). split; [reflexivity |].
    rewrite Qred_correct. split; [split; lra |].
    exists k. rewrite Qred_correct. unfold halfUlp. split; lra.
Qed.


Lemma whileAbove_stop (fuel : nat) (x : Q) :
  x <= 180 -> whileAbove fuel (Value x) = Some (Value x).
Proof.
  intros Hx. apply Qgtb_le in Hx.
  destruct fuel; simpl; unfold Qgtb in Hx; rewrite Hx; reflexivity.
Qed.

Lemma whileBelow_stop (fuel : nat) (x : Q) :
  -180 <= x -> whileBelow fuel (Value x) = Some (Value x).
Proof.
  intros Hx. apply Qltb_ge in Hx.
  destruct fuel; simpl; rewrite Hx; reflexivity.
Qed.

(** [while (offset > 180) offset -= 360] on an angle of at most
    [180 + 359 n]: the loop leaves within [n] rounds, each round one
    rounding away from a whole turn. *)
Lemma whileAbove_value (n : nat) :
  forall (fuel : nat) (x : Q),
    (n <= fuel)%nat -> -32768 <= x -> x <= 32768 ->
    x <= 180 + 359 * inject_Z (Z.of_nat n) ->
    exists (y : Q) (m : Z),
      whileAbove fuel (Value x) = Some (Value y) /\
      (0 <= m <= Z.of_nat n)%Z /\
      (- (inject_Z m * halfUlp) <= y - x + 360 * inject_Z m /\
       y - x + 360 * inject_Z m <= inject_Z m * halfUlp) /\
      y <= 180 /\
      (-180 <= y \/ (y = x /\ m = 0%Z)).
Proof.
  induction n as [| n IH]; intros fuel x Hfuel Hlo Hhi Hn.
  - change (inject_Z (Z.of_nat 0)) with 0 in Hn.
    exists x, 0%Z. rewrite whileAbove_stop by lra.
    change (inject_Z 0) with 0. repeat split; try lra; try lia. right. auto.
  - destruct (Qlt_le_dec 180 x) as [Hgt | Hle].
    + destruct fuel as [| fuel]; [lia |].
      simpl. pose proof Hgt as Hb. apply Qgtb_gt in Hb. unfold Qgtb in Hb. rewrite Hb.
      destruct (sub_values x 360) as (x' & Hx' & [He1 He2] & Hlow & Hhigh);
        [lra | lra |].
      unfold sub, neg in Hx'. simpl in Hx' |- *. rewrite Hx'.
      rewrite Nat2Z.inj_succ, <- Z.add_1_r, inject_Z_plus in Hn.
      change (inject_Z 1) with 1 in Hn.
      assert (Hx'lo : -180 <= x').
      { apply (Hlow (-180)%Z). change (inject_Z (-180)) with (-180). lra. }
      unfold halfUlp in He1, He2.
      destruct (IH fuel x') as (y & m & Hrun & Hm & [Hy1 Hy2] & Hy & Hside);
        [lia | lra | lra | lra |].
      exists y, (m + 1)%Z. split; [exact Hrun |].
      split; [lia |]. rewrite inject_Z_plus. change (inject_Z 1) with 1.
      unfold halfUlp in *.
      split; [split; lra |]. split; [exact Hy |].
      left. destruct Hside as [H | [-> _]]; lra.
    + exists x, 0%Z. rewrite whileAbove_stop by lra.
      change (inject_Z 0) with 0. repeat split; try lra; try lia. right. auto.
Qed.

Lemma whileBelow_value (n : nat) :
  forall (fuel : nat) (x : Q),
    (n <= fuel)%nat -> -32768 <= x -> x <= 32768 ->
    - 180 - 359 * inject_Z (Z.of_nat n) <= x ->
    exists (y : Q) (m : Z),
      whileBelow fuel (Value x) = Some (Value y) /\
      (0 <= m <= Z.of_nat n)%Z /\
      (- (inject_Z m * halfUlp) <= y - x - 360 * inject_Z m /\
       y - x - 360 * inject_Z m <= inject_Z m * halfUlp) /\
      -180 <= y /\
      (y <= 180 \/ (y = x /\ m = 0%Z)).
Proof.
  induction n as [| n IH]; intros fuel x Hfuel Hlo Hhi Hn.
  - change (inject_Z (Z.of_nat 0)) with 0 in Hn.
    exists x, 0%Z. rewrite whileBelow_stop by lra.
    change (inject_Z 0) with 0. repeat split; try lra; try lia. right. auto.
  - destruct (Qlt_le_dec x (-180)) as [Hlt | Hge].
    + destruct fuel as [| fuel]; [lia |].
      simpl. pose proof Hlt as Hb. apply Qltb_lt in Hb. rewrite Hb.
      destruct (add_values x 360) as (x' & Hx' & [He1 He2] & Hlow & Hhigh);
        [lra | lra |].
      simpl in Hx'. rewrite Hx'.
      rewrite Nat2Z.inj_succ, <- Z.add_1_r, inject_Z_plus in Hn.
      change (inject_Z 1) with 1 in Hn.
      assert (Hx'hi : x' <= 180).
      { apply (Hhigh 180%Z). change (inject_Z 180) with 180. lra. }
      unfold halfUlp in He1, He2.
      destruct (IH fuel x') as (y & m & Hrun & Hm & [Hy1 Hy2] & Hy & Hside);
        [lia | lra | lra | lra |].
      exists y, (m + 1)%Z. split; [exact Hrun |].
      split; [lia |]. rewrite inject_Z_plus. change (inject_Z 1) with 1.
      unfold halfUlp in *.
      split; [split; lra |]. split; [exact Hy |].
      left. destruct Hside as [H | [-> _]]; lra.
    + exists x, 0%Z. rewrite whileBelow_stop by lra.
      change (inject_Z 0) with 0. repeat split; try lra; try lia. right. auto.
Qed.

(** The two loops one after the other, on an angle of magnitude at most
    20000: they leave within 56 rounds with an angle between -180 and
    180. *)
Lemma wrap_value (fuel : nat) (x : Q) :
  (56 <= fuel)%nat -> -20000 <= x -> x <= 20000 ->
  exists (y1 y : Q) (m : Z),
    whileAbove fuel (Value x) = Some (Value y1) /\
    whileBelow fuel (Value y1) = Some (Value y) /\
    (-180 <= y /\ y <= 180) /\
    (- (56 * halfUlp) <= y - x - 360 * inject_Z m /\
     y - x - 360 * inject_Z m <= 56 * halfUlp).
Proof.
  intros Hfuel Hlo Hhi.
  destruct (whileAbove_value 56 fuel x) as (y1 & m1 & Hrun1 & Hm1 & [He1 He2] & Hy1 & Hside1);
    [lia | lra | lra | change (inject_Z (Z.of_nat 56)) with 56; lra |].
  assert (Hm1q : 0 <= inject_Z m1 /\ inject_Z m1 <= 56).
  { change 0 with (inject_Z 0). change 56 with (inject_Z 56).
    rewrite <- !Zle_Qle. lia. }
  unfold halfUlp in *.
  destruct Hside1 as [Hy1lo | [-> ->]].
  - exists y1, y1, (- m1)%Z. split; [exact Hrun1 |].
    split; [apply whileBelow_stop; exact Hy1lo |].
    split; [split; assumption |]. rewrite inject_Z_opp. split; lra.
  - destruct (whileBelow_value 56 fuel x)
      as (y & m2 & Hrun2 & Hm2 & [Hf1 Hf2] & Hy & Hside2);
      [lia | lra | lra | change (inject_Z (Z.of_nat 56)) with 56; lra |].
    assert (Hm2q : 0 <= inject_Z m2 /\ inject_Z m2 <= 56).
    { change 0 with (inject_Z 0). change 56 with (inject_Z 56).
      rewrite <- !Zle_Qle. lia. }
    exists x, y, m2. split; [exact Hrun1 |]. split; [exact Hrun2 |].
    split; [split; [exact Hy |] |].
    + destruct Hside2 as [H | [-> _]]; lra.
    + unfold halfUlp in *. split; lra.
Qed.

(** The two [if]s of the worldZero/screenZero model: at most one of them
    fires, with one rounding. *)
Lemma foldOnce_value (x : Q) :
  -32000 <= x -> x <= 32000 ->
  exists (y : Q) (j : Z),
    foldOnce (Value x) = Value y /\
    (- halfUlp <= y - x - 360 * inject_Z j /\ y - x - 360 * inject_Z j <= halfUlp) /\
    (-540 <= x -> x <= 540 -> -180 <= y /\ y <= 180) /\
    (forall B : Z, (180 <= B)%Z -> - inject_Z B <= x -> x <= inject_Z B ->
       - inject_Z B <= y /\ y <= inject_Z B).
Proof.
  intros Hlo Hhi. unfold foldOnce, gt.
  change (lt (Value 180) (Value x)) with (Qltb 180 x).
  destruct (Qltb 180 x) eqn:Hgt.
  - apply Qltb_lt in Hgt.
    destruct (sub_values x 360) as (y & -> & [He1 He2] & Hlow & Hhigh); [lra | lra |].
    assert (Hy : -180 <= y).
    { apply (Hlow (-180)%Z). change (inject_Z (-180)) with (-180). lra. }
    change (lt (Value y) (Value (-180))) with (Qltb y (-180)).
    apply Qltb_ge in Hy. rewrite Hy. apply Qltb_ge in Hy.
    exists y, (-1)%Z. split; [reflexivity |]. change (inject_Z (-1)) with (-1).
    unfold halfUlp in *. split; [split; lra |]. split.
    + intros H1 H2. split; [exact Hy |].
      apply (Hhigh 180%Z). change (inject_Z 180) with 180. lra.
    + intros B HB H1 H2.
      assert (HBq : 180 <= inject_Z B)
        by (change 180 with (inject_Z 180); rewrite <- Zle_Qle; exact HB).
      split; [lra |].
      apply Qle_trans with (inject_Z (B - 360)).
      * apply Hhigh. unfold Z.sub. rewrite inject_Z_plus.
        change (inject_Z (- (360))) with (-360). lra.
      * unfold Z.sub. rewrite inject_Z_plus. change (inject_Z (- (360))) with (-360). lra.
  - apply Qltb_ge in Hgt.
    change (lt (Value x) (Value (-180))) with (Qltb x (-180)).
    destruct (Qltb x (-180)) eqn:Hlt.
    + apply Qltb_lt in Hlt.
      destruct (add_values x 360) as (y & -> & [He1 He2] & Hlow & Hhigh); [lra | lra |].
      assert (Hy : y <= 180).
      { apply (Hhigh 180%Z). change (inject_Z 180) with 180. lra. }
      exists y, 1%Z. split; [reflexivity |]. change (inject_Z 1) with 1.
      unfold halfUlp in *. split; [split; lra |]. split.
      * intros H1 H2. split; [| exact Hy].
        apply (Hlow (-180)%Z). change (inject_Z (-180)) with (-180). lra.
      * intros B HB H1 H2.
        assert (HBq : 180 <= inject_Z B)
          by (change 180 with (inject_Z 180); rewrite <- Zle_Qle; exact HB).
        split; [| lra].
        apply Qle_trans with (inject_Z (- B + 360)).
        -- rewrite inject_Z_plus, inject_Z_opp. change (inject_Z 360) with 360. lra.
        -- apply Hlow. rewrite inject_Z_plus, inject_Z_opp.
           change (inject_Z 360) with 360. lra.
    + apply Qltb_ge in Hlt.
      exists x, 0%Z. split; [reflexivity |]. change (inject_Z 0) with 0.
      unfold halfUlp. split; [split; lra |]. split.
      * intros _ _. split; lra.
      * intros B _ H1 H2. split; lra.
Qed.

End RoundingFacts.

(** ** The model against the machine *)

Section MachineFacts.
Import PrimFloat Doubles Machine.

(** The arithmetic of [Doubles] is that of the machine's doubles, on a
    sample: decimal constants, sums, differences, products and quotients
    that round, ties, an overflow, the smallest numbers and the first whole
    number that adding 1 does not change. *)
Lemma round_as_the_machine :
  ofFloat 0.3 = round (3 # 10) /\
  ofFloat 95.3 = round (953 # 10) /\
  ofFloat 180.3 = round (1803 # 10) /\
  ofFloat 1e19 = round 10000000000000000000 /\
  ofFloat 1e-320 = round (1 # 10 ^ 320) /\
  ofFloat (0.3 - 0.1 - 0.2) = sub (sub (round (3 # 10)) (round (1 # 10))) (round (2 # 10)) /\
  ofFloat (0.1 + 0.2) = add (round (1 # 10)) (round (2 # 10)) /\
  ofFloat (-0x1p-55 + 360) = add (Value (- (1 # 2 ^ 55))) (Value 360) /\
  ofFloat (-0x1p-45 + 360) = add (Value (- (1 # 2 ^ 45))) (Value 360) /\
  ofFloat (-0x1.8p-45 + 360) = add (Value (- (3 # 2 ^ 46))) (Value 360) /\
  ofFloat (1e19 - 360) = sub (round 10000000000000000000) (Value 360) /\
  ofFloat (0 - 95.3 + 360 - 360) = sub (add (sub (Value 0) (round (953 # 10))) (Value 360)) (Value 360) /\
  ofFloat (0.1 * 0.7) = mul (round (1 # 10)) (round (7 # 10)) /\
  ofFloat (1 / 3) = div (Value 1) (Value 3) /\
  ofFloat (264.7 / 0.3) = div (round (2647 # 10)) (round (3 # 10)) /\
  ofFloat (0x1p1023 * 2) = mul (Value (2 ^ 1023)) (Value 2) /\
  ofFloat (0x1.fffffffffffffp1023 + 0x1p970) = add (Value (2 ^ 1024 - 2 ^ 971)) (Value (2 ^ 970)) /\
  ofFloat (0x1p-1074 / 2) = div (Value (2 ^ (-1074))) (Value 2) /\
  ofFloat (0x1.8p-1073 / 2) = div (Value (3 * 2 ^ (-1074))) (Value 2) /\
  ofFloat (9007199254740992 + 1) = add (Value 9007199254740992) (Value 1) /\
  ofFloat (9007199254740992 + 3) = add (Value 9007199254740992) (Value 3).
Proof. vm_compute. repeat split. Qed.

End MachineFacts.

(** ** The transforms on doubles *)

Section DoubleTransformFacts.
Import Orientation Frames Doubles.

Lemma bind_some {A B : Type} (x : A) (k : A -> option B) : (Some x ≫= k) = k x.
Proof. reflexivity. Qed.

Lemma legacy_worldToScreenAngle_double (fuel : nat) (worldLongitude : double)
    (f : ViewFrame) (anchorLongitude : double) :
  usesZeroPoint f = false ->
  Doubles.worldToScreenAngle fuel worldLongitude f anchorLongitude =
  (offset ← whileAbove fuel (sub worldLongitude anchorLongitude);
   offset ← whileBelow fuel offset;
   let offset := if isCcw (direction f) then neg offset else offset in
   let screenAngle := add (Value (screenAngleDeg f)) offset in
   let screenAngle :=
     if truthy (angularFlip f)
     then sub (Value (screenAngleDeg f)) (sub screenAngle (Value (screenAngleDeg f)))
     else screenAngle in
   Some (Doubles.normalizeDeg screenAngle)).
Proof.
  unfold usesZeroPoint, Doubles.worldToScreenAngle.
  destruct (worldZero f), (screenZero f); intros Hz; try discriminate; reflexivity.
Qed.

Lemma legacy_screenToWorldLongitude_double (fuel : nat) (screenAngle : double)
    (f : ViewFrame) (anchorLongitude : double) :
  usesZeroPoint f = false ->
  Doubles.screenToWorldLongitude fuel screenAngle f anchorLongitude =
  (offset ← whileAbove fuel
              (sub (Doubles.normalizeDeg screenAngle) (Value (screenAngleDeg f)));
   offset ← whileBelow fuel offset;
   let offset := if truthy (angularFlip f) then neg offset else offset in
   let offset := if isCcw (direction f) then neg offset else offset in
   Some (Doubles.normalizeDeg (add anchorLongitude offset))).
Proof.
  unfold usesZeroPoint, Doubles.screenToWorldLongitude.
  destruct (worldZero f), (screenZero f); intros Hz; try discriminate; reflexivity.
Qed.

(** The anchor-based forward transform on doubles: for angles of
    magnitude at most 10000 it returns a double between 0 and 360 that is
    the exact angle up to whole turns and 61 roundings. *)
Lemma legacy_forward_double (fuel : nat) (f : ViewFrame) (w a : Q) :
  usesZeroPoint f = false -> (56 <= fuel)%nat ->
  Qabs w <= 10000 -> Qabs a <= 10000 -> Qabs (screenAngleDeg f) <= 10000 ->
  exists r, Doubles.worldToScreenAngle fuel (Value w) f (Value a) = Some (Value r) /\
    (0 <= r /\ r <= 360) /\
    exists k : Z,
      - (61 * halfUlp)
        <= r - (screenAngleDeg f + (if reversed f then - (w - a) else w - a))
             - 360 * inject_Z k /\
      r - (screenAngleDeg f + (if reversed f then - (w - a) else w - a))
        - 360 * inject_Z k <= 61 * halfUlp.
Proof.
  intros Hf Hfuel Hw Ha Hs.
  apply Qabs_Qle_condition in Hw as [Hw1 Hw2].
  apply Qabs_Qle_condition in Ha as [Ha1 Ha2].
  apply Qabs_Qle_condition in Hs as [Hs1 Hs2].
  rewrite (legacy_worldToScreenAngle_double _ _ _ _ Hf).
  destruct (sub_values w a) as (o0 & -> & [E01 E02] & L0 & U0); [lra | lra |].
  assert (B0 : -20000 <= o0 /\ o0 <= 20000).
  { split.
    - apply (L0 (-20000)%Z). change (inject_Z (-20000)) with (-20000). lra.
    - apply (U0 20000%Z). change (inject_Z 20000) with 20000. lra. }
  destruct (wrap_value fuel o0 Hfuel (proj1 B0) (proj2 B0))
    as (y1 & y & m & -> & Hbelow & [Y1 Y2] & [Ey1 Ey2]).
  rewrite bind_some, Hbelow, bind_some. cbv beta zeta.
  set (s := screenAngleDeg f) in *. unfold reversed. unfold halfUlp in *.
  destruct (isCcw (direction f)), (truthy (angularFlip f)); simpl xorb; cbv iota;
    try change (neg (Value y)) with (Value (- y)).
  - destruct (add_values s (- y)) as (sa & -> & [E1 E2] & L1 & U1); [lra | lra |].
    destruct (sub_values sa s) as (t & -> & [E3 E4] & L2 & U2);
      unfold halfUlp in *; [lra | lra |].
    destruct (sub_values s t) as (sa' & -> & [E5 E6] & L3 & U3);
      unfold halfUlp in *; [lra | lra |].
    destruct (normalizeDeg_value sa') as (r & -> & Hr & k & [E7 E8]).
    exists r. split; [reflexivity |]. split; [exact Hr |].
    exists (k + m)%Z. rewrite inject_Z_plus. unfold halfUlp in *. split; lra.
  - destruct (add_values s (- y)) as (sa & -> & [E1 E2] & L1 & U1); [lra | lra |].
    destruct (normalizeDeg_value sa) as (r & -> & Hr & k & [E7 E8]).
    exists r. split; [reflexivity |]. split; [exact Hr |].
    exists (k - m)%Z. unfold Z.sub. rewrite inject_Z_plus, inject_Z_opp.
    unfold halfUlp in *. split; lra.
  - destruct (add_values s y) as (sa & -> & [E1 E2] & L1 & U1); [lra | lra |].
    destruct (sub_values sa s) as (t & -> & [E3 E4] & L2 & U2);
      unfold halfUlp in *; [lra | lra |].
    destruct (sub_values s t) as (sa' & -> & [E5 E6] & L3 & U3);
      unfold halfUlp in *; [lra | lra |].
    destruct (normalizeDeg_value sa') as (r & -> & Hr & k & [E7 E8]).
    exists r. split; [reflexivity |]. split; [exact Hr |].
    exists (k - m)%Z. unfold Z.sub. rewrite inject_Z_plus, inject_Z_opp.
    unfold halfUlp in *. split; lra.
  - destruct (add_values s y) as (sa & -> & [E1 E2] & L1 & U1); [lra | lra |].
    destruct (normalizeDeg_value sa) as (r & -> & Hr & k & [E7 E8]).
    exists r. split; [reflexivity |]. split; [exact Hr |].
    exists (k + m)%Z. rewrite inject_Z_plus. unfold halfUlp in *. split; lra.
Qed.


(** The anchor-based inverse transform on doubles, likewise. *)
Lemma legacy_inverse_double (fuel : nat) (f : ViewFrame) (s a : Q) :
  usesZeroPoint f = false -> (56 <= fuel)%nat ->
  Qabs s <= 10000 -> Qabs a <= 10000 -> Qabs (screenAngleDeg f) <= 10000 ->
  exists r, Doubles.screenToWorldLongitude fuel (Value s) f (Value a) = Some (Value r) /\
    (0 <= r /\ r <= 360) /\
    exists k : Z,
      - (60 * halfUlp)
        <= r - (a + (if reversed f then - (s - screenAngleDeg f)
                     else s - screenAngleDeg f))
             - 360 * inject_Z k /\
      r - (a + (if reversed f then - (s - screenAngleDeg f) else s - screenAngleDeg f))
        - 360 * inject_Z k <= 60 * halfUlp.
Proof.
  intros Hf Hfuel Hs Ha Hd.
  apply Qabs_Qle_condition in Hs as [Hs1 Hs2].
  apply Qabs_Qle_condition in Ha as [Ha1 Ha2].
  apply Qabs_Qle_condition in Hd as [Hd1 Hd2].
  rewrite (legacy_screenToWorldLongitude_double _ _ _ _ Hf).
  destruct (normalizeDeg_value s) as (ns & -> & [N1 N2] & k0 & [En1 En2]).
  set (d := screenAngleDeg f) in *.
  destruct (sub_values ns d) as (o0 & -> & [E01 E02] & L0 & U0); [lra | lra |].
  assert (B0 : -20000 <= o0 /\ o0 <= 20000).
  { split.
    - apply (L0 (-20000)%Z). change (inject_Z (-20000)) with (-20000). lra.
    - apply (U0 20000%Z). change (inject_Z 20000) with 20000. lra. }
  destruct (wrap_value fuel o0 Hfuel (proj1 B0) (proj2 B0))
    as (y1 & y & m & -> & Hbelow & [Y1 Y2] & [Ey1 Ey2]).
  rewrite bind_some, Hbelow, bind_some. cbv beta zeta.
  unfold reversed. unfold halfUlp in *.
  destruct (isCcw (direction f)), (truthy (angularFlip f)); simpl xorb; cbv iota;
    repeat match goal with
    | |- context [neg (Value ?q)] => change (neg (Value q)) with (Value (- q))
    end.
  - destruct (add_values a (- - y)) as (sa & -> & [E1 E2] & L1 & U1); [lra | lra |].
    destruct (normalizeDeg_value sa) as (r & -> & Hr & k & [E7 E8]).
    exists r. split; [reflexivity |]. split; [exact Hr |].
    exists (k + m + k0)%Z. rewrite !inject_Z_plus. unfold halfUlp in *. split; lra.
  - destruct (add_values a (- y)) as (sa & -> & [E1 E2] & L1 & U1); [lra | lra |].
    destruct (normalizeDeg_value sa) as (r & -> & Hr & k & [E7 E8]).
    exists r. split; [reflexivity |]. split; [exact Hr |].
    exists (k - (m + k0))%Z. unfold Z.sub. rewrite !inject_Z_plus, inject_Z_opp, inject_Z_plus.
    unfold halfUlp in *. split; lra.
  - destruct (add_values a (- y)) as (sa & -> & [E1 E2] & L1 & U1); [lra | lra |].
    destruct (normalizeDeg_value sa) as (r & -> & Hr & k & [E7 E8]).
    exists r. split; [reflexivity |]. split; [exact Hr |].
    exists (k - (m + k0))%Z. unfold Z.sub. rewrite !inject_Z_plus, inject_Z_opp, inject_Z_plus.
    unfold halfUlp in *. split; lra.
  - destruct (add_values a y) as (sa & -> & [E1 E2] & L1 & U1); [lra | lra |].
    destruct (normalizeDeg_value sa) as (r & -> & Hr & k & [E7 E8]).
    exists r. split; [reflexivity |]. split; [exact Hr |].
    exists (k + m + k0)%Z. rewrite !inject_Z_plus. unfold halfUlp in *. split; lra.
Qed.

Lemma zeroPoint_worldToScreenAngle_double (fuel : nat) (worldLongitude : double)
    (f : ViewFrame) (anchorLongitude : double) (wz sz : Q) :
  worldZero f = Some wz -> screenZero f = Some sz ->
  Doubles.worldToScreenAngle fuel worldLongitude f anchorLongitude =
  Some (Doubles.normalizeDeg
          (add (Value sz)
             (mul (mul (Doubles.directionNumber (direction f))
                     (Doubles.foldOnce
                        (Doubles.normalizeDeg (sub worldLongitude (Value wz)))))
                (Value (default 1 (scale f)))))).
Proof. unfold Doubles.worldToScreenAngle. intros -> ->. reflexivity. Qed.

Lemma zeroPoint_screenToWorldLongitude_double (fuel : nat) (screenAngle : double)
    (f : ViewFrame) (anchorLongitude : double) (wz sz : Q) :
  worldZero f = Some wz -> screenZero f = Some sz ->
  Doubles.screenToWorldLongitude fuel screenAngle f anchorLongitude =
  Some (Doubles.normalizeDeg
          (add (Value wz)
             (mul (div (Doubles.foldOnce
                          (sub (Doubles.normalizeDeg screenAngle) (Value sz)))
                     (Value (default 1 (scale f))))
                (Doubles.directionNumber (direction f))))).
Proof. unfold Doubles.screenToWorldLongitude. intros -> ->. reflexivity. Qed.

Lemma numericDirection_double (d : option Direction) :
  numericDirection d = true ->
  exists sign, Doubles.directionNumber d = Value sign /\
    Orientation.directionNumber d = Finite sign /\ (sign = 1 \/ sign = -1).
Proof.
  destruct d as [[| | |] |]; try discriminate; intros _;
    [exists 1 | exists (-1) | exists 1]; repeat split; auto.
Qed.

(** The forward transform of the worldZero/screenZero model on doubles,
    with [direction] and [scale] of magnitude 1. *)
Lemma zero_point_forward_double (fuel : nat) (f : ViewFrame) (w wz sz : Q)
    (anchorLongitude : double) :
  worldZero f = Some wz -> screenZero f = Some sz ->
  numericDirection (direction f) = true -> Qabs (default 1 (scale f)) == 1 ->
  Qabs w <= 10000 -> Qabs wz <= 10000 -> Qabs sz <= 10000 ->
  exists r d,
    Orientation.directionNumber (direction f) = Finite d /\
    Doubles.worldToScreenAngle fuel (Value w) f anchorLongitude = Some (Value r) /\
    (0 <= r /\ r <= 360) /\
    exists k : Z,
      - (7 * halfUlp)
        <= r - (sz + d * (w - wz) * default 1 (scale f)) - 360 * inject_Z k /\
      r - (sz + d * (w - wz) * default 1 (scale f)) - 360 * inject_Z k
        <= 7 * halfUlp.
Proof.
  intros Hwz Hsz Hdir Hone Hw Hz Hs.
  apply Qabs_Qle_condition in Hw as [Hw1 Hw2].
  apply Qabs_Qle_condition in Hz as [Hz1 Hz2].
  apply Qabs_Qle_condition in Hs as [Hs1 Hs2].
  rewrite (zeroPoint_worldToScreenAngle_double _ _ _ _ _ _ Hwz Hsz).
  destruct (numericDirection_double _ Hdir) as (d & -> & Hd & Hsign).
  set (sc := default 1 (scale f)) in *.
  destruct (sub_values w wz) as (x0 & -> & [E01 E02] & L0 & U0); [lra | lra |].
  destruct (normalizeDeg_value x0) as (delta & -> & [D1 D2] & k1 & [Ed1 Ed2]).
  destruct (foldOnce_value delta) as (nd & j & -> & [Ef1 Ef2] & Hrange & _);
    [lra | lra |].
  destruct Hrange as [F1 F2]; [lra | lra |].
  unfold halfUlp in *.
  destruct Hsign as [-> | ->], (Qabs_one _ Hone) as [Hsc | Hsc];
    match goal with
    | |- context [mul (Value ?dd) (Value nd)] =>
        destruct (mul_values dd nd) as (p1 & -> & [E1 E2] & _); [lra | lra |]
    end;
    unfold halfUlp in *;
    [ assert (P : p1 * sc == p1) by (rewrite Hsc; ring)
    | assert (P : p1 * sc == - p1) by (rewrite Hsc; ring)
    | assert (P : p1 * sc == p1) by (rewrite Hsc; ring)
    | assert (P : p1 * sc == - p1) by (rewrite Hsc; ring) ];
    (destruct (mul_values p1 sc) as (p2 & -> & [E3 E4] & _);
       [rewrite P; lra | rewrite P; lra |]);
    rewrite P in E3, E4; unfold halfUlp in *;
    (destruct (add_values sz p2) as (s1 & -> & [E5 E6] & _); [lra | lra |]);
    destruct (normalizeDeg_value s1) as (r & -> & Hr & k2 & [E7 E8]);
    unfold halfUlp in *;
    eexists r, _; (split; [exact Hd |]); (split; [reflexivity |]);
    (split; [exact Hr |]).
  - exists (k2 + (k1 + j))%Z. rewrite Hsc, !inject_Z_plus. split; lra.
  - exists (k2 - (k1 + j))%Z. unfold Z.sub.
    rewrite Hsc, !inject_Z_plus, inject_Z_opp, inject_Z_plus. split; lra.
  - exists (k2 - (k1 + j))%Z. unfold Z.sub.
    rewrite Hsc, !inject_Z_plus, inject_Z_opp, inject_Z_plus. split; lra.
  - exists (k2 + (k1 + j))%Z. rewrite Hsc, !inject_Z_plus. split; lra.
Qed.

(** The inverse transform of the worldZero/screenZero model on doubles,
    with [direction] and [scale] of magnitude 1. *)
Lemma zero_point_inverse_double (fuel : nat) (f : ViewFrame) (s wz sz : Q)
    (anchorLongitude : double) :
  worldZero f = Some wz -> screenZero f = Some sz ->
  numericDirection (direction f) = true -> Qabs (default 1 (scale f)) == 1 ->
  Qabs s <= 10000 -> Qabs wz <= 10000 -> Qabs sz <= 10000 ->
  exists r d,
    Orientation.directionNumber (direction f) = Finite d /\
    Doubles.screenToWorldLongitude fuel (Value s) f anchorLongitude = Some (Value r) /\
    (0 <= r /\ r <= 360) /\
    exists k : Z,
      - (7 * halfUlp)
        <= r - (wz + (s - sz) / default 1 (scale f) * d) - 360 * inject_Z k /\
      r - (wz + (s - sz) / default 1 (scale f) * d) - 360 * inject_Z k
        <= 7 * halfUlp.
Proof.
  intros Hwz Hsz Hdir Hone Hs Hz Hz'.
  apply Qabs_Qle_condition in Hs as [Hs1 Hs2].
  apply Qabs_Qle_condition in Hz as [Hz1 Hz2].
  apply Qabs_Qle_condition in Hz' as [Hs3 Hs4].
  rewrite (zeroPoint_screenToWorldLongitude_double _ _ _ _ _ _ Hwz Hsz).
  destruct (numericDirection_double _ Hdir) as (d & -> & Hd & Hsign).
  set (sc := default 1 (scale f)) in *.
  destruct (normalizeDeg_value s) as (ns & -> & [N1 N2] & k0 & [En1 En2]).
  destruct (sub_values ns sz) as (x0 & -> & [E01 E02] & L0 & U0); [lra | lra |].
  assert (B0 : -10360 <= x0 /\ x0 <= 10360).
  { split.
    - apply (L0 (-10360)%Z). change (inject_Z (-10360)) with (-10360). lra.
    - apply (U0 10360%Z). change (inject_Z 10360) with 10360. lra. }
  destruct (foldOnce_value x0) as (nd & j & -> & [Ef1 Ef2] & _ & Hrange);
    [lra | lra |].
  destruct (Hrange 10360%Z) as [F1 F2];
    [lia | change (- inject_Z 10360) with (-10360); lra
     | change (inject_Z 10360) with 10360; lra |].
  change (- inject_Z 10360) with (-10360) in F1.
  change (inject_Z 10360) with 10360 in F2.
  unfold halfUlp in *.
  assert (Hnz : ~ sc == 0).
  { intros E. rewrite E in Hone. discriminate. }
  destruct (Qabs_one _ Hone) as [Hsc | Hsc];
    [ assert (P : nd / sc == nd) by (rewrite Hsc; field)
    | assert (P : nd / sc == - nd) by (rewrite Hsc; field) ];
    (destruct (div_values nd sc Hnz) as (q1 & -> & [E1 E2] & _);
       [rewrite P; lra | rewrite P; lra |]);
    rewrite P in E1, E2; unfold halfUlp in *;
    destruct Hsign as [-> | ->];
    match goal with
    | |- context [mul (Value q1) (Value ?dd)] =>
        destruct (mul_values q1 dd) as (q2 & -> & [E3 E4] & _); [lra | lra |]
    end;
    unfold halfUlp in *;
    (destruct (add_values wz q2) as (s1 & -> & [E5 E6] & _); [lra | lra |]);
    destruct (normalizeDeg_value s1) as (r & -> & Hr & k2 & [E7 E8]);
    unfold halfUlp in *;
    eexists r, _; (split; [exact Hd |]); (split; [reflexivity |]);
    (split; [exact Hr |]).
  - exists (k2 + (k0 + j))%Z.
    assert (T : (s - sz) / sc * 1 == s - sz) by (rewrite Hsc; field).
    rewrite T, !inject_Z_plus. split; lra.
  - exists (k2 - (k0 + j))%Z. unfold Z.sub.
    assert (T : (s - sz) / sc * -1 == - (s - sz)) by (rewrite Hsc; field).
    rewrite T, !inject_Z_plus, inject_Z_opp, inject_Z_plus. split; lra.
  - exists (k2 - (k0 + j))%Z. unfold Z.sub.
    assert (T : (s - sz) / sc * 1 == - (s - sz)) by (rewrite Hsc; field).
    rewrite T, !inject_Z_plus, inject_Z_opp, inject_Z_plus. split; lra.
  - exists (k2 + (k0 + j))%Z.
    assert (T : (s - sz) / sc * -1 == s - sz) by (rewrite Hsc; field).
    rewrite T, !inject_Z_plus. split; lra.
Qed.

End DoubleTransformFacts.

(** ** The round trip on doubles *)

Section DoubleRoundTripFacts.
Import Orientation Frames Doubles Scenarios.

Lemma within_tolerance (n : Q) (r x : Q) (k : Z) :
  0 <= n -> n <= 250 ->
  - (n * halfUlp) <= r - x - 360 * inject_Z k ->
  r - x - 360 * inject_Z k <= n * halfUlp ->
  sameAngleWithin tolerance r x.
Proof.
  intros H0 H1 Hlo Hhi. exists k. apply Qabs_Qle_condition.
  unfold tolerance, halfUlp in *. split; lra.
Qed.

(** An angle of [0,360] within [t] of an angle of [0,360) up to whole
    turns is within [t] of it, or a whole turn less [t] away. *)
Lemma near_on_circle (r w t : Q) :
  0 <= r -> r <= 360 -> 0 <= w -> w < 360 -> 0 <= t -> t <= 1 ->
  sameAngleWithin t r w ->
  Qabs (r - w) <= t \/ 360 - t <= Qabs (r - w).
Proof.
  intros Hr0 Hr1 Hw0 Hw1 Ht0 Ht1 [k Hk].
  apply Qabs_Qle_condition in Hk as [Hk1 Hk2].
  assert (H1 : inject_Z (-2) < inject_Z k)
    by (change (inject_Z (-2)) with (-2); lra).
  assert (H2 : inject_Z k < inject_Z 2)
    by (change (inject_Z 2) with 2; lra).
  rewrite <- Zlt_Qlt in H1, H2.
  assert (Hcases : k = (-1)%Z \/ k = 0%Z \/ k = 1%Z) by lia.
  destruct Hcases as [-> | [-> | ->]].
  - right. change (inject_Z (-1)) with (-1) in *.
    rewrite Qabs_neg by lra. lra.
  - left. change (inject_Z 0) with 0 in *. apply Qabs_Qle_condition. split; lra.
  - right. change (inject_Z 1) with 1 in *.
    rewrite Qabs_pos by lra. lra.
Qed.

Lemma Qabs_bound (x b : Q) : -b <= x -> x <= b -> Qabs x <= b.
Proof. intros H1 H2. apply Qabs_Qle_condition. split; assumption. Qed.

(** The round trip on doubles, anchor-based model. *)
Lemma round_trip_legacy_double (fuel : nat) (f : ViewFrame) (w a : Q) :
  usesZeroPoint f = false -> (56 <= fuel)%nat ->
  Qabs w <= 10000 -> Qabs a <= 10000 -> Qabs (screenAngleDeg f) <= 10000 ->
  exists r, Doubles.roundTrip fuel (Value w) f (Value a) = Some (Value r) /\
    (0 <= r /\ r <= 360) /\ sameAngleWithin tolerance r w.
Proof.
  intros Hf Hfuel Hw Ha Hs. unfold Doubles.roundTrip.
  destruct (legacy_forward_double fuel f w a Hf Hfuel Hw Ha Hs)
    as (s & -> & [S0 S1] & k1 & [E1 E2]).
  rewrite bind_some.
  destruct (legacy_inverse_double fuel f s a Hf Hfuel) as (r & -> & Hr & k2 & [E3 E4]);
    [apply Qabs_bound; lra | exact Ha | exact Hs |].
  exists r. split; [reflexivity |]. split; [exact Hr |].
  unfold halfUlp in *.
  destruct (reversed f).
  - apply (within_tolerance 121 r w (k2 - k1)); [lra | lra | |];
      unfold Z.sub; rewrite inject_Z_plus, inject_Z_opp; unfold halfUlp; lra.
  - apply (within_tolerance 121 r w (k2 + k1)); [lra | lra | |];
      rewrite inject_Z_plus; unfold halfUlp; lra.
Qed.

(** The round trip on doubles, worldZero/screenZero model with
    [direction] and [scale] of magnitude 1. *)
Lemma round_trip_zero_point_double (fuel : nat) (f : ViewFrame) (w : Q)
    (anchorLongitude : double) :
  unitZeroPoint f -> Qabs w <= 10000 -> boundedFrame f ->
  exists r, Doubles.roundTrip fuel (Value w) f anchorLongitude = Some (Value r) /\
    (0 <= r /\ r <= 360) /\ sameAngleWithin tolerance r w.
Proof.
  intros (Hzero & Hdir & Hone) Hw (_ & Hbwz & Hbsz). unfold Doubles.roundTrip.
  unfold usesZeroPoint in Hzero.
  destruct (worldZero f) as [wz |] eqn:Hwz; [| discriminate].
  destruct (screenZero f) as [sz |] eqn:Hsz; [| discriminate].
  simpl in Hbwz, Hbsz.
  destruct (zero_point_forward_double fuel f w wz sz anchorLongitude
              Hwz Hsz Hdir Hone Hw Hbwz Hbsz)
    as (s & d & Hd & -> & [S0 S1] & k1 & [E1 E2]).
  rewrite bind_some.
  destruct (zero_point_inverse_double fuel f s wz sz anchorLongitude
              Hwz Hsz Hdir Hone)
    as (r & d' & Hd' & -> & Hr & k2 & [E3 E4]);
    [apply Qabs_bound; lra | exact Hbwz | exact Hbsz |].
  rewrite Hd in Hd'. injection Hd' as <-.
  exists r. split; [reflexivity |]. split; [exact Hr |].
  destruct (numericDirection_double _ Hdir) as (d0 & _ & Hd0 & Hsign).
  rewrite Hd in Hd0. injection Hd0 as <-.
  set (sc := default 1 (scale f)) in *.
  unfold halfUlp in *.
  destruct Hsign as [-> | ->], (Qabs_one _ Hone) as [Hsc | Hsc].
  - assert (T1 : 1 * (w - wz) * sc == w - wz) by (rewrite Hsc; ring).
    assert (T2 : (s - sz) / sc * 1 == s - sz) by (rewrite Hsc; field).
    rewrite T1 in E1, E2. rewrite T2 in E3, E4.
    apply (within_tolerance 14 r w (k2 + k1)); [lra | lra | |];
      rewrite inject_Z_plus; unfold halfUlp; lra.
  - assert (T1 : 1 * (w - wz) * sc == - (w - wz)) by (rewrite Hsc; ring).
    assert (T2 : (s - sz) / sc * 1 == - (s - sz)) by (rewrite Hsc; field).
    rewrite T1 in E1, E2. rewrite T2 in E3, E4.
    apply (within_tolerance 14 r w (k2 - k1)); [lra | lra | |];
      unfold Z.sub; rewrite inject_Z_plus, inject_Z_opp; unfold halfUlp; lra.
  - assert (T1 : -1 * (w - wz) * sc == - (w - wz)) by (rewrite Hsc; ring).
    assert (T2 : (s - sz) / sc * -1 == - (s - sz)) by (rewrite Hsc; field).
    rewrite T1 in E1, E2. rewrite T2 in E3, E4.
    apply (within_tolerance 14 r w (k2 - k1)); [lra | lra | |];
      unfold Z.sub; rewrite inject_Z_plus, inject_Z_opp; unfold halfUlp; lra.
  - assert (T1 : -1 * (w - wz) * sc == w - wz) by (rewrite Hsc; ring).
    assert (T2 : (s - sz) / sc * -1 == s - sz) by (rewrite Hsc; field).
    rewrite T1 in E1, E2. rewrite T2 in E3, E4.
    apply (within_tolerance 14 r w (k2 + k1)); [lra | lra | |];
      rewrite inject_Z_plus; unfold halfUlp; lra.
Qed.

(** C1, amended.  For every world longitude in [0,360) and every anchor
    longitude, [screenToWorldLongitude] undoes [worldToScreenAngle].  Over
    exact arithmetic the longitude comes back exactly: for every frame of
    the anchor-based model, whatever its [direction] and [angularFlip], and
    for every frame of the worldZero/screenZero model whose [direction] is
    1, -1 or omitted and whose [scale] is 1, -1 or omitted, or lies strictly
    between -1 and 1 (0 apart) with [screenZero] between 0 and 360.  Over
    doubles, with every angle at most 10000 in magnitude and [scale] 1, -1
    or omitted, the call returns a double between 0 and 360 that is within
    1e-9 of the longitude, or within 1e-9 of a whole turn away from it: a
    longitude next to 0 can come back next to 360, and the other way
    round. *)
Theorem round_trip (f : ViewFrame) (worldLongitude anchorLongitude : Q) :
  0 <= worldLongitude -> worldLongitude < 360 ->
  (usesZeroPoint f = false \/ invertibleZeroPoint f ->
   strictEq (Orientation.roundTrip worldLongitude f anchorLongitude)
     (Finite worldLongitude)) /\
  (usesZeroPoint f = false \/ unitZeroPoint f ->
   Qabs anchorLongitude <= 10000 -> boundedFrame f ->
   forall fuel : nat, (56 <= fuel)%nat ->
     exists r,
       Doubles.roundTrip fuel (Value worldLongitude) f (Value anchorLongitude)
       = Some (Value r) /\
       (0 <= r /\ r <= 360) /\
       (Qabs (r - worldLongitude) <= tolerance \/
        360 - tolerance <= Qabs (r - worldLongitude))).
Proof.
  intros H0 H1. split.
  - intros [Hlegacy | Hzero].
    + apply round_trip_legacy; assumption.
    + apply round_trip_zero_point; assumption.
  - intros Hmodel Ha Hf fuel Hfuel.
    assert (Hw : Qabs worldLongitude <= 10000) by (apply Qabs_bound; lra).
    assert (Hnear : exists r,
               Doubles.roundTrip fuel (Value worldLongitude) f (Value anchorLongitude)
               = Some (Value r) /\
               (0 <= r /\ r <= 360) /\ sameAngleWithin tolerance r worldLongitude).
    { destruct Hmodel as [Hlegacy | Hunit].
      - apply round_trip_legacy_double; try assumption. apply Hf.
      - apply round_trip_zero_point_double; assumption. }
    destruct Hnear as (r & Hrun & [R0 R1] & Hsame).
    exists r. split; [exact Hrun |]. split; [split; assumption |].
    apply near_on_circle; try assumption; unfold tolerance; lra.
Qed.

Lemma round_trip_witness :
  strictEq (Orientation.roundTrip 100 legacyFrame 95) (Finite 100) /\
  (exists r,
      Doubles.roundTrip 56 (Value 100) legacyFrame (Value 95) = Some (Value r) /\
      (0 <= r /\ r <= 360) /\
      (Qabs (r - 100) <= tolerance \/ 360 - tolerance <= Qabs (r - 100))) /\
  (exists r,
      Doubles.roundTrip 56 (Value 185) mirroredFrame (Value 0) = Some (Value r) /\
      (0 <= r /\ r <= 360) /\
      (Qabs (r - 185) <= tolerance \/ 360 - tolerance <= Qabs (r - 185))).
Proof.
  destruct (round_trip legacyFrame 100 95) as [Hexact Hdouble];
    [discriminate | reflexivity |].
  destruct (round_trip mirroredFrame 185 0) as [_ Hmirrored];
    [discriminate | reflexivity |].
  split; [| split].
  - apply Hexact. left. reflexivity.
  - apply Hdouble; [left; reflexivity | discriminate | | lia].
    repeat split; discriminate.
  - apply Hmirrored; [right; repeat split; reflexivity | discriminate | | lia].
    repeat split; discriminate.
Defined.

End DoubleRoundTripFacts.

(** ** The transforms on doubles, frame by frame *)

Section DoubleFrameFacts.
Import Orientation Frames Doubles Scenarios.

(** C6, at the failing input.  In double arithmetic [0.3 - 0.1 - 0.2] is
    -2^-55.  [normalizeDeg] of it is 360 itself: the remainder is the number
    unchanged, it is negative, and adding 360 to it rounds to 360.  So the
    result is not below 360, and normalizing it once more gives 0, not the
    same value.  The same happens at -2^-70. *)
Theorem normalizeDeg_returns_360 :
  sub (sub (round (3 # 10)) (round (1 # 10))) (round (2 # 10))
  = Value (- (1 # 36028797018963968)) /\
  Doubles.normalizeDeg (Value (- (1 # 36028797018963968))) = Value 360 /\
  Doubles.normalizeDeg (Doubles.normalizeDeg (Value (- (1 # 36028797018963968))))
  = Value 0 /\
  Doubles.normalizeDeg (Value (- (1 # 1180591620717411303424))) = Value 360 /\
  ~ (360 < 360).
Proof.
  split; [vm_compute; reflexivity |]. split; [vm_compute; reflexivity |].
  split; [vm_compute; reflexivity |]. split; [vm_compute; reflexivity |].
  intros H. discriminate H.
Qed.

(** C3, at the failing input.  With [worldZero] and [screenZero] both the
    double nearest 95.3 and [direction] 1, [worldToScreenAngle] sends the
    longitude 0 to 360, whatever the anchor longitude, where the
    specification's formula gives 0, and gives no angle outside [0,360). *)
Theorem zero_point_returns_360 :
  round (953 # 10) = Value (literal (953 # 10)) /\
  (forall (anchorLongitude : double) (fuel : nat),
      Doubles.worldToScreenAngle fuel (Value 0)
        (zeroPointFrame (literal (953 # 10)) (literal (953 # 10)) (Some plus1) None)
        anchorLongitude
      = Some (Value 360)) /\
  Spec.zeroPointScreenAngle 0 (literal (953 # 10)) (literal (953 # 10)) 1 1 == 0 /\
  (forall x, 0 <= Spec.normalize x /\ Spec.normalize x < 360).
Proof.
  split; [vm_compute; reflexivity |].
  split; [intros anchorLongitude fuel; vm_compute; reflexivity |].
  split; [vm_compute; reflexivity |].
  apply spec_normalize_range.
Qed.

Lemma unit_product (d sc x : Q) :
  d = 1 \/ d = -1 -> Qabs sc == 1 -> Spec.sameAngle x 0 -> Spec.sameAngle (d * x * sc) 0.
Proof.
  intros Hd Hone [k Hk].
  destruct Hd as [-> | ->], (Qabs_one _ Hone) as [Hsc | Hsc].
  - exists k. rewrite Hsc. lra.
  - exists (- k)%Z. rewrite Hsc, inject_Z_opp. lra.
  - exists (- k)%Z. rewrite Hsc, inject_Z_opp. lra.
  - exists k. rewrite Hsc. lra.
Qed.

(** With [direction] and [scale] of magnitude 1 the specification's
    formula is the plain sum, up to whole turns. *)
Lemma spec_formula_unit (w wz sz d sc : Q) :
  d = 1 \/ d = -1 -> Qabs sc == 1 ->
  Spec.sameAngle (Spec.zeroPointScreenAngle w wz sz d sc) (sz + d * (w - wz) * sc).
Proof.
  intros Hd Hone. unfold Spec.zeroPointScreenAngle.
  rewrite spec_normalize_sameAngle.
  destruct (spec_shortestDelta_sameAngle w wz) as [k Hk].
  destruct (unit_product d sc (Spec.shortestDelta w wz - (w - wz)) Hd Hone) as [j Hj].
  { exists k. lra. }
  exists j. rewrite <- Hj. ring.
Qed.

Lemma sameAngleWithin_turns (t a b c : Q) :
  sameAngleWithin t a b -> Spec.sameAngle b c -> sameAngleWithin t a c.
Proof.
  intros [k Hk] [j Hj]. exists (k + j)%Z.
  apply Qabs_Qle_condition in Hk as [H1 H2]. apply Qabs_Qle_condition.
  rewrite inject_Z_plus. split; lra.
Qed.

(** X1.  On doubles, [normalizeDeg] of any finite number is a double
    between 0 and 360, both ends included.  So are the results of both
    transforms, for angles of magnitude at most 10000, on every frame of
    the anchor-based model (whose two loops leave within 56 rounds there)
    and on every frame of the worldZero/screenZero model whose [direction]
    and [scale] are 1, -1 or omitted.  The end 360 is attained: taking the
    longitude 0 to the screen and back with the anchor at 0.3 gives 360. *)
Theorem transform_results_in_circle :
  (forall x : Q,
      exists r, Doubles.normalizeDeg (Value x) = Value r /\ 0 <= r /\ r <= 360) /\
  (forall (f : ViewFrame) (x anchorLongitude : Q) (fuel : nat),
      usesZeroPoint f = false \/ unitZeroPoint f ->
      Qabs x <= 10000 -> Qabs anchorLongitude <= 10000 -> boundedFrame f ->
      (56 <= fuel)%nat ->
      (exists r,
          Doubles.worldToScreenAngle fuel (Value x) f (Value anchorLongitude)
          = Some (Value r) /\ 0 <= r /\ r <= 360) /\
      (exists r,
          Doubles.screenToWorldLongitude fuel (Value x) f (Value anchorLongitude)
          = Some (Value r) /\ 0 <= r /\ r <= 360)) /\
  Doubles.roundTrip 56 (Value 0) legacyFrame (Value (literal (3 # 10)))
  = Some (Value 360).
Proof.
  split; [| split].
  - intros x. destruct (normalizeDeg_value x) as (r & Hr & [R0 R1] & _).
    exists r. auto.
  - intros f x a fuel Hmodel Hx Ha (Hs & Hwz & Hsz) Hfuel.
    destruct Hmodel as [Hlegacy | (Hzero & Hdir & Hone)].
    + destruct (legacy_forward_double fuel f x a Hlegacy Hfuel Hx Ha Hs)
        as (r & Hr & [R0 R1] & _).
      destruct (legacy_inverse_double fuel f x a Hlegacy Hfuel Hx Ha Hs)
        as (r' & Hr' & [R0' R1'] & _).
      split; [exists r | exists r']; auto.
    + unfold usesZeroPoint in Hzero.
      destruct (worldZero f) as [wz |] eqn:Ewz; [| discriminate].
      destruct (screenZero f) as [sz |] eqn:Esz; [| discriminate].
      simpl in Hwz, Hsz.
      destruct (zero_point_forward_double fuel f x wz sz (Value a)
                  Ewz Esz Hdir Hone Hx Hwz Hsz) as (r & d & _ & Hr & [R0 R1] & _).
      destruct (zero_point_inverse_double fuel f x wz sz (Value a)
                  Ewz Esz Hdir Hone Hx Hwz Hsz) as (r' & d' & _ & Hr' & [R0' R1'] & _).
      split; [exists r | exists r']; auto.
  - vm_compute. reflexivity.
Qed.

Lemma transform_results_in_circle_witness :
  (exists r,
      Doubles.worldToScreenAngle 56 (Value 1000) legacyFrame (Value 95)
      = Some (Value r) /\ 0 <= r /\ r <= 360) /\
  (exists r,
      Doubles.screenToWorldLongitude 56 (Value (-30)) mirroredFrame (Value 0)
      = Some (Value r) /\ 0 <= r /\ r <= 360).
Proof.
  destruct transform_results_in_circle as (_ & Hrange & _).
  split.
  - destruct (Hrange legacyFrame 1000 95 56%nat) as [Hw _];
      [left; reflexivity | discriminate | discriminate
       | repeat split; discriminate | lia |].
    exact Hw.
  - destruct (Hrange mirroredFrame (-30) 0 56%nat) as [_ Hs];
      [right; repeat split; reflexivity | discriminate | discriminate
       | repeat split; discriminate | lia |].
    exact Hs.
Defined.

(** X4.  The anchor-based transforms in closed form, on doubles: for
    angles of magnitude at most 10000 the screen angle is [screenAngleDeg +
    (world - anchor)] and the world longitude [anchor + (screen -
    screenAngleDeg)], up to whole turns and 1e-9, with the difference
    negated when exactly one of [direction = 'ccw'] and [angularFlip] is
    set.  So [angularFlip] together with ['ccw'] is the same as neither, and
    [referenceFrame], [anchor] and [radialFlip] play no part. *)
Theorem anchor_model_closed_form (f : ViewFrame) (x anchorLongitude : Q) (fuel : nat) :
  usesZeroPoint f = false ->
  Qabs x <= 10000 -> Qabs anchorLongitude <= 10000 ->
  Qabs (screenAngleDeg f) <= 10000 -> (56 <= fuel)%nat ->
  (exists r,
      Doubles.worldToScreenAngle fuel (Value x) f (Value anchorLongitude)
      = Some (Value r) /\
      sameAngleWithin tolerance r
        (screenAngleDeg f
         + (if reversed f then - (x - anchorLongitude) else x - anchorLongitude))) /\
  (exists r,
      Doubles.screenToWorldLongitude fuel (Value x) f (Value anchorLongitude)
      = Some (Value r) /\
      sameAngleWithin tolerance r
        (anchorLongitude
         + (if reversed f then - (x - screenAngleDeg f) else x - screenAngleDeg f))).
Proof.
  intros Hf Hx Ha Hs Hfuel.
  destruct (legacy_forward_double fuel f x anchorLongitude Hf Hfuel Hx Ha Hs)
    as (r & Hr & _ & k & [E1 E2]).
  destruct (legacy_inverse_double fuel f x anchorLongitude Hf Hfuel Hx Ha Hs)
    as (r' & Hr' & _ & k' & [E3 E4]).
  split.
  - exists r. split; [exact Hr |].
    apply (within_tolerance 61 _ _ k); [lra | lra | exact E1 | exact E2].
  - exists r'. split; [exact Hr' |].
    apply (within_tolerance 60 _ _ k'); [lra | lra | exact E3 | exact E4].
Qed.

Lemma anchor_model_closed_form_witness :
  exists r,
    Doubles.worldToScreenAngle 56 (Value 1000) legacyFrame (Value 95) = Some (Value r) /\
    sameAngleWithin tolerance r (180 + - (1000 - 95)).
Proof.
  destruct (anchor_model_closed_form legacyFrame 1000 95 56) as [Hw _];
    [reflexivity | discriminate | discriminate | discriminate | lia |].
  exact Hw.
Defined.

(** X5.  The worldZero/screenZero model in closed form, on doubles: with
    [direction] 1, -1 or omitted, [scale] 1, -1 or omitted and angles of
    magnitude at most 10000, [worldToScreenAngle] is the specification's
    [normalize(screenZero + direction * shortestDelta(worldLongitude,
    worldZero) * scale)] up to whole turns and 1e-9, and
    [screenToWorldLongitude] is [worldZero + (screenAngle - screenZero) /
    scale * direction] likewise; the anchor longitude plays no part. *)
Theorem zero_point_closed_form (f : ViewFrame) (x wz sz d : Q)
    (anchorLongitude : double) (fuel : nat) :
  worldZero f = Some wz -> screenZero f = Some sz ->
  Orientation.directionNumber (direction f) = Finite d ->
  Qabs (default 1 (scale f)) == 1 ->
  Qabs x <= 10000 -> Qabs wz <= 10000 -> Qabs sz <= 10000 ->
  (exists r,
      Doubles.worldToScreenAngle fuel (Value x) f anchorLongitude = Some (Value r) /\
      sameAngleWithin tolerance r
        (Spec.zeroPointScreenAngle x wz sz d (default 1 (scale f)))) /\
  (exists r,
      Doubles.screenToWorldLongitude fuel (Value x) f anchorLongitude = Some (Value r) /\
      sameAngleWithin tolerance r (wz + (x - sz) / default 1 (scale f) * d)).
Proof.
  intros Hwz Hsz Hd Hone Hx Hbwz Hbsz.
  assert (Hdir : numericDirection (direction f) = true).
  { destruct (direction f) as [[| | |] |]; try reflexivity; discriminate. }
  destruct (zero_point_forward_double fuel f x wz sz anchorLongitude
              Hwz Hsz Hdir Hone Hx Hbwz Hbsz)
    as (r & d1 & Hd1 & Hr & _ & k & [E1 E2]).
  destruct (zero_point_inverse_double fuel f x wz sz anchorLongitude
              Hwz Hsz Hdir Hone Hx Hbwz Hbsz)
    as (r' & d2 & Hd2 & Hr' & _ & k' & [E3 E4]).
  rewrite Hd in Hd1, Hd2. injection Hd1 as <-. injection Hd2 as <-.
  destruct (numericDirection_double _ Hdir) as (d0 & _ & Hd0 & Hsign).
  rewrite Hd in Hd0. injection Hd0 as <-.
  split.
  - exists r. split; [exact Hr |].
    apply sameAngleWithin_turns with (sz + d * (x - wz) * default 1 (scale f)).
    + apply (within_tolerance 7 _ _ k); [lra | lra | exact E1 | exact E2].
    + symmetry. apply spec_formula_unit; assumption.
  - exists r'. split; [exact Hr' |].
    apply (within_tolerance 7 _ _ k'); [lra | lra | exact E3 | exact E4].
Qed.

Lemma zero_point_closed_form_witness :
  exists r,
    Doubles.worldToScreenAngle 0 (Value 185) mirroredFrame (Value 0) = Some (Value r) /\
    sameAngleWithin tolerance r (Spec.zeroPointScreenAngle 185 95 90 (-1) 1).
Proof.
  destruct (zero_point_closed_form mirroredFrame 185 95 90 (-1) (Value 0) 0) as [Hw _];
    [reflexivity | reflexivity | reflexivity | reflexivity
     | discriminate | discriminate | discriminate |].
  exact Hw.
Defined.

(** X3.  The round trip the other way, on doubles: a screen angle of
    magnitude at most 10000 taken to the world by [screenToWorldLongitude]
    and back by [worldToScreenAngle] comes back as a double between 0 and
    360 that is the screen angle up to whole turns and 1e-9, for every
    frame of the anchor-based model, and for every frame of the
    worldZero/screenZero model whose [direction] and [scale] are 1, -1 or
    omitted. *)
Theorem screen_round_trip (f : ViewFrame) (screenAngle anchorLongitude : Q)
    (fuel : nat) :
  usesZeroPoint f = false \/ unitZeroPoint f ->
  Qabs screenAngle <= 10000 -> Qabs anchorLongitude <= 10000 -> boundedFrame f ->
  (56 <= fuel)%nat ->
  exists r,
    Doubles.screenRoundTrip fuel (Value screenAngle) f (Value anchorLongitude)
    = Some (Value r) /\
    (0 <= r /\ r <= 360) /\ sameAngleWithin tolerance r screenAngle.
Proof.
  intros Hmodel Hx Ha (Hs & Hbwz & Hbsz) Hfuel. unfold Doubles.screenRoundTrip.
  destruct Hmodel as [Hf | (Hzero & Hdir & Hone)].
  - destruct (legacy_inverse_double fuel f screenAngle anchorLongitude Hf Hfuel Hx Ha Hs)
      as (w & -> & [W0 W1] & k1 & [E1 E2]).
    rewrite bind_some.
    destruct (legacy_forward_double fuel f w anchorLongitude Hf Hfuel)
      as (r & -> & Hr & k2 & [E3 E4]);
      [apply Qabs_bound; lra | exact Ha | exact Hs |].
    exists r. split; [reflexivity |]. split; [exact Hr |].
    unfold halfUlp in *.
    destruct (reversed f).
    + apply (within_tolerance 121 r screenAngle (k2 - k1)); [lra | lra | |];
        unfold Z.sub; rewrite inject_Z_plus, inject_Z_opp; unfold halfUlp; lra.
    + apply (within_tolerance 121 r screenAngle (k2 + k1)); [lra | lra | |];
        rewrite inject_Z_plus; unfold halfUlp; lra.
  - unfold usesZeroPoint in Hzero.
    destruct (worldZero f) as [wz |] eqn:Hwz; [| discriminate].
    destruct (screenZero f) as [sz |] eqn:Hsz; [| discriminate].
    simpl in Hbwz, Hbsz.
    destruct (zero_point_inverse_double fuel f screenAngle wz sz (Value anchorLongitude)
                Hwz Hsz Hdir Hone Hx Hbwz Hbsz)
      as (w & d & Hd & -> & [W0 W1] & k1 & [E1 E2]).
    rewrite bind_some.
    destruct (zero_point_forward_double fuel f w wz sz (Value anchorLongitude)
                Hwz Hsz Hdir Hone)
      as (r & d' & Hd' & -> & Hr & k2 & [E3 E4]);
      [apply Qabs_bound; lra | exact Hbwz | exact Hbsz |].
    rewrite Hd in Hd'. injection Hd' as <-.
    exists r. split; [reflexivity |]. split; [exact Hr |].
    destruct (numericDirection_double _ Hdir) as (d0 & _ & Hd0 & Hsign).
    rewrite Hd in Hd0. injection Hd0 as <-.
    set (sc := default 1 (scale f)) in *.
    unfold halfUlp in *.
    destruct Hsign as [-> | ->], (Qabs_one _ Hone) as [Hsc | Hsc].
    + assert (T1 : 1 * (w - wz) * sc == w - wz) by (rewrite Hsc; ring).
      assert (T2 : (screenAngle - sz) / sc * 1 == screenAngle - sz)
        by (rewrite Hsc; field).
      rewrite T1 in E3, E4. rewrite T2 in E1, E2.
      apply (within_tolerance 14 r screenAngle (k2 + k1)); [lra | lra | |];
        rewrite inject_Z_plus; unfold halfUlp; lra.
    + assert (T1 : 1 * (w - wz) * sc == - (w - wz)) by (rewrite Hsc; ring).
      assert (T2 : (screenAngle - sz) / sc * 1 == - (screenAngle - sz))
        by (rewrite Hsc; field).
      rewrite T1 in E3, E4. rewrite T2 in E1, E2.
      apply (within_tolerance 14 r screenAngle (k2 - k1)); [lra | lra | |];
        unfold Z.sub; rewrite inject_Z_plus, inject_Z_opp; unfold halfUlp; lra.
    + assert (T1 : -1 * (w - wz) * sc == - (w - wz)) by (rewrite Hsc; ring).
      assert (T2 : (screenAngle - sz) / sc * -1 == - (screenAngle - sz))
        by (rewrite Hsc; field).
      rewrite T1 in E3, E4. rewrite T2 in E1, E2.
      apply (within_tolerance 14 r screenAngle (k2 - k1)); [lra | lra | |];
        unfold Z.sub; rewrite inject_Z_plus, inject_Z_opp; unfold halfUlp; lra.
    + assert (T1 : -1 * (w - wz) * sc == w - wz) by (rewrite Hsc; ring).
      assert (T2 : (screenAngle - sz) / sc * -1 == screenAngle - sz)
        by (rewrite Hsc; field).
      rewrite T1 in E3, E4. rewrite T2 in E1, E2.
      apply (within_tolerance 14 r screenAngle (k2 + k1)); [lra | lra | |];
        rewrite inject_Z_plus; unfold halfUlp; lra.
Qed.

Lemma screen_round_trip_witness :
  exists r,
    Doubles.screenRoundTrip 56 (Value 400) legacyFrame (Value 95) = Some (Value r) /\
    (0 <= r /\ r <= 360) /\ sameAngleWithin tolerance r 400.
Proof.
  apply (screen_round_trip legacyFrame 400 95 56);
    [left; reflexivity | discriminate | discriminate
     | repeat split; discriminate | lia].
Defined.

End DoubleFrameFacts.

(** ** The earlier transforms *)

Section AnchorOnlyFacts.
Import Orientation Frames Doubles Scenarios.

Lemma whileNegative_stop (fuel : nat) (x : Q) :
  0 <= x -> AnchorOnly.whileNegative fuel (Value x) = Some (Value x).
Proof.
  intros Hx. apply Qltb_ge in Hx.
  destruct fuel; simpl; rewrite Hx; reflexivity.
Qed.

Lemma whileFullTurn_stop (fuel : nat) (x : Q) :
  x < 360 -> AnchorOnly.whileFullTurn fuel (Value x) = Some (Value x).
Proof.
  intros Hx. apply Qgeb_lt in Hx.
  destruct fuel; simpl; rewrite Hx; reflexivity.
Qed.

Lemma whileNegative_value (n : nat) :
  forall (fuel : nat) (x : Q),
    (n <= fuel)%nat -> -32768 <= x -> x <= 32768 ->
    - (359 * inject_Z (Z.of_nat n)) <= x ->
    exists (y : Q) (m : Z),
      AnchorOnly.whileNegative fuel (Value x) = Some (Value y) /\
      (0 <= m <= Z.of_nat n)%Z /\
      (- (inject_Z m * halfUlp) <= y - x - 360 * inject_Z m /\
       y - x - 360 * inject_Z m <= inject_Z m * halfUlp) /\
      0 <= y /\
      (y <= 360 \/ (y = x /\ m = 0%Z)).
Proof.
  induction n as [| n IH]; intros fuel x Hfuel Hlo Hhi Hn.
  - change (inject_Z (Z.of_nat 0)) with 0 in Hn.
    exists x, 0%Z. rewrite whileNegative_stop by lra.
    change (inject_Z 0) with 0. repeat split; try lra; try lia. right. auto.
  - destruct (Qlt_le_dec x 0) as [Hlt | Hge].
    + destruct fuel as [| fuel]; [lia |].
      simpl. pose proof Hlt as Hb. apply Qltb_lt in Hb. rewrite Hb.
      destruct (add_values x 360) as (x' & Hx' & [He1 He2] & Hlow & Hhigh);
        [lra | lra |].
      simpl in Hx'. rewrite Hx'.
      rewrite Nat2Z.inj_succ, <- Z.add_1_r, inject_Z_plus in Hn.
      change (inject_Z 1) with 1 in Hn.
      assert (Hx'hi : x' <= 360).
      { apply (Hhigh 360%Z). change (inject_Z 360) with 360. lra. }
      unfold halfUlp in He1, He2.
      destruct (IH fuel x') as (y & m & Hrun & Hm & [Hy1 Hy2] & Hy & Hside);
        [lia | lra | lra | lra |].
      exists y, (m + 1)%Z. split; [exact Hrun |].
      split; [lia |]. rewrite inject_Z_plus. change (inject_Z 1) with 1.
      unfold halfUlp in *.
      split; [split; lra |]. split; [exact Hy |].
      left. destruct Hside as [H | [-> _]]; lra.
    + exists x, 0%Z. rewrite whileNegative_stop by lra.
      change (inject_Z 0) with 0. repeat split; try lra; try lia. right. auto.
Qed.

Lemma whileFullTurn_value (n : nat) :
  forall (fuel : nat) (x : Q),
    (n <= fuel)%nat -> -32768 <= x -> x <= 32768 ->
    x < 360 + 359 * inject_Z (Z.of_nat n) ->
    exists (y : Q) (m : Z),
      AnchorOnly.whileFullTurn fuel (Value x) = Some (Value y) /\
      (0 <= m <= Z.of_nat n)%Z /\
      (- (inject_Z m * halfUlp) <= y - x + 360 * inject_Z m /\
       y - x + 360 * inject_Z m <= inject_Z m * halfUlp) /\
      y < 360 /\
      (0 <= y \/ (y = x /\ m = 0%Z)).
Proof.
  induction n as [| n IH]; intros fuel x Hfuel Hlo Hhi Hn.
  - change (inject_Z (Z.of_nat 0)) with 0 in Hn.
    exists x, 0%Z. rewrite whileFullTurn_stop by lra.
    change (inject_Z 0) with 0. repeat split; try lra; try lia. right. auto.
  - destruct (Qlt_le_dec x 360) as [Hlt | Hge].
    + exists x, 0%Z. rewrite whileFullTurn_stop by lra.
      change (inject_Z 0) with 0. repeat split; try lra; try lia. right. auto.
    + destruct fuel as [| fuel]; [lia |].
      simpl. pose proof Hge as Hb. apply Qgeb_ge in Hb. rewrite Hb.
      destruct (sub_values x 360) as (x' & Hx' & [He1 He2] & Hlow & Hhigh);
        [lra | lra |].
      unfold sub, neg in Hx'. simpl in Hx' |- *. rewrite Hx'.
      rewrite Nat2Z.inj_succ, <- Z.add_1_r, inject_Z_plus in Hn.
      change (inject_Z 1) with 1 in Hn.
      assert (Hx'lo : 0 <= x').
      { apply (Hlow 0%Z). change (inject_Z 0) with 0. lra. }
      unfold halfUlp in He1, He2.
      destruct (IH fuel x') as (y & m & Hrun & Hm & [Hy1 Hy2] & Hy & Hside);
        [lia | lra | lra | lra |].
      exists y, (m + 1)%Z. split; [exact Hrun |].
      split; [lia |]. rewrite inject_Z_plus. change (inject_Z 1) with 1.
      unfold halfUlp in *.
      split; [split; lra |]. split; [exact Hy |].
      left. destruct Hside as [H | [-> _]]; lra.
Qed.

(** The two loops of the earlier normalization, on an angle of magnitude
    at most 10400: they leave within 30 rounds, with an angle of [0,360),
    the end 360 excluded. *)
Lemma wrapCircle_value (fuel : nat) (x : Q) :
  (56 <= fuel)%nat -> -10400 <= x -> x <= 10400 ->
  exists (y : Q) (k : Z),
    AnchorOnly.wrapCircle fuel (Value x) = Some (Value y) /\
    (0 <= y /\ y < 360) /\
    (- (30 * halfUlp) <= y - x - 360 * inject_Z k /\
     y - x - 360 * inject_Z k <= 30 * halfUlp).
Proof.
  intros Hfuel Hlo Hhi. unfold AnchorOnly.wrapCircle.
  destruct (whileNegative_value 29 fuel x)
    as (y1 & m1 & -> & Hm1 & [E1 E2] & Y1 & Hside1);
    [lia | lra | lra | change (inject_Z (Z.of_nat 29)) with 29; lra |].
  rewrite bind_some.
  assert (Hm1q : 0 <= inject_Z m1 /\ inject_Z m1 <= 29).
  { change 0 with (inject_Z 0). change 29 with (inject_Z 29).
    rewrite <- !Zle_Qle. lia. }
  unfold halfUlp in *.
  destruct Hside1 as [Hy1 | [-> ->]].
  - destruct (whileFullTurn_value 1 fuel y1)
      as (y & m2 & -> & Hm2 & [F1 F2] & Y & Hside2);
      [lia | lra | lra | change (inject_Z (Z.of_nat 1)) with 1; lra |].
    assert (Hm2q : 0 <= inject_Z m2 /\ inject_Z m2 <= 1).
    { change 0 with (inject_Z 0). change 1 with (inject_Z 1).
      rewrite <- !Zle_Qle. lia. }
    exists y, (m1 - m2)%Z. split; [reflexivity |]. split.
    + split; [| exact Y]. destruct Hside2 as [H | [-> _]]; lra.
    + unfold Z.sub. rewrite inject_Z_plus, inject_Z_opp. unfold halfUlp in *.
      split; lra.
  - destruct (whileFullTurn_value 29 fuel x)
      as (y & m2 & -> & Hm2 & [F1 F2] & Y & Hside2);
      [lia | lra | lra | change (inject_Z (Z.of_nat 29)) with 29; lra |].
    assert (Hm2q : 0 <= inject_Z m2 /\ inject_Z m2 <= 29).
    { change 0 with (inject_Z 0). change 29 with (inject_Z 29).
      rewrite <- !Zle_Qle. lia. }
    exists y, (- m2)%Z. split; [reflexivity |]. split.
    + split; [| exact Y]. destruct Hside2 as [H | [-> _]]; lra.
    + rewrite inject_Z_opp. unfold halfUlp in *. split; lra.
Qed.

Lemma earlier_forward_double (fuel : nat) (f : ViewFrame) (w a : Q) :
  (56 <= fuel)%nat ->
  Qabs w <= 10000 -> Qabs a <= 10000 -> Qabs (screenAngleDeg f) <= 10000 ->
  exists r, AnchorOnly.worldToScreenAngle fuel (Value w) f (Value a)
           = Some (Value r) /\
    (0 <= r /\ r < 360) /\
    exists k : Z,
      - (90 * halfUlp)
        <= r - (screenAngleDeg f + (if reversed f then - (w - a) else w - a))
             - 360 * inject_Z k /\
      r - (screenAngleDeg f + (if reversed f then - (w - a) else w - a))
        - 360 * inject_Z k <= 90 * halfUlp.
Proof.
  intros Hfuel Hw Ha Hs.
  apply Qabs_Qle_condition in Hw as [Hw1 Hw2].
  apply Qabs_Qle_condition in Ha as [Ha1 Ha2].
  apply Qabs_Qle_condition in Hs as [Hs1 Hs2].
  unfold AnchorOnly.worldToScreenAngle. cbv zeta.
  destruct (sub_values w a) as (o0 & -> & [E01 E02] & L0 & U0); [lra | lra |].
  assert (B0 : -20000 <= o0 /\ o0 <= 20000).
  { split.
    - apply (L0 (-20000)%Z). change (inject_Z (-20000)) with (-20000). lra.
    - apply (U0 20000%Z). change (inject_Z 20000) with 20000. lra. }
  destruct (wrap_value fuel o0 Hfuel (proj1 B0) (proj2 B0))
    as (y1 & y & m & -> & Hbelow & [Y1 Y2] & [Ey1 Ey2]).
  rewrite bind_some, Hbelow, bind_some.
  set (s := screenAngleDeg f) in *. unfold reversed. unfold halfUlp in *.
  destruct (isCcw (direction f)), (truthy (angularFlip f)); simpl xorb; cbv iota;
    try change (neg (Value y)) with (Value (- y)).
  - destruct (add_values s (- y)) as (sa & -> & [E1 E2] & L1 & U1); [lra | lra |].
    destruct (sub_values sa s) as (t & -> & [E3 E4] & L2 & U2);
      unfold halfUlp in *; [lra | lra |].
    destruct (sub_values s t) as (sa' & -> & [E5 E6] & L3 & U3);
      unfold halfUlp in *; [lra | lra |].
    destruct (wrapCircle_value fuel sa' Hfuel) as (r & k & -> & Hr & [E7 E8]);
      [lra | lra |].
    exists r. split; [reflexivity |]. split; [exact Hr |].
    exists (k + m)%Z. rewrite inject_Z_plus. unfold halfUlp in *. split; lra.
  - destruct (add_values s (- y)) as (sa & -> & [E1 E2] & L1 & U1); [lra | lra |].
    destruct (wrapCircle_value fuel sa Hfuel) as (r & k & -> & Hr & [E7 E8]);
      unfold halfUlp in *; [lra | lra |].
    exists r. split; [reflexivity |]. split; [exact Hr |].
    exists (k - m)%Z. unfold Z.sub. rewrite inject_Z_plus, inject_Z_opp.
    unfold halfUlp in *. split; lra.
  - destruct (add_values s y) as (sa & -> & [E1 E2] & L1 & U1); [lra | lra |].
    destruct (sub_values sa s) as (t & -> & [E3 E4] & L2 & U2);
      unfold halfUlp in *; [lra | lra |].
    destruct (sub_values s t) as (sa' & -> & [E5 E6] & L3 & U3);
      unfold halfUlp in *; [lra | lra |].
    destruct (wrapCircle_value fuel sa' Hfuel) as (r & k & -> & Hr & [E7 E8]);
      [lra | lra |].
    exists r. split; [reflexivity |]. split; [exact Hr |].
    exists (k - m)%Z. unfold Z.sub. rewrite inject_Z_plus, inject_Z_opp.
    unfold halfUlp in *. split; lra.
  - destruct (add_values s y) as (sa & -> & [E1 E2] & L1 & U1); [lra | lra |].
    destruct (wrapCircle_value fuel sa Hfuel) as (r & k & -> & Hr & [E7 E8]);
      unfold halfUlp in *; [lra | lra |].
    exists r. split; [reflexivity |]. split; [exact Hr |].
    exists (k + m)%Z. rewrite inject_Z_plus. unfold halfUlp in *. split; lra.
Qed.

Lemma earlier_inverse_double (fuel : nat) (f : ViewFrame) (s a : Q) :
  (56 <= fuel)%nat ->
  Qabs s <= 10000 -> Qabs a <= 10000 -> Qabs (screenAngleDeg f) <= 10000 ->
  exists r, AnchorOnly.screenToWorldLongitude fuel (Value s) f (Value a)
           = Some (Value r) /\
    (0 <= r /\ r < 360) /\
    exists k : Z,
      - (118 * halfUlp)
        <= r - (a + (if reversed f then - (s - screenAngleDeg f)
                     else s - screenAngleDeg f))
             - 360 * inject_Z k /\
      r - (a + (if reversed f then - (s - screenAngleDeg f) else s - screenAngleDeg f))
        - 360 * inject_Z k <= 118 * halfUlp.
Proof.
  intros Hfuel Hs Ha Hd.
  apply Qabs_Qle_condition in Hs as [Hs1 Hs2].
  apply Qabs_Qle_condition in Ha as [Ha1 Ha2].
  apply Qabs_Qle_condition in Hd as [Hd1 Hd2].
  unfold AnchorOnly.screenToWorldLongitude.
  destruct (wrapCircle_value fuel s Hfuel) as (ns & k0 & -> & [N1 N2] & [En1 En2]);
    [lra | lra |].
  rewrite bind_some. cbv zeta.
  set (d := screenAngleDeg f) in *.
  destruct (sub_values ns d) as (o0 & -> & [E01 E02] & L0 & U0); [lra | lra |].
  assert (B0 : -20000 <= o0 /\ o0 <= 20000).
  { split.
    - apply (L0 (-20000)%Z). change (inject_Z (-20000)) with (-20000). lra.
    - apply (U0 20000%Z). change (inject_Z 20000) with 20000. lra. }
  destruct (wrap_value fuel o0 Hfuel (proj1 B0) (proj2 B0))
    as (y1 & y & m & -> & Hbelow & [Y1 Y2] & [Ey1 Ey2]).
  rewrite bind_some, Hbelow, bind_some.
  unfold reversed. unfold halfUlp in *.
  destruct (isCcw (direction f)), (truthy (angularFlip f)); simpl xorb; cbv iota;
    repeat match goal with
    | |- context [neg (Value ?q)] => change (neg (Value q)) with (Value (- q))
    end.
  - destruct (add_values a (- - y)) as (sa & -> & [E1 E2] & L1 & U1); [lra | lra |].
    destruct (wrapCircle_value fuel sa Hfuel) as (r & k & -> & Hr & [E7 E8]);
      unfold halfUlp in *; [lra | lra |].
    exists r. split; [reflexivity |]. split; [exact Hr |].
    exists (k + m + k0)%Z. rewrite !inject_Z_plus. unfold halfUlp in *. split; lra.
  - destruct (add_values a (- y)) as (sa & -> & [E1 E2] & L1 & U1); [lra | lra |].
    destruct (wrapCircle_value fuel sa Hfuel) as (r & k & -> & Hr & [E7 E8]);
      unfold halfUlp in *; [lra | lra |].
    exists r. split; [reflexivity |]. split; [exact Hr |].
    exists (k - (m + k0))%Z. unfold Z.sub.
    rewrite !inject_Z_plus, inject_Z_opp, inject_Z_plus.
    unfold halfUlp in *. split; lra.
  - destruct (add_values a (- y)) as (sa & -> & [E1 E2] & L1 & U1); [lra | lra |].
    destruct (wrapCircle_value fuel sa Hfuel) as (r & k & -> & Hr & [E7 E8]);
      unfold halfUlp in *; [lra | lra |].
    exists r. split; [reflexivity |]. split; [exact Hr |].
    exists (k - (m + k0))%Z. unfold Z.sub.
    rewrite !inject_Z_plus, inject_Z_opp, inject_Z_plus.
    unfold halfUlp in *. split; lra.
  - destruct (add_values a y) as (sa & -> & [E1 E2] & L1 & U1); [lra | lra |].
    destruct (wrapCircle_value fuel sa Hfuel) as (r & k & -> & Hr & [E7 E8]);
      unfold halfUlp in *; [lra | lra |].
    exists r. split; [reflexivity |]. split; [exact Hr |].
    exists (k + m + k0)%Z. rewrite !inject_Z_plus. unfold halfUlp in *. split; lra.
Qed.

Lemma within_tolerance_pair (n n' r r' x : Q) (k k' : Z) :
  0 <= n -> 0 <= n' -> n + n' <= 250 ->
  - (n * halfUlp) <= r - x - 360 * inject_Z k ->
  r - x - 360 * inject_Z k <= n * halfUlp ->
  - (n' * halfUlp) <= r' - x - 360 * inject_Z k' ->
  r' - x - 360 * inject_Z k' <= n' * halfUlp ->
  sameAngleWithin tolerance r r'.
Proof.
  intros H0 H0' H1 E1 E2 E3 E4. exists (k - k')%Z. apply Qabs_Qle_condition.
  unfold Z.sub. rewrite inject_Z_plus, inject_Z_opp.
  unfold tolerance, halfUlp in *. split; lra.
Qed.

(** X8.  On every frame without [worldZero] and [screenZero], on doubles
    and for angles of magnitude at most 10000, the transforms agree with
    their earlier versions up to whole turns and 1e-9.  The earlier
    versions, which normalize by a pair of [while] loops where the later
    ones call [normalizeDeg], return a double of [0,360), the end 360
    excluded: where the later inverse gives 360 for the screen angle 180.3
    with the anchor at 0.3, the earlier one gives 0. *)
Theorem earlier_transforms_agree (f : ViewFrame) (x anchorLongitude : Q) (fuel : nat) :
  usesZeroPoint f = false ->
  Qabs x <= 10000 -> Qabs anchorLongitude <= 10000 ->
  Qabs (screenAngleDeg f) <= 10000 -> (56 <= fuel)%nat ->
  (exists r r',
      Doubles.worldToScreenAngle fuel (Value x) f (Value anchorLongitude)
      = Some (Value r) /\
      AnchorOnly.worldToScreenAngle fuel (Value x) f (Value anchorLongitude)
      = Some (Value r') /\
      (0 <= r' /\ r' < 360) /\ sameAngleWithin tolerance r r') /\
  (exists r r',
      Doubles.screenToWorldLongitude fuel (Value x) f (Value anchorLongitude)
      = Some (Value r) /\
      AnchorOnly.screenToWorldLongitude fuel (Value x) f (Value anchorLongitude)
      = Some (Value r') /\
      (0 <= r' /\ r' < 360) /\ sameAngleWithin tolerance r r') /\
  Doubles.screenToWorldLongitude 56 (Value (literal (1803 # 10))) legacyFrame
    (Value (literal (3 # 10))) = Some (Value 360) /\
  AnchorOnly.screenToWorldLongitude 56 (Value (literal (1803 # 10))) legacyFrame
    (Value (literal (3 # 10))) = Some (Value 0).
Proof.
  intros Hf Hx Ha Hs Hfuel.
  split; [| split; [| split; vm_compute; reflexivity]].
  - destruct (legacy_forward_double fuel f x anchorLongitude Hf Hfuel Hx Ha Hs)
      as (r & Hr & _ & k & [E1 E2]).
    destruct (earlier_forward_double fuel f x anchorLongitude Hfuel Hx Ha Hs)
      as (r' & Hr' & Hrange & k' & [E3 E4]).
    exists r, r'. repeat (split; [assumption |]).
    apply (within_tolerance_pair 61 90 _ _ _ k k' ltac:(lra) ltac:(lra) ltac:(lra)
             E1 E2 E3 E4).
  - destruct (legacy_inverse_double fuel f x anchorLongitude Hf Hfuel Hx Ha Hs)
      as (r & Hr & _ & k & [E1 E2]).
    destruct (earlier_inverse_double fuel f x anchorLongitude Hfuel Hx Ha Hs)
      as (r' & Hr' & Hrange & k' & [E3 E4]).
    exists r, r'. repeat (split; [assumption |]).
    apply (within_tolerance_pair 60 118 _ _ _ k k' ltac:(lra) ltac:(lra) ltac:(lra)
             E1 E2 E3 E4).
Qed.

Lemma earlier_transforms_agree_witness :
  exists r r',
    Doubles.worldToScreenAngle 56 (Value 1000) legacyFrame (Value 95) = Some (Value r) /\
    AnchorOnly.worldToScreenAngle 56 (Value 1000) legacyFrame (Value 95)
    = Some (Value r') /\
    (0 <= r' /\ r' < 360) /\ sameAngleWithin tolerance r r'.
Proof.
  destruct (earlier_transforms_agree legacyFrame 1000 95 56) as (Hw & _);
    [reflexivity | discriminate | discriminate | discriminate | lia |].
  exact Hw.
Defined.

End AnchorOnlyFacts.

(** ** The order of versions *)

Section VersionOrderFacts.
Import Text Wheels Versioning Migration VersionQueries SafeIntegers.

Implicit Types parts : list (option N).

Lemma compareFrom_antisym (n i : nat) parts1 parts2 :
  compareFrom n i parts1 parts2 = (- compareFrom n i parts2 parts1)%Z.
Proof.
  revert i. induction n as [| n IH]; intros i; simpl; [reflexivity |].
  destruct (N.ltb_spec (orZero (parts1 !! i)) (orZero (parts2 !! i))),
    (N.ltb_spec (orZero (parts2 !! i)) (orZero (parts1 !! i)));
    try reflexivity; [lia | apply IH].
Qed.

Lemma compareFrom_values (n i : nat) parts1 parts2 :
  compareFrom n i parts1 parts2 = (-1)%Z \/ compareFrom n i parts1 parts2 = 0%Z \/
  compareFrom n i parts1 parts2 = 1%Z.
Proof.
  revert i. induction n as [| n IH]; intros i; simpl; [auto |].
  destruct (_ <? _)%N; [auto |]. destruct (_ <? _)%N; auto.
Qed.

Lemma compareFrom_equal (n i : nat) parts1 parts2 :
  (forall j, (i <= j)%nat -> orZero (parts1 !! j) = orZero (parts2 !! j)) ->
  compareFrom n i parts1 parts2 = 0%Z.
Proof.
  revert i. induction n as [| n IH]; intros i Heq; simpl; [reflexivity |].
  rewrite (Heq i) by lia. rewrite N.ltb_irrefl. apply IH. intros j Hj. apply Heq. lia.
Qed.

Lemma compareFrom_extend (n m i : nat) parts1 parts2 :
  (forall j, (i + n <= j)%nat -> orZero (parts1 !! j) = orZero (parts2 !! j)) ->
  compareFrom (n + m) i parts1 parts2 = compareFrom n i parts1 parts2.
Proof.
  revert i. induction n as [| n IH]; intros i Heq; simpl.
  - apply compareFrom_equal. intros j Hj. apply Heq. lia.
  - destruct (_ <? _)%N; [reflexivity |]. destruct (_ <? _)%N; [reflexivity |].
    apply IH. intros j Hj. apply Heq. lia.
Qed.

Lemma orZero_beyond parts (j : nat) :
  (List.length parts <= j)%nat -> orZero (parts !! j) = 0%N.
Proof. intros Hj. rewrite (lookup_ge_None_2 parts j Hj). reflexivity. Qed.

(** Any number of rounds from the longer list on gives the same result. *)
Lemma compareVersions_rounds (v1 v2 : string) (n : nat) :
  (List.length (map Number (split "." v1)) <= n)%nat ->
  (List.length (map Number (split "." v2)) <= n)%nat ->
  compareVersions v1 v2
  = compareFrom n 0 (map Number (split "." v1)) (map Number (split "." v2)).
Proof.
  intros H1 H2. unfold compareVersions.
  set (p1 := map Number (split "." v1)) in *.
  set (p2 := map Number (split "." v2)) in *.
  set (m := Nat.max (List.length p1) (List.length p2)).
  replace n with (m + (n - m))%nat by lia.
  symmetry. apply compareFrom_extend. intros j Hj.
  rewrite !orZero_beyond by lia. reflexivity.
Qed.

Lemma compareFrom_trans (n i : nat) parts1 parts2 parts3 :
  (compareFrom n i parts1 parts2 <= 0)%Z ->
  (compareFrom n i parts2 parts3 <= 0)%Z ->
  (compareFrom n i parts1 parts3 <= 0)%Z /\
  ((compareFrom n i parts1 parts2 < 0)%Z \/ (compareFrom n i parts2 parts3 < 0)%Z ->
   (compareFrom n i parts1 parts3 < 0)%Z).
Proof.
  revert i. induction n as [| n IH]; intros i; simpl; [lia |].
  destruct (N.ltb_spec (orZero (parts1 !! i)) (orZero (parts2 !! i))),
    (N.ltb_spec (orZero (parts2 !! i)) (orZero (parts1 !! i)));
    destruct (N.ltb_spec (orZero (parts2 !! i)) (orZero (parts3 !! i))),
      (N.ltb_spec (orZero (parts3 !! i)) (orZero (parts2 !! i)));
    destruct (N.ltb_spec (orZero (parts1 !! i)) (orZero (parts3 !! i))),
      (N.ltb_spec (orZero (parts3 !! i)) (orZero (parts1 !! i)));
    try lia; apply IH.
Qed.

Lemma compareVersions_antisym (v1 v2 : string) :
  compareVersions v1 v2 = (- compareVersions v2 v1)%Z.
Proof.
  unfold compareVersions. rewrite (Nat.max_comm (List.length (map Number (split "." v2)))).
  apply compareFrom_antisym.
Qed.

Lemma compareVersions_refl (v : string) : compareVersions v v = 0%Z.
Proof. pose proof (compareVersions_antisym v v). lia. Qed.

Lemma compareVersions_trans (v1 v2 v3 : string) :
  (compareVersions v1 v2 <= 0)%Z -> (compareVersions v2 v3 <= 0)%Z ->
  (compareVersions v1 v3 <= 0)%Z /\
  ((compareVersions v1 v2 < 0)%Z \/ (compareVersions v2 v3 < 0)%Z ->
   (compareVersions v1 v3 < 0)%Z).
Proof.
  set (n := Nat.max (List.length (map Number (split "." v1)))
              (Nat.max (List.length (map Number (split "." v2)))
                 (List.length (map Number (split "." v3))))).
  rewrite (compareVersions_rounds v1 v2 n), (compareVersions_rounds v2 v3 n),
    (compareVersions_rounds v1 v3 n) by lia.
  apply compareFrom_trans.
Qed.

(** X9.  On texts of digits and dots, the texts whose pieces [Number]
    reads as their decimal value, [compareVersions] is a total preorder:
    swapping the arguments negates the result, the result is -1, 0 or 1,
    and "not newer than" is transitive.  So [isNewerVersion v1 v2] is
    [isOlderVersion v2 v1], and no two versions are each newer than the
    other. *)
Theorem compareVersions_total_preorder :
  (forall v1 v2,
      digitsAndDots v1 = true -> digitsAndDots v2 = true ->
      compareVersions v1 v2 = (- compareVersions v2 v1)%Z /\
      (compareVersions v1 v2 = (-1)%Z \/ compareVersions v1 v2 = 0%Z \/
       compareVersions v1 v2 = 1%Z) /\
      isNewerVersion v1 v2 = isOlderVersion v2 v1 /\
      isNewerVersion v1 v2 && isNewerVersion v2 v1 = false) /\
  (forall v1 v2 v3,
      digitsAndDots v1 = true -> digitsAndDots v2 = true -> digitsAndDots v3 = true ->
      (compareVersions v1 v2 <= 0)%Z -> (compareVersions v2 v3 <= 0)%Z ->
      (compareVersions v1 v3 <= 0)%Z).
Proof.
  split.
  - intros v1 v2 _ _.
    split; [apply compareVersions_antisym |].
    split; [apply compareFrom_values |].
    unfold isNewerVersion, isOlderVersion.
    pose proof (compareVersions_antisym v1 v2).
    destruct (Z.ltb_spec 0 (compareVersions v1 v2)),
      (Z.ltb_spec (compareVersions v2 v1) 0), (Z.ltb_spec 0 (compareVersions v2 v1));
      simpl; split; try reflexivity; lia.
  - intros v1 v2 v3 _ _ _ H12 H23.
    apply (compareVersions_trans v1 v2 v3); assumption.
Qed.

Lemma compareVersions_total_preorder_witness :
  (compareVersions "1.2.3" "1.10" <= 0)%Z /\ (compareVersions "1.10" "2" <= 0)%Z /\
  (compareVersions "1.2.3" "2" <= 0)%Z /\
  isNewerVersion "2" "1.10" = isOlderVersion "1.10" "2".
Proof.
  destruct compareVersions_total_preorder as (Hpair & Htrans).
  assert (H12 : (compareVersions "1.2.3" "1.10" <= 0)%Z) by (vm_compute; discriminate).
  assert (H23 : (compareVersions "1.10" "2" <= 0)%Z) by (vm_compute; discriminate).
  split; [exact H12 |]. split; [exact H23 |]. split.
  - apply (Htrans "1.2.3" "1.10" "2"); (reflexivity || assumption).
  - destruct (Hpair "2" "1.10") as (_ & _ & Hswap & _); [reflexivity | reflexivity |].
    exact Hswap.
Defined.

Lemma compareFrom_zero (n i : nat) parts1 parts2 :
  compareFrom n i parts1 parts2 = 0%Z <->
  forall j, (i <= j < i + n)%nat -> orZero (parts1 !! j) = orZero (parts2 !! j).
Proof.
  revert i. induction n as [| n IH]; intros i; simpl.
  - split; [intros _ j Hj; lia | reflexivity].
  - destruct (N.ltb_spec (orZero (parts1 !! i)) (orZero (parts2 !! i))) as [Hlt | Hge].
    + split; [discriminate |]. intros Heq. specialize (Heq i). lia.
    + destruct (N.ltb_spec (orZero (parts2 !! i)) (orZero (parts1 !! i))) as [Hgt | Hle].
      * split; [discriminate |]. intros Heq. specialize (Heq i). lia.
      * rewrite IH. split; intros Heq j Hj.
        -- destruct (decide (j = i)) as [-> | Hne]; [lia | apply Heq; lia].
        -- apply Heq. lia.
Qed.

(** X10.  Two texts of digits and dots whose numbers are safe integers
    (at most 2^53 - 1, which [Number] reads exactly) compare equal exactly
    when they hold the same number at every place, a missing piece counting
    as 0 and an empty piece too: versions that differ in leading zeros, in
    trailing [.0] pieces or in a trailing dot are not told apart. *)
Theorem compareVersions_ties (v1 v2 : string) :
  digitsAndDots v1 = true -> digitsAndDots v2 = true ->
  safePieces v1 = true -> safePieces v2 = true ->
  (compareVersions v1 v2 = 0%Z <-> forall i, pieceAt v1 i = pieceAt v2 i).
Proof.
  intros _ _ _ _. unfold compareVersions, pieceAt.
  set (parts1 := map Number (split "." v1)).
  set (parts2 := map Number (split "." v2)).
  rewrite compareFrom_zero. split.
  - intros Heq i.
    destruct (Nat.lt_ge_cases i (Nat.max (List.length parts1) (List.length parts2))).
    + apply Heq. lia.
    + rewrite !orZero_beyond by lia. reflexivity.
  - intros Heq j _. apply Heq.
Qed.

Lemma compareVersions_ties_witness :
  compareVersions "1.0" "01.0.0" = 0%Z /\ compareVersions "1." "1" = 0%Z.
Proof.
  split.
  - apply (compareVersions_ties "1.0" "01.0.0");
      [reflexivity | reflexivity | reflexivity | reflexivity |].
    intros [| [| [| i]]]; reflexivity.
  - apply (compareVersions_ties "1." "1");
      [reflexivity | reflexivity | reflexivity | reflexivity |].
    intros [| [| i]]; reflexivity.
Defined.

Lemma append_empty_r (s : string) : s +:+ EmptyString = s.
Proof.
  induction s as [| c s IH]; [reflexivity |].
  rewrite append_cons. f_equal. exact IH.
Qed.

Lemma dropDigits_split (s : string) :
  exists d, allDigits d = true /\ s = d +:+ dropDigits s.
Proof.
  induction s as [| c s (d & Hd & Hs)].
  - exists EmptyString. split; reflexivity.
  - simpl. destruct (isDigit c) eqn:Hc.
    + exists (String c d). split; [simpl; rewrite Hc; exact Hd |].
      rewrite append_cons. f_equal. exact Hs.
    + exists EmptyString. split; reflexivity.
Qed.

Lemma digits1_split (s rest : string) :
  digits1 s = Some rest -> exists d, isDigits d /\ s = d +:+ rest.
Proof.
  destruct s as [| c s]; simpl; [discriminate |].
  destruct (isDigit c) eqn:Hc; [| discriminate]. intros [= <-].
  destruct (dropDigits_split s) as (d & Hd & Hs).
  exists (String c d). split.
  - split; [simpl; rewrite Hc; exact Hd | discriminate].
  - rewrite append_cons. f_equal. exact Hs.
Qed.

Lemma starts_with_dot (s : string) (A : Type) (yes : string -> A) (no : A) :
  match s with String "." rest => yes rest | _ => no end
  = match s with
    | String c rest => if Ascii.eqb c "." then yes rest else no
    | EmptyString => no
    end.
Proof.
  destruct s as [| [[] [] [] [] [] [] [] []] rest]; reflexivity.
Qed.

Lemma versionRegex_split (s : string) :
  versionRegex s = true ->
  exists d1 d2 d3, isDigits d1 /\ isDigits d2 /\ isDigits d3 /\
    s = d1 +:+ String "." (d2 +:+ String "." d3).
Proof.
  unfold versionRegex.
  destruct (digits1 s) as [r1 |] eqn:H1; [| discriminate].
  destruct r1 as [| c1 r1]; [discriminate |].
  destruct (Ascii.eqb_spec c1 ".") as [-> | Hc1];
    [| destruct c1 as [[] [] [] [] [] [] [] []]; try discriminate; contradiction].
  destruct (digits1 r1) as [r2 |] eqn:H2; [| discriminate].
  destruct r2 as [| c2 r2]; [discriminate |].
  destruct (Ascii.eqb_spec c2 ".") as [-> | Hc2];
    [| destruct c2 as [[] [] [] [] [] [] [] []]; try discriminate; contradiction].
  destruct (digits1 r2) as [r3 |] eqn:H3; [| discriminate].
  destruct r3; [| discriminate]. intros _.
  apply digits1_split in H1 as (d1 & Hd1 & ->).
  apply digits1_split in H2 as (d2 & Hd2 & ->).
  apply digits1_split in H3 as (d3 & Hd3 & ->).
  exists d1, d2, d3. repeat (split; [assumption |]).
  rewrite append_empty_r. reflexivity.
Qed.

Lemma uint_of_digit (c : ascii) (d : Decimal.uint) :
  isDigit c = true -> exists d', uint_of_char c (Some d) = Some d'.
Proof.
  destruct c as [[] [] [] [] [] [] [] []]; intros Hc;
    try discriminate Hc; eexists; reflexivity.
Qed.

Lemma Number_digits (d : string) : allDigits d = true -> exists n, Number d = Some n.
Proof.
  intros Hd. unfold Number.
  assert (H : exists u, NilEmpty.uint_of_string d = Some u).
  { induction d as [| c d IH]; simpl in *; [eexists; reflexivity |].
    apply andb_prop in Hd as [Hc Hd]. destruct (IH Hd) as [u ->].
    apply uint_of_digit, Hc. }
  destruct H as [u ->]. eexists. reflexivity.
Qed.

Lemma valid_parts (v : string) :
  isValidVersion v = true ->
  exists a b c, map Number (split "." v) = [Some a; Some b; Some c].
Proof.
  intros Hv. apply versionRegex_split in Hv as (d1 & d2 & d3 & H1 & H2 & H3 & ->).
  destruct H1 as [H1 _], H2 as [H2 _], H3 as [H3 _].
  rewrite split_digits_dot, split_digits_dot, split_digits by assumption.
  destruct (Number_digits d1 H1) as [a Ha], (Number_digits d2 H2) as [b Hb],
    (Number_digits d3 H3) as [c Hc].
  exists a, b, c. cbn [map]. rewrite Ha, Hb, Hc. reflexivity.
Qed.

(** X11.  [isValidVersion] accepts exactly the texts made of three
    non-empty runs of digits with one dot between them. *)
Theorem isValidVersion_three_digit_runs (version : string) :
  isValidVersion version = true <->
  exists d1 d2 d3, isDigits d1 /\ isDigits d2 /\ isDigits d3 /\
    version = d1 +:+ "." +:+ d2 +:+ "." +:+ d3.
Proof.
  split.
  - intros Hv. apply versionRegex_split in Hv as (d1 & d2 & d3 & H1 & H2 & H3 & ->).
    exists d1, d2, d3. repeat (split; [assumption |]). reflexivity.
  - intros (d1 & d2 & d3 & [H1 N1] & [H2 N2] & [H3 N3] & ->).
    unfold isValidVersion, versionRegex. rewrite !dot_append.
    rewrite digits1_dot, digits1_dot, digits1_end by assumption. reflexivity.
Qed.

Lemma compareFrom_three (a b c a' b' c' : N) :
  compareFrom 3 0 [Some a; Some b; Some c] [Some a'; Some b'; Some c']
  = compareNumbers [a; b; c] [a'; b'; c'].
Proof. reflexivity. Qed.

(** X12.  For valid versions whose numbers are safe integers (at most
    2^53 - 1) [getVersionParts] gives the three numbers written in the
    text, and [compareVersions] compares these numbers, major first: the
    result is 0 exactly when the three numbers agree, so leading zeros make
    no difference. *)
Theorem valid_versions_compare_by_numbers (v1 v2 : string) :
  isValidVersion v1 = true -> isValidVersion v2 = true ->
  safePieces v1 = true -> safePieces v2 = true ->
  exists a b c a' b' c',
    getVersionParts v1 = Some (mkVersionParts (Some a) (Some b) (Some c)) /\
    getVersionParts v2 = Some (mkVersionParts (Some a') (Some b') (Some c')) /\
    safeNumbers [a; b; c; a'; b'; c'] = true /\
    compareVersions v1 v2 = compareNumbers [a; b; c] [a'; b'; c'] /\
    (compareVersions v1 v2 = 0%Z <-> a = a' /\ b = b' /\ c = c').
Proof.
  intros H1 H2 S1 S2.
  destruct (valid_parts v1 H1) as (a & b & c & P1).
  destruct (valid_parts v2 H2) as (a' & b' & c' & P2).
  exists a, b, c, a', b', c'.
  unfold safePieces in S1, S2. rewrite P1 in S1. rewrite P2 in S2.
  unfold getVersionParts, compareVersions. rewrite H1, H2, P1, P2. simpl negb. cbv iota.
  split; [reflexivity |]. split; [reflexivity |].
  split.
  { simpl in S1, S2 |- *.
    repeat match goal with
    | H : _ && _ = true |- _ => apply andb_prop in H as [? ?]
    end.
    repeat (apply andb_true_intro; split); assumption || reflexivity. }
  split; [reflexivity |].
  cbn [List.length Nat.max compareFrom]. simpl.
  destruct (N.ltb_spec a a'), (N.ltb_spec a' a), (N.ltb_spec b b'), (N.ltb_spec b' b),
    (N.ltb_spec c c'), (N.ltb_spec c' c); split; intros Hcmp;
    try discriminate Hcmp; lia.
Qed.

Lemma valid_versions_compare_by_numbers_witness :
  exists a b c a' b' c',
    getVersionParts "01.2.3" = Some (mkVersionParts (Some a) (Some b) (Some c)) /\
    getVersionParts "1.02.3" = Some (mkVersionParts (Some a') (Some b') (Some c')) /\
    safeNumbers [a; b; c; a'; b'; c'] = true /\
    compareVersions "01.2.3" "1.02.3" = compareNumbers [a; b; c] [a'; b'; c'] /\
    (compareVersions "01.2.3" "1.02.3" = 0%Z <-> a = a' /\ b = b' /\ c = c').
Proof.
  apply (valid_versions_compare_by_numbers "01.2.3" "1.02.3"); reflexivity.
Defined.

Lemma isValidVersion_three_digit_runs_witness : isValidVersion "10.0.7" = true.
Proof.
  apply (isValidVersion_three_digit_runs "10.0.7").
  exists "10", "0", "7".
  repeat split; (reflexivity || discriminate).
Defined.

Lemma getVersionParts_valid (v : string) :
  isValidVersion v = true ->
  exists a b c, getVersionParts v = Some (mkVersionParts (Some a) (Some b) (Some c)).
Proof.
  intros Hv. destruct (valid_parts v Hv) as (a & b & c & P).
  exists a, b, c. unfold getVersionParts. rewrite Hv, P. reflexivity.
Qed.

Lemma getVersionParts_invalid (v : string) :
  isValidVersion v = false -> getVersionParts v = None.
Proof. intros Hv. unfold getVersionParts. rewrite Hv. reflexivity. Qed.

(** X13.  [areVersionsCompatible] holds of valid versions only, is
    symmetric and transitive, holds of a version with itself exactly when
    the version is valid, and on printed versions whose major numbers are
    safe integers (at most 2^53 - 1) tests the major numbers for
    equality. *)
Theorem areVersionsCompatible_partial_equivalence :
  (forall v1 v2, areVersionsCompatible v1 v2 = true ->
                 isValidVersion v1 = true /\ isValidVersion v2 = true) /\
  (forall v, areVersionsCompatible v v = isValidVersion v) /\
  (forall v1 v2, areVersionsCompatible v1 v2 = areVersionsCompatible v2 v1) /\
  (forall v1 v2 v3, areVersionsCompatible v1 v2 = true ->
                    areVersionsCompatible v2 v3 = true ->
                    areVersionsCompatible v1 v3 = true) /\
  (forall a b c a' b' c' : N,
      safeNumbers [a; a'] = true ->
      areVersionsCompatible (versionString a b c) (versionString a' b' c')
      = (a =? a')%N).
Proof.
  assert (Hshape : forall v,
    (isValidVersion v = true /\
     exists a b c, getVersionParts v = Some (mkVersionParts (Some a) (Some b) (Some c)))
    \/ (isValidVersion v = false /\ getVersionParts v = None)).
  { intros v. destruct (isValidVersion v) eqn:Hv.
    - left. split; [reflexivity |]. apply getVersionParts_valid, Hv.
    - right. split; [reflexivity |]. apply getVersionParts_invalid, Hv. }
  split; [| split; [| split; [| split]]].
  - intros v1 v2. unfold areVersionsCompatible.
    destruct (Hshape v1) as [(-> & _) | (_ & ->)]; [| discriminate].
    destruct (Hshape v2) as [(-> & _) | (_ & ->)]; [auto |].
    destruct (getVersionParts v1); discriminate.
  - intros v. unfold areVersionsCompatible.
    destruct (Hshape v) as [(-> & a & b & c & ->) | (-> & ->)]; [| reflexivity].
    simpl. apply N.eqb_refl.
  - intros v1 v2. unfold areVersionsCompatible.
    destruct (Hshape v1) as [(_ & a & b & c & ->) | (_ & ->)],
      (Hshape v2) as [(_ & a' & b' & c' & ->) | (_ & ->)]; try reflexivity.
    simpl. apply N.eqb_sym.
  - intros v1 v2 v3. unfold areVersionsCompatible.
    destruct (Hshape v1) as [(_ & a & b & c & ->) | (_ & ->)]; [| discriminate].
    destruct (Hshape v2) as [(_ & a' & b' & c' & ->) | (_ & ->)]; [| discriminate].
    destruct (Hshape v3) as [(_ & a'' & b'' & c'' & ->) | (_ & ->)]; [| discriminate].
    simpl. rewrite !N.eqb_eq. congruence.
  - intros a b c a' b' c' _. unfold areVersionsCompatible, getVersionParts.
    rewrite !isValidVersion_versionString, !parts_versionString. reflexivity.
Qed.

Lemma areVersionsCompatible_partial_equivalence_witness :
  isValidVersion "1.2.3" = true /\ isValidVersion "01.0.0" = true /\
  areVersionsCompatible "1.2.3" "1.9.0" = true /\
  areVersionsCompatible (versionString 1 2 3) (versionString 2 0 0) = false.
Proof.
  destruct areVersionsCompatible_partial_equivalence
    as (Hvalid & _ & _ & Htrans & Hmajor).
  destruct (Hvalid "1.2.3" "01.0.0") as [H1 H2]; [reflexivity |].
  split; [exact H1 |]. split; [exact H2 |].
  split; [apply (Htrans "1.2.3" "01.0.0" "1.9.0"); reflexivity |].
  rewrite (Hmajor 1%N 2%N 3%N 2%N 0%N 0%N); reflexivity.
Defined.

Lemma latestFrom_spec (rest seen : list WheelDefinitionWithPresets) :
  forall latest,
    In latest seen ->
    (forall wheel v, In wheel seen -> truthyVersion wheel = Some v ->
       exists lv, truthyVersion latest = Some lv /\ (compareVersions v lv <= 0)%Z) ->
    In (latestFrom latest rest) (seen ++ rest) /\
    (forall wheel v, In wheel (seen ++ rest) -> truthyVersion wheel = Some v ->
       exists lv, truthyVersion (latestFrom latest rest) = Some lv /\
                  (compareVersions v lv <= 0)%Z).
Proof.
  revert seen. induction rest as [| next rest IH]; intros seen latest Hin Hmax.
  - rewrite app_nil_r. simpl. split; assumption.
  - simpl latestFrom.
    replace (seen ++ next :: rest) with ((seen ++ [next]) ++ rest)
      by (rewrite <- app_assoc; reflexivity).
    apply IH.
    + destruct (truthyVersion next) as [nv |], (truthyVersion latest) as [lv |];
        try destruct (isNewerVersion nv lv);
        rewrite in_app_iff; simpl; auto.
    + intros wheel v Hwheel Hv. rewrite in_app_iff in Hwheel. simpl in Hwheel.
      destruct Hwheel as [Hseen | [<- | []]].
      * destruct (Hmax wheel v Hseen Hv) as (lv & Hlv & Hle). rewrite Hlv.
        destruct (truthyVersion next) as [nv |] eqn:Hnv; [| eauto].
        unfold isNewerVersion.
        destruct (Z.ltb_spec 0 (compareVersions nv lv)) as [Hnew | Hold]; [| eauto].
        exists nv. split; [exact Hnv |].
        apply (compareVersions_trans v lv nv); [exact Hle |].
        rewrite compareVersions_antisym. lia.
      * rewrite Hv.
        destruct (truthyVersion latest) as [lv |] eqn:Hlv.
        -- unfold isNewerVersion.
           destruct (Z.ltb_spec 0 (compareVersions v lv)) as [Hnew | Hold].
           ++ exists v. split; [exact Hv |]. rewrite compareVersions_refl. lia.
           ++ exists lv. split; [exact Hlv | exact Hold].
        -- exists v. split; [exact Hv |]. rewrite compareVersions_refl. lia.
Qed.

(** X14.  On wheels whose versions, where present, are valid,
    [getLatestVersion] returns [null] for the empty list only.  Otherwise
    it returns one of the wheels, and no wheel of the list that has a
    version is newer than it: when some wheel has a version the wheel
    returned has one too. *)
Theorem getLatestVersion_is_newest (wheels : list WheelDefinitionWithPresets) :
  (forall wheel v, In wheel wheels -> truthyVersion wheel = Some v ->
                   isValidVersion v = true) ->
  (getLatestVersion wheels = None <-> wheels = []) /\
  (forall latest, getLatestVersion wheels = Some latest ->
     In latest wheels /\
     forall wheel v, In wheel wheels -> truthyVersion wheel = Some v ->
       exists lv, truthyVersion latest = Some lv /\ isNewerVersion v lv = false).
Proof.
  intros _. split.
  - destruct wheels; simpl; split; intros H; (reflexivity || discriminate).
  - intros latest Hlatest. destruct wheels as [| first rest]; [discriminate |].
    simpl in Hlatest. injection Hlatest as <-.
    destruct (latestFrom_spec rest [first] first) as [Hin Hmax].
    + simpl. auto.
    + intros wheel v [<- | []] Hv. exists v. split; [exact Hv |].
      rewrite compareVersions_refl. lia.
    + split; [exact Hin |]. intros wheel v Hwheel Hv.
      destruct (Hmax wheel v Hwheel Hv) as (lv & Hlv & Hle).
      exists lv. split; [exact Hlv |]. unfold isNewerVersion.
      apply Z.ltb_ge. exact Hle.
Qed.

Lemma getLatestVersion_is_newest_witness :
  In Scenarios.userStandardNatal [standardNatal; Scenarios.userStandardNatal] /\
  exists lv, truthyVersion Scenarios.userStandardNatal = Some lv /\
             isNewerVersion "1.0.0" lv = false.
Proof.
  destruct (getLatestVersion_is_newest [standardNatal; Scenarios.userStandardNatal])
    as [_ Hnewest].
  { intros wheel v [<- | [<- | []]] [= <-]; reflexivity. }
  destruct (Hnewest Scenarios.userStandardNatal) as [Hin Hmax]; [reflexivity |].
  split; [exact Hin |].
  apply (Hmax standardNatal "1.0.0"); [left; reflexivity | reflexivity].
Defined.

End VersionOrderFacts.

(** ** Runs of the migration loop *)

Section MigrationRunFacts.
Import Text Wheels Versioning Migration VersionQueries Scenarios.
Import SafeIntegers MigrationRuns.

Implicit Types migrations : gmap string (list MigrationFunction).

Lemma compare_parts (v1 v2 : string) (a b c a' b' c' : N) :
  map Number (split "." v1) = [Some a; Some b; Some c] ->
  map Number (split "." v2) = [Some a'; Some b'; Some c'] ->
  compareVersions v1 v2 = compareNumbers [a; b; c] [a'; b'; c'].
Proof. intros P1 P2. unfold compareVersions. rewrite P1, P2. reflexivity. Qed.

Lemma next_parts (v : string) (a b c : N) :
  map Number (split "." v) = [Some a; Some b; Some c] ->
  getNextVersion v = Some (versionString a b (N.succ c)).
Proof. intros P. unfold getNextVersion. rewrite P. reflexivity. Qed.

(** One round of the loop, whatever is registered: the loop goes on with
    the next patch version, or leaves with one more error. *)
Lemma migrationLoop_round migrations targetVersion fuel current currentVersion
    nextVersion errors :
  (compareVersions currentVersion targetVersion <? 0)%Z = true ->
  getNextVersion currentVersion = Some nextVersion ->
  (exists current',
     migrationLoop migrations targetVersion (S fuel) current currentVersion errors
     = migrationLoop migrations targetVersion fuel
         (withVersion current' nextVersion) nextVersion errors) \/
  (exists current' message,
     migrationLoop migrations targetVersion (S fuel) current currentVersion errors
     = Some (current', errors ++ [message])).
Proof.
  intros Hcmp Hnext. simpl. rewrite Hcmp, Hnext. simpl.
  destruct (migrations !! (currentVersion +:+ "->" +:+ nextVersion))
    as [[| f fs] |] eqn:Hkey; try (left; exists current; reflexivity).
  destruct (applyMigrations (f :: fs) current) as [current' [t |]].
  - right. eexists _, _. reflexivity.
  - left. exists current'. reflexivity.
Qed.

Lemma more_errors (errors : list string) (message : string) :
  errors ++ [message] <> errors.
Proof.
  intros H. apply (f_equal (@List.length string)) in H.
  rewrite length_app in H. simpl in H. lia.
Qed.

Lemma compareNumbers_step (a b c a' b' c' : N) :
  (compareNumbers [a; b; c] [a'; b'; c'] <? 0)%Z = true ->
  (compareNumbers [a; b; N.succ c] [a'; b'; c'] <? 0)%Z = false ->
  a = a' /\ b = b' /\ N.succ c = c'.
Proof.
  simpl.
  destruct (N.ltb_spec a a'), (N.ltb_spec a' a), (N.ltb_spec b b'), (N.ltb_spec b' b),
    (N.ltb_spec c c'), (N.ltb_spec c' c), (N.ltb_spec (N.succ c) c'),
    (N.ltb_spec c' (N.succ c)); simpl; intros Hlt Hge; try discriminate; lia.
Qed.

(** A run of the loop that leaves without a new error leaves at the
    target version. *)
Lemma migrationLoop_leaves_at_target migrations targetVersion (a b a' b' c' : N) :
  map Number (split "." targetVersion) = [Some a'; Some b'; Some c'] ->
  forall (fuel : nat) (c : N) current currentVersion errors result,
    map Number (split "." currentVersion) = [Some a; Some b; Some c] ->
    (compareVersions currentVersion targetVersion <? 0)%Z = true ->
    migrationLoop migrations targetVersion fuel current currentVersion errors
    = Some (result, errors) ->
    version result = Some (versionString a' b' c').
Proof.
  intros Ptarget. induction fuel as [| fuel IH];
    intros c current currentVersion errors result Pcurrent Hcmp Hrun.
  - simpl in Hrun. rewrite Hcmp in Hrun. discriminate.
  - pose proof (next_parts _ _ _ _ Pcurrent) as Hnext.
    destruct (migrationLoop_round migrations targetVersion fuel current currentVersion
                _ errors Hcmp Hnext) as [[current' Hstep] | (current' & message & Hstop)].
    + rewrite Hstep in Hrun.
      destruct (compareVersions (versionString a b (N.succ c)) targetVersion <? 0)%Z
        eqn:Hcmp'.
      * apply (IH (N.succ c) _ _ _ _ (parts_versionString _ _ _) Hcmp' Hrun).
      * rewrite migrationLoop_stop in Hrun by exact Hcmp'.
        injection Hrun as <-. simpl. f_equal.
        rewrite (compare_parts _ _ _ _ _ _ _ _ Pcurrent Ptarget) in Hcmp.
        rewrite (compare_parts _ _ _ _ _ _ _ _ (parts_versionString _ _ _) Ptarget)
          in Hcmp'.
        destruct (compareNumbers_step _ _ _ _ _ _ Hcmp Hcmp') as (-> & -> & ->).
        reflexivity.
    + rewrite Hstop in Hrun. injection Hrun as _ Herr.
      destruct (more_errors _ _ Herr).
Qed.

(** A run of the loop adds no error or exactly one. *)
Lemma migrationLoop_errors migrations targetVersion (a b : N) :
  forall (fuel : nat) (c : N) current currentVersion errors result errors',
    map Number (split "." currentVersion) = [Some a; Some b; Some c] ->
    migrationLoop migrations targetVersion fuel current currentVersion errors
    = Some (result, errors') ->
    errors' = errors \/ exists message, errors' = errors ++ [message].
Proof.
  induction fuel as [| fuel IH];
    intros c current currentVersion errors result errors' Pcurrent Hrun.
  - simpl in Hrun. destruct (negb _); [| discriminate].
    injection Hrun as _ <-. left. reflexivity.
  - destruct (compareVersions currentVersion targetVersion <? 0)%Z eqn:Hcmp.
    + pose proof (next_parts _ _ _ _ Pcurrent) as Hnext.
      destruct (migrationLoop_round migrations targetVersion fuel current
                  currentVersion _ errors Hcmp Hnext)
        as [[current' Hstep] | (current' & message & Hstop)].
      * rewrite Hstep in Hrun.
        apply (IH (N.succ c) _ _ _ _ _ (parts_versionString _ _ _) Hrun).
      * rewrite Hstop in Hrun. injection Hrun as _ <-. right. eauto.
    + rewrite migrationLoop_stop in Hrun by exact Hcmp.
      injection Hrun as _ <-. left. reflexivity.
Qed.

Lemma migrate_loop_form migrations fuel definition targetVersion :
  needsMigration definition targetVersion = true ->
  exists sourceVersion a b c a' b' c',
    version definition = Some sourceVersion /\
    map Number (split "." sourceVersion) = [Some a; Some b; Some c] /\
    map Number (split "." targetVersion) = [Some a'; Some b'; Some c'] /\
    (compareVersions sourceVersion targetVersion <? 0)%Z = true /\
    migrateWheelDefinition migrations fuel definition targetVersion =
    match migrationLoop migrations targetVersion fuel definition sourceVersion [] with
    | None => None
    | Some (current, errors) =>
        Some (if (0 <? List.length errors)%nat then failure errors
              else succeeded current)
    end.
Proof.
  unfold needsMigration, migrateWheelDefinition.
  destruct (version definition) as [sourceVersion |]; [| discriminate].
  destruct (String.eqb sourceVersion EmptyString); [discriminate |].
  destruct (isValidVersion sourceVersion) eqn:Hsource; [| discriminate].
  destruct (isValidVersion targetVersion) eqn:Htarget; [| discriminate].
  simpl. intros Hcmp.
  destruct (valid_parts _ Hsource) as (a & b & c & Ps).
  destruct (valid_parts _ Htarget) as (a' & b' & c' & Pt).
  exists sourceVersion, a, b, c, a', b', c'.
  repeat (split; [assumption || reflexivity |]).
  apply Z.ltb_lt in Hcmp.
  destruct (Z.eqb_spec (compareVersions sourceVersion targetVersion) 0); [lia |].
  destruct (Z.ltb_spec 0 (compareVersions sourceVersion targetVersion)); [lia |].
  reflexivity.
Qed.

Lemma migrate_no_loop migrations fuel definition targetVersion :
  needsMigration definition targetVersion = false ->
  migrateWheelDefinition migrations fuel definition targetVersion
  = migrateWheelDefinition ∅ 0 definition targetVersion /\
  exists result,
    migrateWheelDefinition ∅ 0 definition targetVersion = Some result /\
    (success result = true ->
     migrated result = Some definition /\
     exists v, version definition = Some v /\ isValidVersion v = true /\
               compareVersions v targetVersion = 0%Z) /\
    (success result = false ->
     migrated result = None /\ exists message, errors result = Some [message]).
Proof.
  unfold needsMigration, migrateWheelDefinition.
  destruct (version definition) as [sourceVersion |];
    [| intros _; split; [reflexivity |]; eexists; split; [reflexivity |];
       split; [discriminate | intros _; split; [reflexivity | eexists; reflexivity]]].
  destruct (String.eqb sourceVersion EmptyString);
    [intros _; split; [reflexivity |]; eexists; split; [reflexivity |];
     split; [discriminate | intros _; split; [reflexivity | eexists; reflexivity]] |].
  destruct (isValidVersion sourceVersion) eqn:Hsource;
    [| intros _; split; [reflexivity |]; eexists; split; [reflexivity |];
       split; [discriminate | intros _; split; [reflexivity | eexists; reflexivity]]].
  destruct (isValidVersion targetVersion) eqn:Htarget;
    [| intros _; split; [reflexivity |]; eexists; split; [reflexivity |];
       split; [discriminate | intros _; split; [reflexivity | eexists; reflexivity]]].
  simpl. intros Hcmp. apply Z.ltb_ge in Hcmp.
  destruct (Z.eqb_spec (compareVersions sourceVersion targetVersion) 0) as [Heq | Hne].
  - split; [reflexivity |]. eexists. split; [reflexivity |]. split; [| discriminate].
    intros _. split; [reflexivity |]. exists sourceVersion. auto.
  - destruct (Z.ltb_spec 0 (compareVersions sourceVersion targetVersion)); [| lia].
    split; [reflexivity |]. eexists. split; [reflexivity |].
    split; [discriminate | intros _; split; [reflexivity | eexists; reflexivity]].
Qed.

(** X15.  [needsMigration] tells exactly when [migrateWheelDefinition]
    enters its loop.  When it is false the call returns at once with a
    result that depends neither on the registered migrations nor on the
    rounds allowed, and a success carries the definition unchanged. *)
Theorem needsMigration_decides_loop migrations definition targetVersion :
  (needsMigration definition targetVersion = true <->
   migrateWheelDefinition migrations 0 definition targetVersion = None) /\
  (needsMigration definition targetVersion = false ->
   exists result,
     (forall migrations' fuel,
         migrateWheelDefinition migrations' fuel definition targetVersion
         = Some result) /\
     (success result = true -> migrated result = Some definition)).
Proof.
  split; [split |].
  - intros Hneed.
    destruct (migrate_loop_form migrations 0 _ _ Hneed)
      as (sv & a & b & c & a' & b' & c' & _ & _ & _ & Hcmp & ->).
    simpl. rewrite Hcmp. reflexivity.
  - intros Hnone. destruct (needsMigration definition targetVersion) eqn:Hneed;
      [reflexivity |].
    destruct (migrate_no_loop migrations 0 _ _ Hneed) as (E & result & Hr & _).
    rewrite E, Hr in Hnone. discriminate.
  - intros Hneed.
    destruct (migrate_no_loop ∅ 0 _ _ Hneed) as (_ & result & Hr & Hok & _).
    exists result. split.
    + intros migrations' fuel.
      destruct (migrate_no_loop migrations' fuel _ _ Hneed) as (-> & _). exact Hr.
    + intros Hs. apply Hok, Hs.
Qed.

Lemma needsMigration_decides_loop_witness :
  needsMigration standardNatal "1.0.3" = true /\
  exists result,
    (forall migrations' fuel,
        migrateWheelDefinition migrations' fuel standardNatal "1.0.0" = Some result) /\
    (success result = true -> migrated result = Some standardNatal).
Proof.
  split.
  - destruct (needsMigration_decides_loop ∅ standardNatal "1.0.3") as [[_ Hloop] _].
    apply Hloop. reflexivity.
  - destruct (needsMigration_decides_loop ∅ standardNatal "1.0.0") as [_ Hnone].
    apply Hnone. reflexivity.
Defined.

(** With more rounds allowed, a run that has left the loop leaves it the
    same way. *)
Lemma migrationLoop_more_fuel migrations targetVersion :
  forall (fuel fuel' : nat) current currentVersion errors result,
    (fuel <= fuel')%nat ->
    migrationLoop migrations targetVersion fuel current currentVersion errors
    = Some result ->
    migrationLoop migrations targetVersion fuel' current currentVersion errors
    = Some result.
Proof.
  induction fuel as [| fuel IH];
    intros fuel' current currentVersion errors result Hle Hrun.
  - simpl in Hrun.
    destruct (compareVersions currentVersion targetVersion <? 0)%Z eqn:Hcmp;
      [discriminate |].
    rewrite migrationLoop_stop by exact Hcmp. exact Hrun.
  - destruct fuel' as [| fuel']; [lia |]. simpl in Hrun |- *.
    destruct (negb (compareVersions currentVersion targetVersion <? 0)%Z);
      [exact Hrun |].
    destruct (getNextVersion currentVersion) as [nextVersion |]; [| exact Hrun].
    destruct (migrations !! (currentVersion +:+ "->" +:+ nextVersion))
      as [[| f fs] |]; try (apply (IH fuel'); [lia | exact Hrun]).
    destruct (applyMigrations (f :: fs) current) as [current' [t |]];
      [exact Hrun | apply (IH fuel'); [lia | exact Hrun]].
Qed.

Lemma migrate_more_fuel migrations fuel fuel' definition targetVersion result :
  (fuel <= fuel')%nat ->
  migrateWheelDefinition migrations fuel definition targetVersion = Some result ->
  migrateWheelDefinition migrations fuel' definition targetVersion = Some result.
Proof.
  intros Hle. unfold migrateWheelDefinition.
  destruct (version definition) as [sourceVersion |]; [| auto].
  destruct (String.eqb sourceVersion EmptyString); [auto |].
  destruct (negb (isValidVersion sourceVersion)); [auto |].
  destruct (negb (isValidVersion targetVersion)); [auto |].
  destruct (compareVersions sourceVersion targetVersion =? 0)%Z; [auto |].
  destruct (0 <? compareVersions sourceVersion targetVersion)%Z; [auto |].
  destruct (migrationLoop migrations targetVersion fuel definition sourceVersion [])
    as [[current errs] |] eqn:Hloop; [| discriminate].
  rewrite (migrationLoop_more_fuel _ _ _ _ _ _ _ _ Hle Hloop). auto.
Qed.

(** X16.  As long as the numbers of the two versions are safe integers
    (at most 2^53 - 1) and the patch number stays one through the rounds
    allowed, whatever [migrateWheelDefinition] returns is either a success
    with no [errors] and a definition whose version is valid and compares
    equal to the target, or a failure with no definition and exactly one
    message; and allowing the loop more rounds does not change a result
    once returned. *)
Theorem migration_result_shape migrations fuel definition targetVersion result :
  (forall sourceVersion,
      version definition = Some sourceVersion ->
      safePieces sourceVersion = true /\ safePieces targetVersion = true /\
      (pieceAt sourceVersion 2 + N.of_nat fuel <= maxSafeInteger)%N) ->
  migrateWheelDefinition migrations fuel definition targetVersion = Some result ->
  (forall fuel', (fuel <= fuel')%nat ->
     migrateWheelDefinition migrations fuel' definition targetVersion = Some result) /\
  ((success result = true /\ errors result = None /\
    exists current v,
      migrated result = Some current /\ version current = Some v /\
      isValidVersion v = true /\ compareVersions v targetVersion = 0%Z) \/
   (success result = false /\ migrated result = None /\
    exists message, errors result = Some [message])).
Proof.
  intros _ Hrun. split.
  { intros fuel' Hle. apply (migrate_more_fuel _ fuel); assumption. }
  destruct (needsMigration definition targetVersion) eqn:Hneed.
  - destruct (migrate_loop_form migrations fuel _ _ Hneed)
      as (sv & a & b & c & a' & b' & c' & Hv & Ps & Pt & Hcmp & E).
    rewrite E in Hrun.
    destruct (migrationLoop migrations targetVersion fuel definition sv [])
      as [[current errs] |] eqn:Hloop; [| discriminate].
    injection Hrun as <-.
    destruct (migrationLoop_errors _ _ _ _ _ _ _ _ _ _ _ Ps Hloop)
      as [-> | [message ->]].
    + left. simpl. split; [reflexivity |]. split; [reflexivity |].
      exists current, (versionString a' b' c'). split; [reflexivity |].
      split; [apply (migrationLoop_leaves_at_target _ _ _ _ _ _ _ Pt _ _ _ _ _ _
                       Ps Hcmp Hloop) |].
      split; [apply isValidVersion_versionString |].
      rewrite (compare_parts _ _ _ _ _ _ _ _ (parts_versionString _ _ _) Pt).
      simpl. rewrite !N.ltb_irrefl. reflexivity.
    + right. simpl. split; [reflexivity |]. split; [reflexivity |].
      exists message. reflexivity.
  - destruct (migrate_no_loop migrations fuel _ _ Hneed)
      as (E & result' & Hr & Hok & Hfail).
    rewrite E, Hr in Hrun. injection Hrun as <-.
    destruct (success result') eqn:Hs.
    + left. destruct (Hok eq_refl) as (Hm & v & Hv & Hvalid & Hcmp).
      split; [reflexivity |]. split.
      * unfold migrateWheelDefinition in Hr. rewrite Hv, Hvalid, Hcmp in Hr.
        destruct (String.eqb v EmptyString);
          [injection Hr as <-; discriminate |].
        simpl in Hr. destruct (isValidVersion targetVersion);
          simpl in Hr; injection Hr as <-; [reflexivity | discriminate].
      * exists definition, v. auto.
    + right. destruct (Hfail eq_refl) as (Hm & message & Hmsg).
      split; [reflexivity |]. split; [exact Hm |]. exists message. exact Hmsg.
Qed.

Lemma migration_result_shape_witness :
  migrateWheelDefinition ∅ 7 standardNatal "1.0.3"
  = Some (succeeded (withVersion standardNatal "1.0.3")) /\
  compareVersions "1.0.3" "1.0.3" = 0%Z.
Proof.
  destruct (migration_result_shape ∅ 3 standardNatal "1.0.3"
              (succeeded (withVersion standardNatal "1.0.3")))
    as [Hmore _].
  - intros sourceVersion [= <-].
    split; [reflexivity |]. split; [reflexivity |]. vm_compute. discriminate.
  - reflexivity.
  - split; [apply Hmore; lia | reflexivity].
Defined.

Lemma getVersionParts_parts (v : string) (a b c : N) :
  getVersionParts v = Some (mkVersionParts (Some a) (Some b) (Some c)) ->
  isValidVersion v = true /\
  map Number (split "." v) = [Some a; Some b; Some c].
Proof.
  unfold getVersionParts. destruct (isValidVersion v) eqn:Hv; [| discriminate].
  destruct (valid_parts v Hv) as (x & y & z & ->). simpl.
  intros [= -> -> ->]. split; reflexivity.
Qed.

Lemma valid_nonempty (v : string) :
  isValidVersion v = true -> String.eqb v EmptyString = false.
Proof. destruct v; [discriminate | reflexivity]. Qed.

(** Within one major.minor line the loop leaves after at most as many
    rounds as the patch numbers differ, whatever is registered. *)
Lemma migrationLoop_returns migrations targetVersion (a b c' : N) :
  map Number (split "." targetVersion) = [Some a; Some b; Some c'] ->
  forall (n fuel : nat) (c : N) current currentVersion errors,
    map Number (split "." currentVersion) = [Some a; Some b; Some c] ->
    (c' <= c + N.of_nat n)%N -> (n <= fuel)%nat ->
    exists result,
      migrationLoop migrations targetVersion fuel current currentVersion errors
      = Some result.
Proof.
  intros Pt. induction n as [| n IH];
    intros fuel c current currentVersion errors Pc Hn Hfuel;
    destruct (compareVersions currentVersion targetVersion <? 0)%Z eqn:Hcmp;
    try (rewrite migrationLoop_stop by exact Hcmp; eauto).
  - rewrite (compare_parts _ _ _ _ _ _ _ _ Pc Pt) in Hcmp. simpl in Hcmp.
    rewrite !N.ltb_irrefl in Hcmp.
    destruct (N.ltb_spec c c'); [lia |]. destruct (c' <? c)%N; discriminate.
  - destruct fuel as [| fuel]; [lia |].
    destruct (migrationLoop_round migrations targetVersion fuel current currentVersion
                _ errors Hcmp (next_parts _ _ _ _ Pc))
      as [[current' ->] | (current' & message & ->)]; [| eauto].
    apply (IH fuel (N.succ c)); [apply parts_versionString | lia | lia].
Qed.

(** Towards a later major or minor line the loop condition holds after
    every round, as long as no migration function throws. *)
Lemma migrationLoop_never_leaves migrations targetVersion (a b a' b' c' : N) :
  neverThrows migrations ->
  map Number (split "." targetVersion) = [Some a'; Some b'; Some c'] ->
  (a < a')%N \/ (a = a' /\ (b < b')%N) ->
  forall (fuel : nat) (c : N) current currentVersion errors,
    map Number (split "." currentVersion) = [Some a; Some b; Some c] ->
    migrationLoop migrations targetVersion fuel current currentVersion errors = None.
Proof.
  intros Hnt Pt Hline.
  assert (Hcmp : forall c currentVersion,
             map Number (split "." currentVersion) = [Some a; Some b; Some c] ->
             (compareVersions currentVersion targetVersion <? 0)%Z = true).
  { intros c currentVersion Pc. rewrite (compare_parts _ _ _ _ _ _ _ _ Pc Pt). simpl.
    destruct Hline as [Hlt | [-> Hlt]]; apply N.ltb_lt in Hlt;
      rewrite ?N.ltb_irrefl, Hlt; reflexivity. }
  induction fuel as [| fuel IH]; intros c current currentVersion errors Pc.
  - simpl. rewrite (Hcmp c _ Pc). reflexivity.
  - destruct (migrationLoop_step_neverThrows migrations targetVersion fuel current
                currentVersion _ errors Hnt (Hcmp c _ Pc) (next_parts _ _ _ _ Pc))
      as [current' ->].
    apply (IH (N.succ c)), parts_versionString.
Qed.

(** X17.  For a definition with a valid version and a valid target whose
    numbers are safe integers (at most 2^53 - 1):
    when the target is not on a later major.minor line,
    [migrateWheelDefinition] returns after at most as many rounds of its
    loop as the patch numbers differ, whatever is registered; when the
    target is on a later major or minor line and no registered migration
    throws, it does not return after any number of rounds. *)
Theorem migration_returns_within_line migrations definition
    (sourceVersion targetVersion : string) (a b c a' b' c' : N) :
  version definition = Some sourceVersion ->
  getVersionParts sourceVersion = Some (mkVersionParts (Some a) (Some b) (Some c)) ->
  getVersionParts targetVersion = Some (mkVersionParts (Some a') (Some b') (Some c')) ->
  safeNumbers [a; b; c; a'; b'; c'] = true ->
  ((a' < a)%N \/ (a = a' /\ (b' <= b)%N) ->
   forall fuel, (N.to_nat (c' - c) <= fuel)%nat ->
     exists result,
       migrateWheelDefinition migrations fuel definition targetVersion = Some result) /\
  ((a < a')%N \/ (a = a' /\ (b < b')%N) ->
   neverThrows migrations ->
   forall fuel, migrateWheelDefinition migrations fuel definition targetVersion = None).
Proof.
  intros Hv Hs Ht _.
  apply getVersionParts_parts in Hs as [Vs Ps].
  apply getVersionParts_parts in Ht as [Vt Pt].
  assert (Hneed : needsMigration definition targetVersion
                  = (compareNumbers [a; b; c] [a'; b'; c'] <? 0)%Z).
  { unfold needsMigration. rewrite Hv, Vs, Vt, (valid_nonempty _ Vs). simpl negb.
    cbv iota. rewrite (compare_parts _ _ _ _ _ _ _ _ Ps Pt). reflexivity. }
  split.
  - intros Hline fuel Hfuel.
    destruct (needsMigration definition targetVersion) eqn:Hneeded.
    + destruct (migrate_loop_form migrations fuel _ _ Hneeded)
        as (sv & a0 & b0 & c0 & a0' & b0' & c0' & Hv' & Ps' & Pt' & Hcmp & ->).
      rewrite Hv in Hv'. injection Hv' as <-.
      assert (a = a' /\ b = b') as [<- <-].
      { symmetry in Hneed. simpl in Hneed.
        destruct (N.ltb_spec a a'), (N.ltb_spec a' a), (N.ltb_spec b b'),
          (N.ltb_spec b' b); try discriminate; lia. }
      destruct (migrationLoop_returns migrations targetVersion a b c' Pt
                  (N.to_nat (c' - c)) fuel c definition sourceVersion [] Ps)
        as [[current errs] ->]; [lia | lia |]. eauto.
    + destruct (migrate_no_loop migrations fuel _ _ Hneeded) as (-> & result & -> & _).
      eauto.
  - intros Hline Hnt fuel.
    assert (Hneeded : needsMigration definition targetVersion = true).
    { rewrite Hneed. simpl.
      destruct Hline as [Hlt | [-> Hlt]]; apply N.ltb_lt in Hlt;
        rewrite ?N.ltb_irrefl, Hlt; reflexivity. }
    destruct (migrate_loop_form migrations fuel _ _ Hneeded)
      as (sv & a0 & b0 & c0 & a0' & b0' & c0' & Hv' & Ps' & Pt' & Hcmp & ->).
    rewrite Hv in Hv'. injection Hv' as <-.
    rewrite (migrationLoop_never_leaves migrations targetVersion a b a' b' c' Hnt Pt
               Hline fuel c definition sourceVersion [] Ps).
    reflexivity.
Qed.

Lemma migration_returns_within_line_witness :
  (exists result,
      migrateWheelDefinition (registerMigration "1.0.0" "1.0.1" failingMigration ∅) 5
        standardNatal "01.00.5" = Some result) /\
  migrateWheelDefinition ∅ 1000 standardNatal "1.01.0" = None.
Proof.
  split.
  - destruct (migration_returns_within_line
                (registerMigration "1.0.0" "1.0.1" failingMigration ∅)
                standardNatal "1.0.0" "01.00.5" 1 0 0 1 0 5) as [Hret _];
      [reflexivity | reflexivity | reflexivity | reflexivity |].
    apply Hret; [right; split; [reflexivity | discriminate] | simpl; lia].
  - destruct (migration_returns_within_line ∅ standardNatal "1.0.0" "1.01.0"
                1 0 0 1 1 0) as [_ Hnever];
      [reflexivity | reflexivity | reflexivity | reflexivity |].
    apply Hnever; [right; split; reflexivity | apply neverThrows_empty].
Defined.

Lemma registerMigration_lookup migrations (fromVersion toVersion key : string)
    (migration : MigrationFunction) :
  registerMigration fromVersion toVersion migration migrations !! key
  = if decide (key = fromVersion +:+ "->" +:+ toVersion)
    then Some (default [] (migrations !! key) ++ [migration])
    else migrations !! key.
Proof.
  unfold registerMigration. destruct (decide _) as [-> | Hne].
  - apply lookup_insert_eq.
  - apply lookup_insert_ne. congruence.
Qed.

(** X18.  Migration functions registered for the same step, between
    versions whose numbers are safe integers (at most 2^53 - 1), run in
    the order of their registration, each on the result of the one before,
    and the version they leave is overwritten by the step's target
    version. *)
Theorem registered_migrations_run_in_order
    (first second : WheelDefinitionWithPresets -> WheelDefinitionWithPresets)
    definition (a b c : N) (fuel : nat) :
  version definition = Some (versionString a b c) ->
  safeNumbers [a; b; N.succ c] = true ->
  migrateWheelDefinition
    (registerMigration (versionString a b c) (versionString a b (N.succ c))
       (fun d => inl (second d))
       (registerMigration (versionString a b c) (versionString a b (N.succ c))
          (fun d => inl (first d)) ∅))
    (S fuel) definition (versionString a b (N.succ c))
  = Some (succeeded (withVersion (second (first definition))
                       (versionString a b (N.succ c)))).
Proof.
  intros Hv _.
  assert (Hcmp : compareVersions (versionString a b c) (versionString a b (N.succ c))
                 = (-1)%Z)
    by (apply compare_patch_lt; lia).
  rewrite (migrate_enters_loop _ _ _ a b c) by assumption.
  simpl migrationLoop. rewrite Hcmp. simpl.
  rewrite getNextVersion_versionString.
  rewrite !registerMigration_lookup.
  destruct (decide (versionString a b c +:+ "->" +:+ versionString a b (N.succ c)
                    = versionString a b c +:+ "->" +:+ versionString a b (N.succ c)));
    [| contradiction].
  rewrite lookup_empty. simpl.
  rewrite migrationLoop_stop; [reflexivity |].
  rewrite compare_same. reflexivity.
Qed.

Lemma registered_migrations_run_in_order_witness :
  migrateWheelDefinition
    (registerMigration "1.0.0" "1.0.1" (fun d => inl (withVersion d "9.9.9"))
       (registerMigration "1.0.0" "1.0.1" (fun d => inl d) ∅))
    1 standardNatal "1.0.1"
  = Some (succeeded (withVersion standardNatal "1.0.1")).
Proof.
  apply (registered_migrations_run_in_order
           (fun d => d) (fun d => withVersion d "9.9.9") standardNatal 1 0 0 0);
    reflexivity.
Defined.

Lemma allReturn_applyMigrations migrationFunctions current final :
  allReturn migrationFunctions current final ->
  applyMigrations migrationFunctions current = (final, None).
Proof.
  induction 1 as [current | migration rest current next final Hcall _ IH]; simpl.
  - reflexivity.
  - rewrite Hcall. exact IH.
Qed.

Lemma oneThrows_applyMigrations migrationFunctions current t :
  oneThrows migrationFunctions current t ->
  exists left, applyMigrations migrationFunctions current = (left, Some t).
Proof.
  induction 1 as [migration rest current t Hcall
                 | migration rest current next t Hcall _ IH]; simpl.
  - rewrite Hcall. eauto.
  - rewrite Hcall. exact IH.
Qed.

(** A round in which every function returns goes on with the next
    version. *)
Lemma migrationLoop_round_returns migrations targetVersion fuel current currentVersion
    nextVersion stepped errors :
  (compareVersions currentVersion targetVersion <? 0)%Z = true ->
  getNextVersion currentVersion = Some nextVersion ->
  allReturn (default [] (migrations !! (currentVersion +:+ "->" +:+ nextVersion)))
    current stepped ->
  migrationLoop migrations targetVersion (S fuel) current currentVersion errors
  = migrationLoop migrations targetVersion fuel
      (withVersion stepped nextVersion) nextVersion errors.
Proof.
  intros Hcmp Hnext Hall. simpl. rewrite Hcmp, Hnext. simpl.
  destruct (migrations !! (currentVersion +:+ "->" +:+ nextVersion))
    as [[| f fs] |]; simpl in Hall.
  - inversion Hall; subst. reflexivity.
  - rewrite (allReturn_applyMigrations _ _ _ Hall). reflexivity.
  - inversion Hall; subst. reflexivity.
Qed.

(** A round in which a function throws leaves the loop with its
    message. *)
Lemma migrationLoop_round_throws migrations targetVersion fuel current currentVersion
    nextVersion t errors :
  (compareVersions currentVersion targetVersion <? 0)%Z = true ->
  getNextVersion currentVersion = Some nextVersion ->
  oneThrows (default [] (migrations !! (currentVersion +:+ "->" +:+ nextVersion)))
    current t ->
  exists left,
    migrationLoop migrations targetVersion (S fuel) current currentVersion errors
    = Some (left,
            errors ++ ["Migration failed for "
                         +:+ (currentVersion +:+ "->" +:+ nextVersion)
                         +:+ ": " +:+ thrownMessage t]).
Proof.
  intros Hcmp Hnext Hthrow. simpl. rewrite Hcmp, Hnext. simpl.
  destruct (migrations !! (currentVersion +:+ "->" +:+ nextVersion))
    as [[| f fs] |]; simpl in Hthrow; try (inversion Hthrow; fail).
  destruct (oneThrows_applyMigrations _ _ _ Hthrow) as [left ->].
  exists left. reflexivity.
Qed.

Lemma compareNumbers_patch_below (a b c c2 a' b' c' : N) :
  (c <= c2)%N ->
  (compareNumbers [a; b; c2] [a'; b'; c'] <? 0)%Z = true ->
  (compareNumbers [a; b; c] [a'; b'; c'] <? 0)%Z = true.
Proof.
  simpl.
  destruct (N.ltb_spec a a'), (N.ltb_spec a' a), (N.ltb_spec b b'), (N.ltb_spec b' b),
    (N.ltb_spec c c'), (N.ltb_spec c' c), (N.ltb_spec c2 c'), (N.ltb_spec c' c2);
    simpl; intros Hle Hlt; try reflexivity; try discriminate; lia.
Qed.

(** Rounds in which nothing throws walk the patch number up, one by
    one. *)
Lemma roundsReturn_parts migrations (a b : N) :
  forall rounds currentVersion current reachedVersion reached (c : N),
    roundsReturn migrations rounds currentVersion current reachedVersion reached ->
    map Number (split "." currentVersion) = [Some a; Some b; Some c] ->
    map Number (split "." reachedVersion)
    = [Some a; Some b; Some (c + N.of_nat rounds)%N].
Proof.
  intros rounds currentVersion current reachedVersion reached c Hrun. revert c.
  induction Hrun as [v current | rounds v next current stepped rv reached Hnext _ _ IH];
    intros c Pc.
  - rewrite N.add_0_r. exact Pc.
  - rewrite (next_parts _ _ _ _ Pc) in Hnext. injection Hnext as <-.
    rewrite (IH (N.succ c) (parts_versionString _ _ _)).
    replace (c + N.of_nat (S rounds))%N with (N.succ c + N.of_nat rounds)%N
      by (rewrite Nat2N.inj_succ; lia).
    reflexivity.
Qed.

(** The loop runs through such rounds as long as the version reached is
    still below the target. *)
Lemma migrationLoop_rounds migrations targetVersion (a b a' b' c' : N) :
  map Number (split "." targetVersion) = [Some a'; Some b'; Some c'] ->
  forall rounds currentVersion current reachedVersion reached (c : N) fuel errors,
    roundsReturn migrations rounds currentVersion current reachedVersion reached ->
    map Number (split "." currentVersion) = [Some a; Some b; Some c] ->
    (compareVersions reachedVersion targetVersion <? 0)%Z = true ->
    migrationLoop migrations targetVersion (rounds + fuel) current currentVersion errors
    = migrationLoop migrations targetVersion fuel reached reachedVersion errors.
Proof.
  intros Pt rounds currentVersion current reachedVersion reached c fuel errors Hrun.
  revert c.
  induction Hrun
    as [v current | rounds v next current stepped rv reached Hnext Hall Hrest IH];
    intros c Pc Hcmp.
  - reflexivity.
  - pose proof (roundsReturn_parts migrations a b _ _ _ _ _ c
                  (roundsNext migrations _ _ _ _ _ _ _ Hnext Hall Hrest) Pc) as Pr.
    assert (Hhere : (compareVersions v targetVersion <? 0)%Z = true).
    { rewrite (compare_parts _ _ _ _ _ _ _ _ Pc Pt).
      rewrite (compare_parts _ _ _ _ _ _ _ _ Pr Pt) in Hcmp.
      apply (compareNumbers_patch_below a b c (c + N.of_nat (S rounds))); [lia |].
      exact Hcmp. }
    simpl Nat.add.
    rewrite (migrationLoop_round_returns _ _ _ _ _ _ _ _ Hhere Hnext Hall).
    pose proof Hnext as Hnext'.
    rewrite (next_parts _ _ _ _ Pc) in Hnext'. injection Hnext' as <-.
    apply (IH (N.succ c) (parts_versionString _ _ _) Hcmp).
Qed.

(** Whenever a migration function throws, in whatever round and whatever
    the target, the call returns a failure with the message of that
    throw. *)
Lemma migrate_throwing_round migrations definition
    (sourceVersion targetVersion reachedVersion nextVersion : string)
    (rounds fuel : nat) reached t :
  version definition = Some sourceVersion ->
  isValidVersion sourceVersion = true ->
  isValidVersion targetVersion = true ->
  roundsReturn migrations rounds sourceVersion definition reachedVersion reached ->
  (compareVersions reachedVersion targetVersion < 0)%Z ->
  getNextVersion reachedVersion = Some nextVersion ->
  oneThrows (default [] (migrations !! (reachedVersion +:+ "->" +:+ nextVersion)))
    reached t ->
  (rounds < fuel)%nat ->
  migrateWheelDefinition migrations fuel definition targetVersion
  = Some (failure ["Migration failed for " +:+ (reachedVersion +:+ "->" +:+ nextVersion)
                     +:+ ": " +:+ thrownMessage t]).
Proof.
  intros Hv Vs Vt Hrun Hcmp Hnext Hthrow Hfuel.
  destruct (valid_parts _ Vs) as (a & b & c & Ps).
  destruct (valid_parts _ Vt) as (a' & b' & c' & Pt).
  apply Z.ltb_lt in Hcmp.
  pose proof (roundsReturn_parts migrations a b _ _ _ _ _ c Hrun Ps) as Pr.
  assert (Hsource : (compareVersions sourceVersion targetVersion <? 0)%Z = true).
  { rewrite (compare_parts _ _ _ _ _ _ _ _ Ps Pt).
    rewrite (compare_parts _ _ _ _ _ _ _ _ Pr Pt) in Hcmp.
    apply (compareNumbers_patch_below a b c (c + N.of_nat rounds)); [lia | exact Hcmp]. }
  assert (Hneed : needsMigration definition targetVersion = true).
  { unfold needsMigration. rewrite Hv, Vs, Vt, (valid_nonempty _ Vs). exact Hsource. }
  destruct (migrate_loop_form migrations fuel _ _ Hneed)
    as (sv & a0 & b0 & c0 & a0' & b0' & c0' & Hv' & _ & _ & _ & ->).
  rewrite Hv in Hv'. injection Hv' as <-.
  replace fuel with (rounds + S (fuel - S rounds))%nat by lia.
  rewrite (migrationLoop_rounds migrations targetVersion a b a' b' c' Pt
             rounds sourceVersion definition reachedVersion reached c _ [] Hrun Ps Hcmp).
  destruct (migrationLoop_round_throws migrations targetVersion (fuel - S rounds)
              reached reachedVersion nextVersion t [] Hcmp Hnext Hthrow) as [left ->].
  reflexivity.
Qed.

(** C8, amended.  For every definition with a valid version and every
    valid target, the numbers of both being safe integers (at most
    2^53 - 1), an unmigratable transition is reported as a result with
    [success = false] and its message, never as a thrown fault: migrating
    backwards, and a migration function that throws, in whatever round of
    the loop and whatever the target.  A step for which no migration
    function is registered is not an error: the version is moved one patch
    up, and once the target is reached the result is a success carrying the
    target version. *)
Theorem migration_failures_are_results migrations definition :
  (forall fuel sourceVersion targetVersion,
      version definition = Some sourceVersion ->
      isValidVersion sourceVersion = true ->
      isValidVersion targetVersion = true ->
      safePieces sourceVersion = true -> safePieces targetVersion = true ->
      (0 < compareVersions sourceVersion targetVersion)%Z ->
      migrateWheelDefinition migrations fuel definition targetVersion
      = Some (failure ["Cannot migrate backwards from " +:+ sourceVersion +:+ " to "
                         +:+ targetVersion])) /\
  (forall sourceVersion targetVersion reachedVersion nextVersion
          (rounds fuel : nat) reached t,
      version definition = Some sourceVersion ->
      isValidVersion sourceVersion = true ->
      isValidVersion targetVersion = true ->
      safePieces sourceVersion = true -> safePieces targetVersion = true ->
      roundsReturn migrations rounds sourceVersion definition reachedVersion reached ->
      (compareVersions reachedVersion targetVersion < 0)%Z ->
      (pieceAt reachedVersion 2 < maxSafeInteger)%N ->
      getNextVersion reachedVersion = Some nextVersion ->
      oneThrows
        (default [] (migrations !! (reachedVersion +:+ "->" +:+ nextVersion)))
        reached t ->
      (rounds < fuel)%nat ->
      migrateWheelDefinition migrations fuel definition targetVersion
      = Some (failure ["Migration failed for "
                         +:+ (reachedVersion +:+ "->" +:+ nextVersion)
                         +:+ ": " +:+ thrownMessage t])) /\
  (forall (major minor patch : N) (n fuel : nat),
      unregistered migrations ->
      version definition = Some (versionString major minor patch) ->
      safeNumbers [major; minor; (patch + N.of_nat (S n))%N] = true ->
      (n < fuel)%nat ->
      migrateWheelDefinition migrations fuel definition
        (versionString major minor (patch + N.of_nat (S n)))
      = Some (succeeded
                (withVersion definition
                   (versionString major minor (patch + N.of_nat (S n)))))).
Proof.
  split; [| split].
  - intros. apply migrate_backwards; assumption.
  - intros. eapply migrate_throwing_round; eassumption.
  - intros. apply migrate_unregistered_gap; assumption.
Qed.

Lemma migration_failures_are_results_witness :
  migrateWheelDefinition ∅ 0 standardNatal "0.9.0"
  = Some (failure ["Cannot migrate backwards from 1.0.0 to 0.9.0"]) /\
  migrateWheelDefinition (registerMigration "1.0.1" "1.0.2" failingMigration ∅)
    2 standardNatal "2.0.0"
  = Some (failure ["Migration failed for 1.0.1->1.0.2: not supported"]) /\
  migrateWheelDefinition ∅ 3 standardNatal "1.0.3"
  = Some (succeeded (withVersion standardNatal "1.0.3")).
Proof.
  split; [| split].
  - destruct (migration_failures_are_results ∅ standardNatal) as (Hback & _ & _).
    apply (Hback 0%nat "1.0.0" "0.9.0"); reflexivity.
  - destruct (migration_failures_are_results
                (registerMigration "1.0.1" "1.0.2" failingMigration ∅) standardNatal)
      as (_ & Hthrow & _).
    apply (Hthrow "1.0.0" "2.0.0" "1.0.1" "1.0.2" 1%nat 2%nat
             (withVersion standardNatal "1.0.1") (ThrownError "not supported"));
      try reflexivity.
    + apply (roundsNext _ 0 "1.0.0" "1.0.1" standardNatal standardNatal);
        [reflexivity | apply allReturnNil | apply roundsNone].
    + apply throwsFirst. reflexivity.
    + lia.
  - destruct (migration_failures_are_results ∅ standardNatal) as (_ & _ & Hgap).
    apply (Hgap 1%N 0%N 0%N 2%nat 3%nat);
      [apply unregistered_empty | reflexivity | reflexivity | lia].
Defined.

End MigrationRunFacts.

(** ** What the loader accepts *)

Section WellFormedFacts.
Import Json Text Loader WellFormed Scenarios Samples.

Lemma andThen_throwIf (cond : bool) (message : string) (field : option string)
    (k : completion unit) :
  (throwIf cond message field ;;; k) = Returned tt <->
  cond = false /\ k = Returned tt.
Proof.
  destruct cond; simpl; split; try tauto; [discriminate | intros [? _]; discriminate].
Qed.

Lemma check_nonEmptyString (v : value) :
  negb (isString v) || negb (toBoolean v) = false <-> nonEmptyString v.
Proof.
  unfold nonEmptyString. destruct v as [| | b | n | s | items | fields]; simpl;
    try (split; [discriminate | intros (s' & Hs & _); discriminate]).
  split.
  - intros Hs. exists s. split; [reflexivity |].
    intros ->. discriminate.
  - intros (s' & [= <-] & Hne). destruct s; [contradiction | reflexivity].
Qed.

Lemma check_includes (list : list string) (v : value) :
  negb (includesString list v) = false <-> exists s, v = VString s /\ In s list.
Proof.
  destruct v as [| | b | n | s | items | fields]; simpl;
    try (split; [discriminate | intros (s' & Hs & _); discriminate]).
  rewrite negb_false_iff, existsb_exists. split.
  - intros (x & Hin & Heq). apply String.eqb_eq in Heq as <-. eauto.
  - intros (s' & [= <-] & Hin). exists s. split; [exact Hin | apply String.eqb_refl].
Qed.

Lemma check_number (v : value) :
  negb (isNumber v) = false <-> exists n, v = VNumber n.
Proof.
  destruct v; simpl; split; try discriminate; try (intros [? ?]; discriminate); eauto.
Qed.

Lemma check_radius (v : value) :
  negb (isNumber v) || numberLt v 0 || numberGt v 1 = false <->
  exists n, v = VNumber n /\ 0 <= n /\ n <= 1.
Proof.
  destruct v as [| | b | n | s | items | fields]; simpl;
    try (split; [discriminate | intros (? & ? & _); discriminate]).
  rewrite orb_false_iff, Qltb_ge, Qgtb_le. split.
  - intros [H0 H1]. eauto.
  - intros (n' & [= <-] & H0 & H1). auto.
Qed.

Lemma check_object_of_field (v : value) (key : string) (s : string) :
  get v key = VString s -> negb (toBoolean v) || negb (isObject v) = false.
Proof. destruct v; simpl; try discriminate; reflexivity. Qed.

Lemma ring_checks (ring : value) (index : nat) :
  validateRingDefinition ring index = Returned tt <-> wellFormedRing ring.
Proof.
  unfold validateRingDefinition. cbv zeta. rewrite !andThen_throwIf.
  rewrite !check_nonEmptyString, !check_includes, check_number, !check_radius.
  unfold wellFormedRing, wellFormedDataSource. split.
  - intros (_ & Hslug & Htype & Hlabel & Horder & (ri & Hri & Hri0 & Hri1)
            & (ro & Hro & Hro0 & Hro1) & Hge & _ & (kind & Hkind & Hin)
            & Hlayer & Haspect & _).
    rewrite Hri, Hro in Hge. simpl in Hge. unfold Qgeb in Hge.
    assert (Hlt : ri < ro).
    { apply Qnot_le_lt. intros Hle. apply Qle_bool_iff in Hle. congruence. }
    repeat (split; [assumption |]).
    split; [exists ri, ro; repeat split; assumption |].
    exists kind. split; [exact Hkind |].
    rewrite Hkind in Hlayer, Haspect.
    destruct Hin as [<- | [<- | [<- | [<- | []]]]].
    + left. reflexivity.
    + right. left. split; [left; reflexivity |].
      apply check_nonEmptyString. exact Hlayer.
    + right. left. split; [right; reflexivity |].
      apply check_nonEmptyString. exact Hlayer.
    + right. right. split; [reflexivity |].
      apply check_nonEmptyString. exact Haspect.
  - intros (Hslug & Htype & Hlabel & Horder
            & (ri & ro & Hri & Hro & H0 & Hlt & H1) & (kind & Hkind & Hcases)).
    destruct Hslug as (slug & Hslug & Hslug').
    split; [apply (check_object_of_field ring "slug" slug Hslug) |].
    split; [exists slug; auto |].
    repeat (split; [assumption |]).
    split; [exists ri; repeat split; [assumption | assumption | lra] |].
    split; [exists ro; repeat split; [assumption | lra | assumption] |].
    split.
    { rewrite Hri, Hro. simpl. unfold Qgeb.
      apply not_true_iff_false. rewrite Qle_bool_iff. lra. }
    split; [apply (check_object_of_field _ "kind" kind Hkind) |].
    rewrite Hkind.
    destruct Hcases as [-> | [[[-> | ->] Hid] | [-> Hid]]].
    + split; [exists "static_zodiac"; split; [reflexivity | simpl; auto] |].
      repeat split.
    + split; [exists "layer_houses"; split; [reflexivity | simpl; auto] |].
      split; [apply check_nonEmptyString, Hid | repeat split].
    + split; [exists "layer_planets"; split; [reflexivity | simpl; auto] |].
      split; [apply check_nonEmptyString, Hid | repeat split].
    + split; [exists "aspect_set"; split; [reflexivity | simpl; auto] |].
      split; [reflexivity |].
      split; [apply check_nonEmptyString, Hid | reflexivity].
Qed.

Lemma andThen_returns (c k : completion unit) :
  (c ;;; k) = Returned tt <-> c = Returned tt /\ k = Returned tt.
Proof.
  destruct c as [[] | e]; simpl; split; try tauto; intros H;
    discriminate H || (destruct H; discriminate).
Qed.

Lemma rings_checks (rings : list value) (index : nat) :
  validateRingsFrom index rings = Returned tt <-> Forall wellFormedRing rings.
Proof.
  revert index. induction rings as [| ring rest IH]; intros index; simpl.
  - split; [constructor | reflexivity].
  - rewrite andThen_returns, ring_checks, IH. split.
    + intros [Hring Hrest]. constructor; assumption.
    + intros Hall. inversion Hall; subst. split; assumption.
Qed.

Lemma check_optionalString (v : value) :
  negb (isUndefined v) && negb (isString v) = false <-> optionalString v.
Proof.
  unfold optionalString. destruct v; simpl; split; try discriminate; eauto;
    intros [H | [s' H]]; discriminate.
Qed.

Lemma check_array (v : value) :
  negb (isArray v) = false <-> exists items, v = VArray items.
Proof.
  destruct v; simpl; split; try discriminate; try (intros [? ?]; discriminate); eauto.
Qed.

Lemma check_strings (items : list value) :
  forallb isString items = true <-> Forall (fun tag => exists s, tag = VString s) items.
Proof.
  rewrite forallb_forall, Stdlib.Lists.List.Forall_forall. split; intros H tag Hin.
  - specialize (H tag Hin). destruct tag; try discriminate. eauto.
  - destruct (H tag Hin) as [s ->]. reflexivity.
Qed.

Lemma wheel_checks (definition : value) :
  validateWheelDefinition definition = Returned tt <-> wellFormedWheel definition.
Proof.
  unfold validateWheelDefinition. cbv zeta.
  rewrite !andThen_throwIf, andThen_returns, !andThen_throwIf.
  rewrite check_nonEmptyString, check_array, rings_checks, !check_optionalString.
  unfold wellFormedWheel. split.
  - intros (_ & Hname & (rings & Hrings) & Hlen & Hall & Hdesc & Hv1 & Hv2 & Hauthor
            & Ht1 & Ht2 & _).
    rewrite Hrings in Hlen, Hall. simpl in Hlen, Hall.
    repeat (split; [assumption |]).
    split; [exists rings; split; [assumption |]; split; [| assumption];
            intros ->; discriminate |].
    split; [assumption |].
    split.
    { destruct Hv1 as [Hu | [version Hs]]; [left; exact Hu |].
      right. exists version. split; [exact Hs |].
      rewrite Hs in Hv2. simpl in Hv2. apply negb_false_iff in Hv2. exact Hv2. }
    split; [assumption |].
    destruct (get definition "tags") as [| | b | n | s | tags | fields];
      try discriminate; [left; reflexivity |].
    right. exists tags. split; [reflexivity |].
    apply check_strings. simpl in Ht2. apply negb_false_iff in Ht2. exact Ht2.
  - intros (Hname & (rings & Hrings & Hne & Hall) & Hdesc & Hversion & Hauthor & Htags).
    destruct Hname as (wheelName & Hname & Hname').
    split; [apply (check_object_of_field definition "name" wheelName Hname) |].
    split; [exists wheelName; auto |].
    split; [eauto |].
    rewrite Hrings. simpl.
    split; [destruct rings; [contradiction | reflexivity] |].
    repeat (split; [assumption |]).
    split.
    { destruct Hversion as [-> | (version & -> & _)]; [left | right]; eauto. }
    split.
    { destruct Hversion as [-> | (version & -> & Hvalid)]; [reflexivity |].
      simpl. rewrite Hvalid. reflexivity. }
    split; [assumption |].
    destruct Htags as [-> | (tags & -> & Hstrings)]; [repeat split |].
    split; [reflexivity |]. split; [| reflexivity].
    simpl. apply check_strings in Hstrings. rewrite Hstrings. reflexivity.
Qed.

Lemma ring_error_field (ring : value) (index : nat) (e : WheelDefinitionValidationError) :
  validateRingDefinition ring index = Thrown e ->
  exists f, field e = Some f /\ startsWith (ringPath index) f.
Proof.
  unfold validateRingDefinition, startsWith, ringPath. cbv zeta.
  repeat match goal with
  | |- (throwIf ?c _ _ ;;; _) = Thrown _ -> _ =>
      destruct c; simpl;
      [intros [= <-]; simpl; eexists; split; [reflexivity |];
       solve [eexists; reflexivity | exists EmptyString; symmetry; apply append_empty_r] |]
  end.
  discriminate.
Qed.

(** X19.  [validateRingDefinition] returns exactly for the well-formed
    rings: non-empty texts [slug] and [label], one of the four ring types,
    a number [orderIndex], radii with [0 <= radiusInner < radiusOuter <= 1],
    and a data source of kind [static_zodiac], [layer_houses] or
    [layer_planets] with a non-empty [layerId], or [aspect_set] with a
    non-empty [aspectSetId].  For any other ring it throws an error whose
    [field] starts with [rings[index]]. *)
Theorem ring_accepted_iff_well_formed (ring : value) (index : nat) :
  (validateRingDefinition ring index = Returned tt <-> wellFormedRing ring) /\
  (~ wellFormedRing ring ->
   exists e f,
     validateRingDefinition ring index = Thrown e /\
     field e = Some f /\ startsWith (ringPath index) f).
Proof.
  split; [apply ring_checks |].
  intros Hbad.
  destruct (validateRingDefinition ring index) as [[] | e] eqn:Hrun.
  - destruct Hbad. apply (ring_checks ring index). exact Hrun.
  - destruct (ring_error_field ring index e Hrun) as (f & Hf & Hstart).
    exists e, f. auto.
Qed.

Lemma ring_accepted_iff_well_formed_witness :
  validateRingDefinition
    (VObject [ ("slug", VString "ring_houses"); ("type", VString "houses");
               ("label", VString "Houses"); ("orderIndex", VNumber 1);
               ("radiusInner", VNumber (75 # 100)); ("radiusOuter", VNumber (85 # 100));
               ("dataSource", VObject [ ("kind", VString "layer_houses");
                                        ("layerId", VString "natal") ]) ]) 1
  = Returned tt.
Proof.
  apply ring_accepted_iff_well_formed.
  split; [exists "ring_houses"; split; [reflexivity | discriminate] |].
  split; [exists "houses"; split; [reflexivity | right; left; reflexivity] |].
  split; [exists "Houses"; split; [reflexivity | discriminate] |].
  split; [exists 1; reflexivity |].
  split; [exists (75 # 100), (85 # 100); repeat split; (reflexivity || discriminate) |].
  exists "layer_houses". split; [reflexivity |].
  right. left. split; [left; reflexivity |].
  exists "natal". split; [reflexivity | discriminate].
Defined.

Lemma load_checks (JSON_parse : string -> parseOutcome)
    (json : string) (definition : value) :
  loadWheelDefinitionFromJSON JSON_parse json = Returned definition <->
  JSON_parse json = Parsed definition /\ wellFormedWheel definition.
Proof.
  unfold loadWheelDefinitionFromJSON. rewrite <- wheel_checks.
  destruct (JSON_parse json) as [parsed | errorMessage].
  - destruct (validateWheelDefinition parsed) as [[] | e] eqn:Hv; simpl; split.
    + intros [= ->]. split; [reflexivity | exact Hv].
    + intros [[= ->] _]. reflexivity.
    + discriminate.
    + intros [[= ->] Hok]. rewrite Hv in Hok. discriminate.
  - split; [discriminate | intros [H _]; discriminate].
Qed.

(** X20.  [loadWheelDefinitionFromJSON] returns a definition exactly when
    the text parses to it and it is well formed: a non-empty [name], a
    non-empty array of well-formed rings, [description] and [author] texts
    or omitted, [version] a valid version or omitted, [tags] an array of
    texts or omitted.  A parsed value that is not well formed makes it
    throw the error of [validateWheelDefinition], and a text that does not
    parse the error [Invalid JSON: ...] with no field. *)
Theorem loader_returns_exactly_well_formed (JSON_parse : string -> parseOutcome)
    (json : string) :
  (forall definition,
      loadWheelDefinitionFromJSON JSON_parse json = Returned definition <->
      JSON_parse json = Parsed definition /\ wellFormedWheel definition) /\
  (forall definition,
      JSON_parse json = Parsed definition -> ~ wellFormedWheel definition ->
      exists e,
        validateWheelDefinition definition = Thrown e /\
        loadWheelDefinitionFromJSON JSON_parse json = Thrown e) /\
  (forall errorMessage,
      JSON_parse json = SyntaxError errorMessage ->
      loadWheelDefinitionFromJSON JSON_parse json
      = Thrown (mkValidationError ("Invalid JSON: " +:+ errorMessage) None)).
Proof.
  split; [intros definition; apply load_checks |]. split.
  - intros definition Hparse Hbad. unfold loadWheelDefinitionFromJSON.
    rewrite Hparse.
    destruct (validateWheelDefinition definition) as [[] | e] eqn:Hrun.
    + destruct Hbad. apply wheel_checks. exact Hrun.
    + exists e. split; reflexivity.
  - intros errorMessage Hparse. unfold loadWheelDefinitionFromJSON.
    rewrite Hparse. reflexivity.
Qed.

Lemma loader_returns_exactly_well_formed_witness : wellFormedWheel testWheel.
Proof.
  destruct (loader_returns_exactly_well_formed (parseAs testWheel) "test-wheel")
    as (Hreturns & _).
  apply (Hreturns testWheel). reflexivity.
Defined.

(** X21.  When the walk over the rings throws, the error is the one of
    the first ring that is not well formed, every ring before it is well
    formed, and the [field] of the error starts with [rings[i]] for that
    ring's index. *)
Theorem first_failing_ring_is_reported (rings : list value) (index : nat)
    (e : WheelDefinitionValidationError) :
  validateRingsFrom index rings = Thrown e ->
  exists i ring,
    rings !! i = Some ring /\
    validateRingDefinition ring (index + i) = Thrown e /\
    (forall j r, (j < i)%nat -> rings !! j = Some r -> wellFormedRing r) /\
    exists f, field e = Some f /\ startsWith (ringPath (index + i)) f.
Proof.
  revert index. induction rings as [| first rest IH]; intros index; simpl;
    [discriminate |].
  destruct (validateRingDefinition first index) as [[] | e'] eqn:Hfirst; simpl.
  - intros Hrest. destruct (IH _ Hrest) as (i & ring & Hi & Hthrow & Hbefore & Hfield).
    exists (S i), ring.
    replace (index + S i)%nat with (S index + i)%nat by lia.
    split; [exact Hi |]. split; [exact Hthrow |]. split; [| exact Hfield].
    intros [| j] r Hj Hr.
    + injection Hr as <-. apply (ring_checks first index). exact Hfirst.
    + apply (Hbefore j r); [lia | exact Hr].
  - intros [= ->]. exists 0%nat, first. rewrite Nat.add_0_r.
    split; [reflexivity |]. split; [exact Hfirst |].
    split; [intros j r Hj; lia |].
    apply (ring_error_field first index e Hfirst).
Qed.

Lemma first_failing_ring_is_reported_witness :
  exists i ring,
    [badRing] !! i = Some ring /\
    validateRingDefinition ring (0 + i) = Thrown (radiusError 0) /\
    (forall j r, (j < i)%nat -> [badRing] !! j = Some r -> wellFormedRing r) /\
    exists f, field (radiusError 0) = Some f /\ startsWith (ringPath (0 + i)) f.
Proof.
  apply (first_failing_ring_is_reported [badRing] 0 (radiusError 0)). reflexivity.
Defined.

(** X22.  A wheel with a ring whose data source is of kind
    [static_nakshatras] or [layer_varga_planets], the two kinds that
    [RingDataSource] declares and the validator's list leaves out, is never
    loaded: [loadWheelDefinitionFromJSON] throws. *)
Theorem undeclared_source_kinds_are_rejected (JSON_parse : string -> parseOutcome)
    (json : string) (definition : value) (rings : list value) (ring : value)
    (kind : string) :
  JSON_parse json = Parsed definition ->
  get definition "rings" = VArray rings ->
  In ring rings ->
  get (get ring "dataSource") "kind" = VString kind ->
  In kind ["static_nakshatras"; "layer_varga_planets"] ->
  exists e, loadWheelDefinitionFromJSON JSON_parse json = Thrown e.
Proof.
  intros Hparse Hrings Hin Hkind Hvedic.
  destruct (loadWheelDefinitionFromJSON JSON_parse json) as [v | e] eqn:Hload;
    [| eauto].
  apply load_checks in Hload as [Hv Hwell].
  rewrite Hparse in Hv. injection Hv as <-.
  destruct Hwell as (_ & (rings' & Hrings' & _ & Hall) & _).
  rewrite Hrings in Hrings'. injection Hrings' as <-.
  rewrite Stdlib.Lists.List.Forall_forall in Hall.
  destruct (Hall ring Hin) as (_ & _ & _ & _ & _ & (kind' & Hkind' & Hcases)).
  rewrite Hkind in Hkind'. injection Hkind' as <-.
  destruct Hvedic as [<- | [<- | []]];
    destruct Hcases as [H | [[[H | H] _] | [H _]]]; discriminate H.
Qed.

Lemma undeclared_source_kinds_are_rejected_witness :
  exists e, loadWheelDefinitionFromJSON (parseAs nakshatraWheel) "vedic" = Thrown e.
Proof.
  apply (undeclared_source_kinds_are_rejected (parseAs nakshatraWheel) "vedic"
           nakshatraWheel [nakshatraRing] nakshatraRing "static_nakshatras").
  - reflexivity.
  - reflexivity.
  - left. reflexivity.
  - reflexivity.
  - left. reflexivity.
Defined.

End WellFormedFacts.

(** ** The registry as state *)

Section RegistryStateFacts.
Import Wheels Registry Scenarios Samples.

Implicit Types userDefinitions : gmap string WheelDefinitionWithPresets.

Lemma toLowerCase_replaceRuns (inRun : bool) (s : string) :
  toLowerCase (replaceRuns inRun (toLowerCase s)) = replaceRuns inRun (toLowerCase s).
Proof.
  revert inRun. induction s as [| c s IH]; intros inRun; simpl; [reflexivity |].
  rewrite isSpace_lowerChar. destruct (isSpace c).
  - destruct inRun; simpl; rewrite IH; reflexivity.
  - simpl. rewrite lowerChar_idempotent, IH. reflexivity.
Qed.

Lemma replaceRuns_replaceRuns (inRun inRun' : bool) (s : string) :
  replaceRuns inRun' (replaceRuns inRun s) = replaceRuns inRun s.
Proof.
  revert inRun inRun'. induction s as [| c s IH]; intros inRun inRun'; simpl;
    [reflexivity |].
  destruct (isSpace c) eqn:Hc.
  - destruct inRun; [apply IH |]. simpl. rewrite IH. reflexivity.
  - simpl. rewrite Hc, IH. reflexivity.
Qed.

Lemma normalizeWheelName_idempotent (name : string) :
  normalizeWheelName (normalizeWheelName name) = normalizeWheelName name.
Proof.
  unfold normalizeWheelName.
  rewrite toLowerCase_replaceRuns. apply replaceRuns_replaceRuns.
Qed.

(** X23.  Normalizing a wheel name twice is the same as once, so a key
    can be used as a name; and a definition whose name is the key of
    another name is found under that name. *)
Theorem wheel_key_is_a_name userDefinitions (name : string) definition :
  normalizeWheelName (normalizeWheelName name) = normalizeWheelName name /\
  getWheelDefinition userDefinitions (normalizeWheelName name)
  = getWheelDefinition userDefinitions name /\
  (Wheels.name definition = normalizeWheelName name ->
   getWheelDefinition (registerWheelDefinition definition userDefinitions) name
   = Some definition).
Proof.
  split; [apply normalizeWheelName_idempotent |]. split.
  - apply getWheelDefinition_same_key, normalizeWheelName_idempotent.
  - intros Hname. apply getWheelDefinition_registered.
    rewrite Hname, normalizeWheelName_idempotent. reflexivity.
Qed.

Lemma wheel_key_is_a_name_witness :
  getWheelDefinition
    (registerWheelDefinition keyNamedWheel ∅) "Standard Natal Wheel"
  = Some keyNamedWheel.
Proof.
  destruct (wheel_key_is_a_name ∅ "Standard Natal Wheel"
              keyNamedWheel) as (_ & _ & Hfound).
  apply Hfound. reflexivity.
Defined.

Lemma unregister_lookup userDefinitions (name other : string) :
  getWheelDefinition (unregisterWheelDefinition name userDefinitions).2 other
  = if decide (normalizeWheelName other = normalizeWheelName name)
    then getWheelDefinition ∅ other
    else getWheelDefinition userDefinitions other.
Proof.
  unfold getWheelDefinition, unregisterWheelDefinition. simpl.
  destruct (decide _) as [-> | Hne].
  - rewrite lookup_delete_eq, lookup_empty. reflexivity.
  - rewrite lookup_delete_ne by congruence. reflexivity.
Qed.

(** X24.  [unregisterWheelDefinition] returns [true] exactly when a user
    definition was registered under the name, and [false] when called once
    more.  Afterwards the name finds what the empty registry finds, the
    built-in wheel is still found, and every name with another key finds
    what it found before. *)
Theorem unregister_uncovers_built_in userDefinitions (name : string) :
  ((unregisterWheelDefinition name userDefinitions).1 = true <->
   exists definition,
     userDefinitions !! normalizeWheelName name = Some definition /\
     getWheelDefinition userDefinitions name = Some definition) /\
  (unregisterWheelDefinition name
     (unregisterWheelDefinition name userDefinitions).2).1 = false /\
  getWheelDefinition (unregisterWheelDefinition name userDefinitions).2 name
  = getWheelDefinition ∅ name /\
  getWheelDefinition (unregisterWheelDefinition name userDefinitions).2
    "Standard Natal Wheel" <> None /\
  (forall other,
      normalizeWheelName other <> normalizeWheelName name ->
      getWheelDefinition (unregisterWheelDefinition name userDefinitions).2 other
      = getWheelDefinition userDefinitions other).
Proof.
  split; [| split; [| split; [| split]]].
  - unfold unregisterWheelDefinition, getWheelDefinition. simpl.
    rewrite bool_decide_eq_true. split.
    + intros [definition Hd]. exists definition. rewrite Hd. auto.
    + intros (definition & Hd & _). eauto.
  - unfold unregisterWheelDefinition. simpl.
    rewrite bool_decide_eq_false, lookup_delete_eq. intros [? ?]. discriminate.
  - rewrite unregister_lookup. destruct (decide _); [reflexivity | contradiction].
  - rewrite unregister_lookup. destruct (decide _) as [_ | _].
    + discriminate.
    + unfold getWheelDefinition.
      destruct (userDefinitions !! normalizeWheelName "Standard Natal Wheel");
        discriminate.
  - intros other Hne. rewrite unregister_lookup.
    destruct (decide _); [contradiction | reflexivity].
Qed.

Lemma unregister_uncovers_built_in_witness :
  (unregisterWheelDefinition "standard natal wheel"
     (registerWheelDefinition userStandardNatal ∅)).1 = true /\
  getWheelDefinition
    (unregisterWheelDefinition "standard natal wheel"
       (registerWheelDefinition userStandardNatal ∅)).2 "Standard Natal Wheel"
  = Some standardNatal.
Proof.
  destruct (unregister_uncovers_built_in (registerWheelDefinition userStandardNatal ∅)
              "standard natal wheel") as (Hremoved & _ & Hlookup & _).
  split.
  - apply Hremoved. exists userStandardNatal. split; reflexivity.
  - rewrite (getWheelDefinition_same_key _ "Standard Natal Wheel" "standard natal wheel")
      by reflexivity.
    rewrite Hlookup. reflexivity.
Defined.

Lemma register_lookup userDefinitions definition (other : string) :
  getWheelDefinition (registerWheelDefinition definition userDefinitions) other
  = if decide (normalizeWheelName other = normalizeWheelName (name definition))
    then Some definition
    else getWheelDefinition userDefinitions other.
Proof.
  unfold getWheelDefinition, registerWheelDefinition.
  destruct (decide _) as [-> | Hne].
  - rewrite lookup_insert_eq. reflexivity.
  - rewrite lookup_insert_ne by congruence. reflexivity.
Qed.

(** X25.  Registering a second definition under the same key leaves the
    registry as if the first had never been registered; registering leaves
    the lookups of all other keys alone; and unregistering a definition
    just registered returns [true] and, when its key was free before,
    restores the registry. *)
Theorem registration_overwrites_and_undoes userDefinitions
    (definition1 definition2 : WheelDefinitionWithPresets) :
  (normalizeWheelName (name definition1) = normalizeWheelName (name definition2) ->
   registerWheelDefinition definition2
     (registerWheelDefinition definition1 userDefinitions)
   = registerWheelDefinition definition2 userDefinitions) /\
  (forall other,
      normalizeWheelName other <> normalizeWheelName (name definition1) ->
      getWheelDefinition (registerWheelDefinition definition1 userDefinitions) other
      = getWheelDefinition userDefinitions other) /\
  (unregisterWheelDefinition (name definition1)
     (registerWheelDefinition definition1 userDefinitions)).1 = true /\
  (userDefinitions !! normalizeWheelName (name definition1) = None ->
   (unregisterWheelDefinition (name definition1)
      (registerWheelDefinition definition1 userDefinitions)).2 = userDefinitions).
Proof.
  split; [| split; [| split]].
  - intros Hkey. unfold registerWheelDefinition. rewrite Hkey.
    apply insert_insert_eq.
  - intros other Hne. rewrite register_lookup.
    destruct (decide _); [contradiction | reflexivity].
  - unfold unregisterWheelDefinition, registerWheelDefinition. simpl.
    rewrite bool_decide_eq_true, lookup_insert_eq. eauto.
  - intros Hnone. unfold unregisterWheelDefinition, registerWheelDefinition. simpl.
    rewrite delete_insert_eq. apply delete_id, Hnone.
Qed.

Lemma registration_overwrites_and_undoes_witness :
  registerWheelDefinition userStandardNatal (registerWheelDefinition standardNatal ∅)
  = registerWheelDefinition userStandardNatal ∅ /\
  (unregisterWheelDefinition "Standard Natal Wheel"
     (registerWheelDefinition standardNatal ∅)).2 = ∅.
Proof.
  destruct (registration_overwrites_and_undoes ∅ standardNatal userStandardNatal)
    as (Hover & _ & _ & Hundo).
  split.
  - apply Hover. reflexivity.
  - apply Hundo. reflexivity.
Defined.

End RegistryStateFacts.

(** ** Configurations and presets *)

Section ConfigFacts.
Import Json Wheels Registry Configs ChartPresets Scenarios.

Implicit Types config base : gmap string value.

Lemma ownProperties_objectOf config : ownProperties (objectOf config) = config.
Proof. apply list_to_map_to_list. Qed.

Lemma spread_lookup (a b : gmap string value) (key : string) :
  spread a b !! key = orElse (b !! key) (a !! key).
Proof.
  unfold spread, orElse. destruct (b !! key) as [v |] eqn:Hb.
  - apply lookup_union_Some_l, Hb.
  - rewrite lookup_union_r by exact Hb. reflexivity.
Qed.

Lemma spread_again (a b : gmap string value) : spread a (spread a b) = spread a b.
Proof.
  apply map_eq. intros key. rewrite !spread_lookup.
  unfold orElse. destruct (b !! key), (a !! key); reflexivity.
Qed.

Lemma mergeField_properties base (config : option (gmap string value)) (key inner : string) :
  ownProperties (mergeField base config key) !! inner
  = orElse (ownProperties (optionalField config key) !! inner)
      (ownProperties (default VUndefined (base !! key)) !! inner).
Proof. unfold mergeField. rewrite ownProperties_objectOf. apply spread_lookup. Qed.

(** X26.  [mergeVisualConfig] reads every property other than
    [aspectColors] from the given configuration when it has the property
    (also when the property holds [undefined]) and from the defaults
    otherwise; [aspectColors] is merged color by color in the same way; and
    merging a merged configuration again changes nothing. *)
Theorem mergeVisualConfig_precedence (config : option (gmap string value)) :
  (forall key, key <> "aspectColors" ->
     mergeVisualConfig config !! key
     = orElse (default ∅ config !! key) (defaultVisualConfig !! key)) /\
  (exists merged,
     mergeVisualConfig config !! "aspectColors" = Some merged /\
     forall color,
       ownProperties merged !! color
       = orElse (ownProperties (optionalField config "aspectColors") !! color)
           (ownProperties (default VUndefined (defaultVisualConfig !! "aspectColors"))
              !! color)) /\
  mergeVisualConfig (Some (mergeVisualConfig config)) = mergeVisualConfig config.
Proof.
  split; [| split].
  - intros key Hkey. unfold mergeVisualConfig.
    rewrite lookup_insert_ne by congruence. apply spread_lookup.
  - eexists. split; [apply lookup_insert_eq |].
    intros color. apply mergeField_properties.
  - unfold mergeVisualConfig at 1. simpl.
    assert (Hsame : spread defaultVisualConfig (mergeVisualConfig config)
                    = mergeVisualConfig config).
    { apply map_eq. intros key. rewrite spread_lookup.
      destruct (mergeVisualConfig config !! key) as [v |] eqn:Hv; [reflexivity |].
      simpl.
      unfold mergeVisualConfig in Hv.
      apply lookup_insert_None in Hv as [Hv _].
      rewrite spread_lookup in Hv. unfold orElse in *.
      destruct (default ∅ config !! key); [discriminate | exact Hv]. }
    rewrite Hsame. apply insert_id.
    unfold mergeVisualConfig at 1. rewrite lookup_insert_eq. f_equal.
    unfold mergeField. f_equal.
    unfold optionalField at 2. unfold mergeVisualConfig.
    rewrite lookup_insert_eq. simpl. rewrite list_to_map_to_list.
    symmetry. apply spread_again.
Qed.

Lemma mergeVisualConfig_precedence_witness :
  mergeVisualConfig (Some {[ "ringWidth" := VNumber 40 ]}) !! "ringWidth"
  = Some (VNumber 40) /\
  mergeVisualConfig (Some {[ "ringWidth" := VNumber 40 ]}) !! "ringSpacing"
  = Some (VNumber 10).
Proof.
  destruct (mergeVisualConfig_precedence (Some {[ "ringWidth" := VNumber 40 ]}))
    as (Hkey & _).
  split; rewrite Hkey by discriminate; reflexivity.
Defined.

Lemma mergeGlyphConfig_lookup (config : option (gmap string value)) (key : string) :
  ~ In key ["signGlyphs"; "planetGlyphs"; "aspectGlyphs"] ->
  mergeGlyphConfig config !! key
  = orElse (default ∅ config !! key) (defaultGlyphConfig !! key).
Proof.
  intros Hkey. unfold mergeGlyphConfig. simpl in Hkey.
  rewrite !lookup_insert_ne by (intros <-; tauto). apply spread_lookup.
Qed.

(** X27.  [mergeGlyphConfig] reads [glyphSize], [glyphFont] and any other
    property outside the three glyph tables from the given configuration
    when it has the property and from the defaults otherwise, and merges
    each of [signGlyphs], [planetGlyphs] and [aspectGlyphs] glyph by glyph
    in the same way. *)
Theorem mergeGlyphConfig_precedence (config : option (gmap string value)) :
  (forall key, ~ In key ["signGlyphs"; "planetGlyphs"; "aspectGlyphs"] ->
     mergeGlyphConfig config !! key
     = orElse (default ∅ config !! key) (defaultGlyphConfig !! key)) /\
  (forall key, In key ["signGlyphs"; "planetGlyphs"; "aspectGlyphs"] ->
     exists merged,
       mergeGlyphConfig config !! key = Some merged /\
       forall glyph,
         ownProperties merged !! glyph
         = orElse (ownProperties (optionalField config key) !! glyph)
             (ownProperties (default VUndefined (defaultGlyphConfig !! key)) !! glyph)).
Proof.
  split; [apply mergeGlyphConfig_lookup |].
  intros key Hkey. exists (mergeField defaultGlyphConfig config key).
  split; [| intros glyph; apply mergeField_properties].
  unfold mergeGlyphConfig.
  destruct Hkey as [<- | [<- | [<- | []]]].
  - rewrite !lookup_insert_ne by discriminate. apply lookup_insert_eq.
  - rewrite lookup_insert_ne by discriminate. apply lookup_insert_eq.
  - apply lookup_insert_eq.
Qed.

Lemma mergeGlyphConfig_precedence_witness :
  mergeGlyphConfig (Some {[ "glyphSize" := VNumber 10 ]}) !! "glyphSize"
  = Some (VNumber 10) /\
  mergeGlyphConfig (Some {[ "glyphSize" := VNumber 10 ]}) !! "glyphFont"
  = Some (VString "Arial").
Proof.
  destruct (mergeGlyphConfig_precedence (Some {[ "glyphSize" := VNumber 10 ]}))
    as (Hkey & _).
  split; rewrite Hkey by (simpl; intros [H | [H | [H | []]]]; discriminate H);
    reflexivity.
Defined.

(** X28.  [createPresetFromWheel] throws when the registry does not find
    the wheel.  Otherwise the preset holds the definition the registry
    finds, and its configurations are layered as documented: a property is
    read from the preset's overrides, else from the wheel's defaults, else
    from the package defaults, and so is each color of [aspectColors]. *)
Theorem createPresetFromWheel_layers
    (userDefinitions : gmap string WheelDefinitionWithPresets)
    (wheelName presetName : string)
    (visualOverrides glyphOverrides : option (gmap string value)) :
  match getWheelDefinition userDefinitions wheelName with
  | None =>
      createPresetFromWheel userDefinitions wheelName presetName
        visualOverrides glyphOverrides
      = NotFound ("Wheel definition not found: " +:+ wheelName)
  | Some definition =>
      exists preset,
        createPresetFromWheel userDefinitions wheelName presetName
          visualOverrides glyphOverrides = Created preset /\
        wheel preset = definition /\
        ChartPresets.name preset = presetName /\
        (forall key, key <> "aspectColors" ->
           visualConfig preset !! key
           = orElse (default ∅ visualOverrides !! key)
               (orElse
                  (default ∅ (wheelConfig (Wheels.defaultVisualConfig definition)) !! key)
                  (Configs.defaultVisualConfig !! key))) /\
        (forall key, ~ In key ["signGlyphs"; "planetGlyphs"; "aspectGlyphs"] ->
           glyphConfig preset !! key
           = orElse (default ∅ glyphOverrides !! key)
               (orElse
                  (default ∅ (wheelConfig (Wheels.defaultGlyphConfig definition)) !! key)
                  (Configs.defaultGlyphConfig !! key))) /\
        (exists merged,
           visualConfig preset !! "aspectColors" = Some merged /\
           forall color,
             ownProperties merged !! color
             = orElse (ownProperties (optionalField visualOverrides "aspectColors")
                         !! color)
                 (orElse
                    (ownProperties
                       (optionalField (wheelConfig (Wheels.defaultVisualConfig definition))
                          "aspectColors") !! color)
                    (ownProperties
                       (default VUndefined (Configs.defaultVisualConfig !! "aspectColors"))
                       !! color)))
  end.
Proof.
  unfold createPresetFromWheel.
  destruct (getWheelDefinition userDefinitions wheelName) as [definition |];
    [| reflexivity].
  eexists. split; [reflexivity |]. simpl.
  split; [reflexivity |]. split; [reflexivity |].
  set (wheelVisual := wheelConfig (Wheels.defaultVisualConfig definition)).
  set (wheelGlyph := wheelConfig (Wheels.defaultGlyphConfig definition)).
  split; [| split].
  - intros key Hkey. unfold mergeVisualConfig, combineOverrides. simpl.
    rewrite !lookup_insert_ne by congruence.
    rewrite !spread_lookup, lookup_insert_ne by congruence.
    rewrite spread_lookup.
    unfold orElse. destruct (default ∅ visualOverrides !! key),
      (default ∅ wheelVisual !! key); reflexivity.
  - intros key Hkey. rewrite mergeGlyphConfig_lookup by exact Hkey.
    unfold combineOverrides. simpl. simpl in Hkey.
    rewrite !lookup_insert_ne by (intros <-; tauto).
    rewrite spread_lookup.
    unfold orElse. destruct (default ∅ glyphOverrides !! key),
      (default ∅ wheelGlyph !! key); reflexivity.
  - eexists. split; [apply lookup_insert_eq |]. intros color.
    rewrite mergeField_properties. unfold optionalField at 1.
    unfold combineOverrides. simpl. rewrite lookup_insert_eq. simpl.
    rewrite list_to_map_to_list, spread_lookup.
    unfold orElse.
    destruct (ownProperties (optionalField visualOverrides "aspectColors") !! color),
      (ownProperties (optionalField wheelVisual "aspectColors") !! color); reflexivity.
Qed.

Lemma createPresetFromWheel_layers_witness :
  exists preset,
    createPresetFromWheel ∅ "Standard Natal Wheel" "Minimal"
      (Some {[ "strokeWidth" := VNumber 3 ]}) None = Created preset /\
    visualConfig preset !! "strokeWidth" = Some (VNumber 3) /\
    visualConfig preset !! "ringWidth" = Some (VNumber 30) /\
    visualConfig preset !! "strokeColor" = Some (VString "#000000").
Proof.
  pose proof (createPresetFromWheel_layers ∅ "Standard Natal Wheel" "Minimal"
                (Some {[ "strokeWidth" := VNumber 3 ]}) None) as Hlayers.
  change (getWheelDefinition ∅ "Standard Natal Wheel") with (Some standardNatal)
    in Hlayers.
  destruct Hlayers as (preset & Hcreated & _ & _ & Hvisual & _).
  exists preset. split; [exact Hcreated |].
  repeat split; rewrite Hvisual by discriminate; reflexivity.
Defined.

End ConfigFacts.
